(** * docx2python.iterators: traversal, leaf join and HTML map over nested lists

    The module works on Python lists nested to a fixed depth
    (tables, rows, cells, paragraphs, runs).  Lists are mutable objects held by
    reference, and [get_html_map] rewrites a deep copy of its argument in
    place, so the embedding keeps an explicit store of list objects: a value is
    a string, an integer or a reference to a list object of the store. *)

From Stdlib Require Import ZArith String Ascii DecimalString.
From stdpp Require Import base list sorting gmap.
From Equations Require Import Equations.

Open Scope Z_scope.

(** ** Values and the store *)

Abbreviation loc := nat.

(** Python values that occur in the nested structures: [str], [int] (standing
    for a payload that cannot be iterated over, such as an integer or
    [None]) and references to list objects. *)
Inductive val :=
| VStr (s : string)
| VInt (z : Z)
| VList (l : loc).

(** The store: object number [l] is the current content of the list object
    [l].  Allocation appends, so that [length h] is the next reference. *)
Abbreviation heap := (list (list val)).

Inductive exn :=
| ValueError (msg : string)
| TypeError
| IndexError
| RecursionError.

(** The result of running a piece of code: a value, a raised exception, or
    [Undef] for what lies outside the modelled fragment (a reference that
    designates no object, [str] of a list). *)
Inductive outcome (A : Type) :=
| Ok (a : A)
| Raise (e : exn)
| Undef.
Arguments Ok {A} a.
Arguments Raise {A} e.
Arguments Undef {A}.

(** ** Strings *)

(** The one-character strings of [s], as iterating over a [str] yields them. *)
Fixpoint chars (s : string) : list string :=
  match s with
  | EmptyString => []
  | String c s' => String c EmptyString :: chars s'
  end.

(** [str(n)] for an index. *)
Definition str_of_nat (n : nat) : string := NilZero.string_of_uint (Nat.to_uint n).

(** [str(z)] for an [int]. *)
Definition str_of_Z (z : Z) : string := NilZero.string_of_int (Z.to_int z).

(** [str(t)] for a tuple of indices: ["(0, 0, 1, 0)"], and ["(3,)"] for a
    tuple of one element. *)
Definition str_of_tuple (a : list nat) : string :=
  match a with
  | [i] => ("(" ++ str_of_nat i ++ ",)")%string
  | _ => ("(" ++ String.concat ", " (map str_of_nat a) ++ ")")%string
  end.

(** ** The machine: state and exceptions *)

Section Machine.
(** [T] is the type of the consumer's own variables, carried along with the
    store. *)
Context {T : Type}.

Definition state : Type := heap * T.
Definition M (A : Type) : Type := state -> outcome A * state.

Definition ret {A} (a : A) : M A := fun s => (Ok a, s).
Definition raise {A} (e : exn) : M A := fun s => (Raise e, s).
Definition undef {A} : M A := fun s => (Undef, s).
Definition bind {A B} (m : M A) (f : A -> M B) : M B :=
  fun s =>
    match m s with
    | (Ok a, s') => f a s'
    | (Raise e, s') => (Raise e, s')
    | (Undef, s') => (Undef, s')
    end.
End Machine.
Arguments state T : clear implicits.
Arguments M T A : clear implicits.

Notation "x <- m ;; k" := (bind m (fun x => k))
  (at level 100, m at next level, right associativity).
Notation "m ;;; k" := (bind m (fun _ => k))
  (at level 100, right associativity).

Section Primitives.
Context {T : Type}.
#[local] Abbreviation M := (M T).

Definition load (l : loc) : M (list val) :=
  fun s => match s.1 !! l with
           | Some vs => (Ok vs, s)
           | None => (Undef, s)
           end.

Definition alloc (vs : list val) : M loc :=
  fun s => (Ok (length s.1), (s.1 ++ [vs], s.2)).

Definition store (l : loc) (vs : list val) : M unit :=
  fun s => match s.1 !! l with
           | Some _ => (Ok tt, (<[l := vs]> s.1, s.2))
           | None => (Undef, s)
           end.

Definition modify_locals (f : T -> T) : M unit :=
  fun s => (Ok tt, (s.1, f s.2)).

Fixpoint mapM {A B} (f : A -> M B) (xs : list A) : M (list B) :=
  match xs with
  | [] => ret []
  | x :: xs' => y <- f x ;; ys <- mapM f xs' ;; ret (y :: ys)
  end.

(** [list(v)]: the elements of an iterable. *)
Definition py_list (v : val) : M (list val) :=
  match v with
  | VList l => load l
  | VStr s => ret (map VStr (chars s))
  | VInt _ => raise TypeError
  end.

(** [str(v)]. *)
Definition py_str (v : val) : M string :=
  match v with
  | VStr s => ret s
  | VInt z => ret (str_of_Z z)
  | VList _ => undef
  end.

Definition expect_str (v : val) : M string :=
  match v with
  | VStr s => ret s
  | _ => raise TypeError
  end.

(** [joint.join(v)]: every element of [v] has to be a [str]. *)
Definition py_join (joint : string) (v : val) : M string :=
  xs <- py_list v ;;
  ss <- mapM expect_str xs ;;
  ret (String.concat joint ss).

(** [v[i]] for an index [i >= 0]. *)
Definition py_getitem (v : val) (i : nat) : M val :=
  match v with
  | VList l =>
      vs <- load l ;;
      match vs !! i with
      | Some x => ret x
      | None => raise IndexError
      end
  | VStr s =>
      match chars s !! i with
      | Some c => ret (VStr c)
      | None => raise IndexError
      end
  | VInt _ => raise TypeError
  end.

(** [v[i] = x] for an index [i >= 0]. *)
Definition py_setitem (v : val) (i : nat) (x : val) : M unit :=
  match v with
  | VList l =>
      vs <- load l ;;
      if decide (i < length vs)%nat then store l (<[i := x]> vs)
      else raise IndexError
  | _ => raise TypeError
  end.

(** [for i, x in enumerate(l): acc = body i x acc] over the list object
    [l], from index [i] on.  A list iterator reads the element from the
    current content of the list at every step.  No code of this module
    changes the length of a list it iterates over (item assignment is the
    only write to such a list), so the length [n] at loop entry bounds the
    remaining steps. *)
Fixpoint for_list {A} (n : nat) (l : loc) (i : nat)
    (body : nat -> val -> A -> M A) (acc : A) : M A :=
  match n with
  | O => ret acc
  | S n' =>
      vs <- load l ;;
      match vs !! i with
      | None => ret acc
      | Some x => acc' <- body i x acc ;; for_list n' l (S i) body acc'
      end
  end.

(** The same loop over an immutable sequence (the characters of a [str]). *)
Fixpoint for_items {A} (xs : list val) (i : nat)
    (body : nat -> val -> A -> M A) (acc : A) : M A :=
  match xs with
  | [] => ret acc
  | x :: xs' => acc' <- body i x acc ;; for_items xs' (S i) body acc'
  end.

(** [for i, x in enumerate(nested): acc = body i x acc]. *)
Definition for_enumerate {A} (nested : val)
    (body : nat -> val -> A -> M A) (acc : A) : M A :=
  match nested with
  | VList l => vs <- load l ;; for_list (length vs) l 0 body acc
  | VStr s => for_items (map VStr (chars s)) 0 body acc
  | VInt _ => raise TypeError
  end.

(** [for i, x in enumerate(nested): body i x]. *)
Definition for_each (nested : val) (body : nat -> val -> M unit) : M unit :=
  for_enumerate nested (fun i x _ => body i x) tt.
End Primitives.

(** ** enum_at_depth and iter_at_depth *)

Definition depth_msg : string := "depth argument must be 1, 2, 3, 4, or 5".

Section Traversal.
Context {T : Type}.
#[local] Abbreviation M := (M T).

(** A generator that yields values of type [X]: the code that runs when a
    consumer iterates over it, given what the consumer does with each
    yielded value.  Creating a generator runs nothing. *)
Definition generator (X : Type) : Type := (X -> M unit) -> M unit.

(** [enum_at_depth(nested, depth)] is a generator function.  The consumer
    receives the address and the item. *)
Equations enum_at_depth (nested : val) (depth : Z)
    (yield : list nat * val -> M unit) (s : state T) : outcome unit * state T
    by wf (Z.to_nat depth) lt :=
  enum_at_depth nested depth yield s with Z.eq_dec depth 1 => {
    | left _ => for_each nested (fun i x => yield ([i], x)) s
    | right _ with Z.eq_dec depth 2 => {
      | left _ =>
          for_each nested (fun i x =>
            fun s' => enum_at_depth x (depth - 1) (fun '(j, y) => yield (i :: j, y)) s') s
      | right _ with Z.eq_dec depth 3 => {
        | left _ =>
            for_each nested (fun i x =>
              fun s' => enum_at_depth x (depth - 1) (fun '(j, y) => yield (i :: j, y)) s') s
        | right _ with Z.eq_dec depth 4 => {
          | left _ =>
              for_each nested (fun i x =>
                fun s' => enum_at_depth x (depth - 1) (fun '(j, y) => yield (i :: j, y)) s') s
          | right _ with Z.eq_dec depth 5 => {
            | left _ =>
                for_each nested (fun i x =>
                  fun s' => enum_at_depth x (depth - 1) (fun '(j, y) => yield (i :: j, y)) s') s
            | right _ => raise (ValueError depth_msg) s } } } } }.

(** [iter_at_depth(nested, depth)] is an ordinary function: the depth is
    checked when it is called, and it returns a generator expression over
    [enum_at_depth]. *)
Definition iter_at_depth (nested : val) (depth : Z) : outcome (generator val) :=
  if decide (depth = 1) then
    Ok (fun yield => enum_at_depth nested depth (fun '(_, x) => yield x))
  else if decide (depth = 2) then
    Ok (fun yield => enum_at_depth nested depth (fun '(_, x) => yield x))
  else if decide (depth = 3) then
    Ok (fun yield => enum_at_depth nested depth (fun '(_, x) => yield x))
  else if decide (depth = 4) then
    Ok (fun yield => enum_at_depth nested depth (fun '(_, x) => yield x))
  else if decide (depth = 5) then
    Ok (fun yield => enum_at_depth nested depth (fun '(_, x) => yield x))
  else Raise (ValueError depth_msg).

(** *** The named wrappers *)

Definition iter_tables (tables : val) := iter_at_depth tables 1.
Definition iter_rows (tables : val) := iter_at_depth tables 2.
Definition iter_cells (tables : val) := iter_at_depth tables 3.
Definition iter_paragraphs (tables : val) := iter_at_depth tables 4.

Definition enum_tables (tables : val) : generator (list nat * val) :=
  enum_at_depth tables 1.
Definition enum_rows (tables : val) : generator (list nat * val) :=
  enum_at_depth tables 2.
Definition enum_cells (tables : val) : generator (list nat * val) :=
  enum_at_depth tables 3.
Definition enum_paragraphs (tables : val) : generator (list nat * val) :=
  enum_at_depth tables 4.

(** ** join_leaves *)

(** [join_leaves(joint, str_tree, to_depth, _depth)].  [fuel] is the number
    of nested calls the interpreter still allows; Python raises
    [RecursionError] beyond its recursion limit.  The list comprehension
    builds a new list object. *)
Fixpoint join_leaves (fuel : nat) (joint : string) (str_tree : val)
    (to_depth _depth : Z) : M val :=
  match fuel with
  | O => raise RecursionError
  | S fuel' =>
      if decide (_depth = to_depth) then
        s <- py_join joint str_tree ;; ret (VStr s)
      else
        rs <- for_enumerate str_tree (fun _ b acc =>
                r <- join_leaves fuel' joint b to_depth (_depth + 1) ;;
                ret (acc ++ [r])) [] ;;
        l <- alloc rs ;;
        ret (VList l)
  end.

(** ** get_html_map *)

(** [copy.deepcopy(x, memo)] on strings, integers and lists: a list is
    copied into a new object, once (the memo maps the lists already copied
    to their copies); strings and integers are returned as they are. *)
Fixpoint deepcopy_all (copy : val -> gmap loc loc -> M (val * gmap loc loc))
    (xs : list val) (memo : gmap loc loc) : M (list val * gmap loc loc) :=
  match xs with
  | [] => ret ([], memo)
  | x :: xs' =>
      r <- copy x memo ;;
      rs <- deepcopy_all copy xs' r.2 ;;
      ret (r.1 :: rs.1, rs.2)
  end.

Fixpoint deepcopy (fuel : nat) (x : val) (memo : gmap loc loc)
    : M (val * gmap loc loc) :=
  match fuel with
  | O => raise RecursionError
  | S fuel' =>
      match x with
      | VList l =>
          match memo !! l with
          | Some y => ret (VList y, memo)
          | None =>
              vs <- load l ;;
              y <- alloc [] ;;
              r <- deepcopy_all (deepcopy fuel') vs (<[l := y]> memo) ;;
              store y r.1 ;;;
              ret (VList y, r.2)
          end
      | _ => ret (x, memo)
      end
  end.

Definition dquote : string := String (ascii_of_nat 34) EmptyString.
Definition table_open : string :=
  ("<table border=" ++ dquote ++ "1" ++ dquote ++ ">")%string.

(** ["".join([f"{opening}{x}{closing}" for x in v])]. *)
Definition wrap_join (opening closing : string) (v : val) : M string :=
  xs <- py_list v ;;
  ss <- mapM py_str xs ;;
  ret (String.concat "" (map (fun x => opening ++ x ++ closing)%string ss)).

Definition unpack_error : exn := ValueError "not enough values to unpack".

Definition get_html_map (fuel : nat) (tables : val) : M string :=
  (* prepend index tuple to each paragraph *)
  copied <- deepcopy fuel tables ∅ ;;
  let tables_4deep := copied.1 in
  enum_at_depth tables 4 (fun '(a, paragraph) =>
    match a with
    | [i; j; k; m] =>
        par_text <- py_join "" paragraph ;;
        t_i <- py_getitem tables_4deep i ;;
        t_ij <- py_getitem t_i j ;;
        t_ijk <- py_getitem t_ij k ;;
        py_setitem t_ijk m
          (VStr (String.concat " " [str_of_tuple [i; j; k; m]; par_text]))
    | _ => raise unpack_error
    end) ;;;
  (* wrap each paragraph in <pre> tags *)
  let tables_3deep := tables_4deep in
  enum_at_depth tables_4deep 3 (fun '(a, cell) =>
    match a with
    | [i; j; k] =>
        text <- wrap_join "<pre>" "</pre>" cell ;;
        t_i <- py_getitem tables_3deep i ;;
        t_ij <- py_getitem t_i j ;;
        py_setitem t_ij k (VStr text)
    | _ => raise unpack_error
    end) ;;;
  (* wrap each cell in <td> tags *)
  let tables_2deep := tables_3deep in
  enum_at_depth tables_3deep 2 (fun '(a, row) =>
    match a with
    | [i; j] =>
        text <- wrap_join "<td>" "</td>" row ;;
        t_i <- py_getitem tables_2deep i ;;
        py_setitem t_i j (VStr text)
    | _ => raise unpack_error
    end) ;;;
  (* wrap each row in <tr> tags *)
  let tables_1deep := tables_2deep in
  enum_at_depth tables_2deep 1 (fun '(a, table) =>
    match a with
    | [i] =>
        text <- wrap_join "<tr>" "</tr>" table ;;
        py_setitem tables_1deep i (VStr text)
    | _ => raise unpack_error
    end) ;;;
  (* wrap each table in <table> tags *)
  tables_ <- wrap_join table_open "</table>" tables_1deep ;;
  ret ("<html><body>" ++ tables_ ++ "</body></html>")%string.
End Traversal.

(** ** Running a generator to its end *)

(** A consumer that records [f p] for each yielded [p]. *)
Definition record {X P : Type} (f : P -> X) (p : P) : M (list X) unit :=
  modify_locals (fun out => out ++ [f p]).

(** What a consumer that only records the yielded values sees: the values in
    order, how the iteration ended, and the store it leaves. *)
Definition collect {X : Type} (g : generator (T := list X) X) (h : heap)
    : list X * outcome unit * heap :=
  let r := g (record (fun x => x)) (h, []) in
  (r.2.2, r.1, r.2.1).

(** ** Nested lists as trees *)

Inductive tree :=
| TStr (s : string)
| TInt (z : Z)
| TList (ts : list tree).

(** Building nested lists in the store, the elements before the list that
    holds them (the order in which a list display is evaluated). *)
Definition alloc_all (alloc : tree -> heap -> val * heap)
    : list tree -> heap -> list val * heap :=
  fix go (ts : list tree) (h : heap) : list val * heap :=
    match ts with
    | [] => ([], h)
    | t :: ts' =>
        let r1 := alloc t h in
        let r2 := go ts' r1.2 in
        (r1.1 :: r2.1, r2.2)
    end.

Fixpoint alloc_tree (t : tree) (h : heap) : val * heap :=
  match t with
  | TStr s => (VStr s, h)
  | TInt z => (VInt z, h)
  | TList ts =>
      let r := alloc_all alloc_tree ts h in
      (VList (length r.2), r.2 ++ [r.1])
  end.

(** [represents h t v]: in the store [h], the value [v] is the nested list
    [t] (shared sublists allowed). *)
Fixpoint represents (h : heap) (t : tree) (v : val) : bool :=
  match t, v with
  | TStr s, VStr s' => bool_decide (s = s')
  | TInt z, VInt z' => bool_decide (z = z')
  | TList ts, VList l =>
      match h !! l with
      | Some vs =>
          (fix go (ts : list tree) (vs : list val) : bool :=
             match ts, vs with
             | [], [] => true
             | t :: ts', v :: vs' => represents h t v && go ts' vs'
             | _, _ => false
             end) ts vs
      | None => false
      end
  | _, _ => false
  end.

Definition fixture : tree :=
  TList [TList [TList [TList [TStr "a"; TStr "b"]; TList [TStr "c"]];
                TList [TList [TStr "d"; TStr "e"]]];
         TList [TList [TList [TStr "f"]; TList [TStr "g"; TStr "h"]]]].

Definition runs_fixture : tree :=
  TList [TList [TList [TList [TList [TStr "run1"; TStr "run2"];
                              TList [TStr "run3"; TStr "run4"]]]]].



(** [n + 1] nested loops, the innermost one yielding: what [enum_at_depth]
    runs at depth [n + 1]. *)
Fixpoint enum_levels {T : Type} (n : nat) (nested : val)
    (yield : list nat * val -> M T unit) : M T unit :=
  match n with
  | O => for_each nested (fun i x => yield ([i], x))
  | S n' =>
      for_each nested (fun i x =>
        enum_levels n' x (fun '(j, y) => yield (i :: j, y)))
  end.

(** ** The enumeration as the spec defines it *)

(** The elements of the sequence [v] in the store [h]. *)
Definition elements (h : heap) (v : val) : outcome (list val) :=
  match v with
  | VList l => match h !! l with Some vs => Ok vs | None => Undef end
  | VStr s => Ok (map VStr (chars s))
  | VInt _ => Raise TypeError
  end.

(** One trace after the other, up to the first one that does not end well. *)
Fixpoint seq_traces {Y : Type} (ts : list (list Y * outcome unit))
    : list Y * outcome unit :=
  match ts with
  | [] => ([], Ok tt)
  | (ys, Ok _) :: ts' => let r := seq_traces ts' in (ys ++ r.1, r.2)
  | (ys, r) :: _ => (ys, r)
  end.

(** The recursive definition of the spec, on a store that does not change
    while the enumeration runs: at depth 1, [((i,), item)] for each index and
    item of the top-level sequence; at a greater depth, for each index [i] and
    subtree [x], the enumeration of [x] at [depth - 1] with [i] put in front
    of every address.  The pair holds the values yielded and how the
    enumeration ended. *)
Fixpoint enumerate_at_depth (h : heap) (tree : val) (depth : nat)
    : list (list nat * val) * outcome unit :=
  match depth with
  | O => ([], Raise (ValueError depth_msg))
  | S d =>
      match elements h tree with
      | Ok xs =>
          match d with
          | O => (imap (fun i item => ([i], item)) xs, Ok tt)
          | S _ =>
              seq_traces (imap (fun i x =>
                let r := enumerate_at_depth h x d in
                (map (fun '(sub_address, item) => (i :: sub_address, item)) r.1,
                 r.2)) xs)
          end
      | Raise e => ([], Raise e)
      | Undef => ([], Undef)
      end
  end.

(** ** Order of the addresses *)

(** Strict lexicographic order on addresses. *)
Fixpoint lex_lt (a b : list nat) : Prop :=
  match a, b with
  | [], _ :: _ => True
  | i :: a', j :: b' => (i < j)%nat \/ (i = j /\ lex_lt a' b')
  | _, _ => False
  end.

Definition starts_from (k : nat) (a : list nat) : Prop :=
  match a with
  | i :: _ => (k <= i)%nat
  | [] => False
  end.


(** The items the docstring of [enum_at_depth] lists for [fixture] at
    depth 3. *)
Definition fixture_depth3 : list (list nat * tree) :=
  [([0; 0; 0], TList [TStr "a"; TStr "b"]);
   ([0; 0; 1], TList [TStr "c"]);
   ([0; 1; 0], TList [TStr "d"; TStr "e"]);
   ([1; 0; 0], TList [TStr "f"]);
   ([1; 0; 1], TList [TStr "g"; TStr "h"])]%nat.

(** The tree the docstring of [join_leaves] gives as the result for
    [runs_fixture]. *)
Definition joined_fixture : tree :=
  TList [TList [TList [TList [TStr "run1run2"; TStr "run3run4"]]]].

(** ** Regions of the store *)

(** A region is a set of references.  A value is in the region when it is
    not a list, or a list of the region. *)
Definition val_in (R : loc -> Prop) (v : val) : Prop :=
  match v with
  | VList l => R l
  | _ => True
  end.

(** The lists of the region hold only values of the region, and every
    reference not yet allocated belongs to it. *)
Definition closed_region (R : loc -> Prop) (h : heap) : Prop :=
  (forall l vs, R l -> h !! l = Some vs -> Forall (val_in R) vs)
  /\ (forall l, (length h <= l)%nat -> R l).

(** [confined R m Q]: run from a store where [R] is closed, [m] leaves it
    closed, changes no object outside [R], and returns values satisfying
    [Q]. *)
Definition confined {T A : Type} (R : loc -> Prop) (m : M T A) (Q : A -> Prop)
    : Prop :=
  forall s, closed_region R s.1 ->
    closed_region R (m s).2.1
    /\ (forall l, ~ R l -> (m s).2.1 !! l = s.1 !! l)
    /\ (forall a, (m s).1 = Ok a -> Q a).

(** [m] reads the state and leaves it as it is. *)
Definition read_only {T A : Type} (m : M T A) : Prop :=
  forall s, (m s).2 = s.

(** The copies recorded in a [deepcopy] memo are in the region. *)
Definition memo_in (R : loc -> Prop) (memo : gmap loc loc) : Prop :=
  forall k y, memo !! k = Some y -> R y.

(** ** Nested lists held without sharing *)

(** [owns h t v F]: in the store [h] the value [v] is the nested list [t],
    and [F] is the set of its list objects, each of which occurs once in it
    (no list is shared between two places). *)
Inductive owns (h : heap) : tree -> val -> gset loc -> Prop :=
| owns_str s : owns h (TStr s) (VStr s) ∅
| owns_int z : owns h (TInt z) (VInt z) ∅
| owns_list l vs ts F :
    h !! l = Some vs -> l ∉ F -> owns_all h ts vs F ->
    owns h (TList ts) (VList l) ({[l]} ∪ F)
with owns_all (h : heap) : list tree -> list val -> gset loc -> Prop :=
| owns_nil : owns_all h [] [] ∅
| owns_cons t ts v vs F1 F2 :
    owns h t v F1 -> owns_all h ts vs F2 -> F1 ## F2 ->
    owns_all h (t :: ts) (v :: vs) (F1 ∪ F2).

Scheme owns_mut := Minimality for owns Sort Prop
  with owns_all_mut := Minimality for owns_all Sort Prop.
Combined Scheme owns_mutind from owns_mut, owns_all_mut.

(** The number of list levels of a tree. *)
Fixpoint height (t : tree) : nat :=
  match t with
  | TList ts => S (foldr (fun c m => Nat.max (height c) m) O ts)
  | _ => O
  end.

(** [y[a1][a2]...[an] = x]. *)
Fixpoint set_at {T : Type} (y : val) (a : list nat) (x : val) : M T unit :=
  match a with
  | [] => ret tt
  | i :: a' =>
      match a' with
      | [] => py_setitem y i x
      | _ :: _ => y' <- py_getitem y i ;; set_at y' a' x
      end
  end.

(** The body of the loops of [get_html_map]: the text computed from the
    address and the item replaces the node of [y] at that address. *)
Definition update_at {T : Type} (G : list nat -> val -> M T string) (y : val)
    (pre : list nat) (p : list nat * val) : M T unit :=
  text <- G (pre ++ p.1) p.2 ;; set_at y p.1 (VStr text).

(** The tree where every node [n + 1] levels down is replaced by the string
    computed from its address and its subtree. *)
Fixpoint mapi_depth (n : nat) (g : list nat -> tree -> string)
    (pre : list nat) (t : tree) : tree :=
  match t with
  | TList ts =>
      TList (imap (fun i c =>
        match n with
        | O => TStr (g (pre ++ [i]) c)
        | S n' => mapi_depth n' g (pre ++ [i]) c
        end) ts)
  | _ => t
  end.

(** [t] is made of lists down to level [n + 1], where every node is
    [good]. *)
Fixpoint lists_to (n : nat) (good : tree -> Prop) (t : tree) : Prop :=
  match t with
  | TList ts =>
      Forall (fun c =>
        match n with
        | O => good c
        | S n' => lists_to n' good c
        end) ts
  | _ => False
  end.

(** ** Documents: the input of [get_html_map] *)

(** A paragraph is a plain string or a list of run strings. *)
Inductive par :=
| PText (s : string)
| PRuns (runs : list string).

(** Tables, rows, cells, paragraphs. *)
Abbreviation cell := (list par).
Abbreviation row := (list (list par)).
Abbreviation table := (list (list (list par))).
Abbreviation doc := (list (list (list (list par)))).

Definition tree_of_par (p : par) : tree :=
  match p with
  | PText s => TStr s
  | PRuns runs => TList (map TStr runs)
  end.

Definition tree_of_doc (d : doc) : tree :=
  TList (map (fun tb : table =>
    TList (map (fun r : row =>
      TList (map (fun c : cell => TList (map tree_of_par c)) r)) tb)) d).

(** The text of a paragraph: its runs, concatenated. *)
Definition par_text (p : par) : string :=
  match p with
  | PText s => s
  | PRuns runs => String.concat "" runs
  end.

(** The HTML map as the spec describes it: each paragraph in [<pre>] with
    its address and a space in front, each cell in [<td>], each row in
    [<tr>], each table in [<table border="1">], the whole in
    [<html><body>]. *)
Definition pre_html (i j k m : nat) (p : par) : string :=
  ("<pre>" ++ (str_of_tuple [i; j; k; m] ++ " " ++ par_text p) ++ "</pre>")%string.

Definition cell_html (i j k : nat) (c : cell) : string :=
  String.concat "" (imap (pre_html i j k) c).

Definition row_html (i j : nat) (r : row) : string :=
  String.concat ""
    (imap (fun k c => "<td>" ++ cell_html i j k c ++ "</td>")%string r).

Definition table_html (i : nat) (tb : table) : string :=
  String.concat ""
    (imap (fun j r => "<tr>" ++ row_html i j r ++ "</tr>")%string tb).

Definition body_html (d : doc) : string :=
  String.concat ""
    (imap (fun i tb => table_open ++ table_html i tb ++ "</table>")%string d).

Definition html_of (d : doc) : string :=
  ("<html><body>" ++ body_html d ++ "</body></html>")%string.

(** The numbers of tables, rows, cells and paragraphs of a document. *)
Definition sum_list (ns : list nat) : nat := foldr Nat.add O ns.
Definition n_tables (d : doc) : nat := length d.
Definition n_rows (d : doc) : nat := sum_list (map (fun tb : table => length tb) d).
Definition n_cells (d : doc) : nat :=
  sum_list (map (fun tb : table => sum_list (map (fun r : row => length r) tb)) d).
Definition n_pars (d : doc) : nat :=
  sum_list (map (fun tb : table =>
    sum_list (map (fun r : row =>
      sum_list (map (fun c : cell => length c) r)) tb)) d).

(** *** What the loops of [get_html_map] compute from a node *)

(** [str(x)] of a node that is not a list. *)
Definition text_of (t : tree) : string :=
  match t with
  | TStr s => s
  | TInt z => str_of_Z z
  | TList _ => ""
  end.

(** ["".join(paragraph)]. *)
Definition joined_text (t : tree) : string :=
  match t with
  | TStr s => String.concat "" (chars s)
  | TList ts => String.concat "" (map text_of ts)
  | TInt _ => ""
  end.

(** The address, a space, the text of the paragraph. *)
Definition address_text (a : list nat) (t : tree) : string :=
  String.concat " " [str_of_tuple a; joined_text t].

(** ["".join] of the elements, each between [opening] and [closing]. *)
Definition wrapped_text (opening closing : string) (t : tree) : string :=
  match t with
  | TList ts =>
      String.concat "" (map (fun c => opening ++ text_of c ++ closing)%string ts)
  | _ => ""
  end.

Definition is_paragraph (t : tree) : Prop :=
  (exists s, t = TStr s) \/ (exists runs, t = TList (map TStr runs)).

Definition is_strings (t : tree) : Prop :=
  exists ss, t = TList (map TStr ss).

(** The first loop body of [get_html_map], as a function of the address. *)
Definition address_and_text {T : Type} (a : list nat) (paragraph : val)
    : M T string :=
  par_text <- py_join "" paragraph ;;
  ret (String.concat " " [str_of_tuple a; par_text]).

(** The working copy of [get_html_map] after each of its four loops. *)
Definition addressed_tree (d : doc) : tree :=
  TList (imap (fun i (tb : table) =>
    TList (imap (fun j (r : row) =>
      TList (imap (fun k (c : cell) =>
        TList (map TStr
          (imap (fun m p => str_of_tuple [i; j; k; m] ++ " " ++ par_text p)%string
             c))) r)) tb)) d).

Definition cells_tree (d : doc) : tree :=
  TList (imap (fun i (tb : table) =>
    TList (imap (fun j (r : row) =>
      TList (map TStr (imap (cell_html i j) r))) tb)) d).

Definition rows_tree (d : doc) : tree :=
  TList (imap (fun i (tb : table) =>
    TList (map TStr (imap (row_html i) tb))) d).

Definition tables_tree (d : doc) : tree :=
  TList (map TStr (imap table_html d)).

(** ** Occurrences of a substring *)

(** The number of positions of [s] at which [p] occurs. *)
Fixpoint occurrences (p s : string) : nat :=
  (if String.prefix p s then 1 else 0)
  + match s with
    | EmptyString => 0
    | String _ s' => occurrences p s'
    end.

Definition ends_with (s suffix : string) : Prop :=
  exists front, s = (front ++ suffix)%string.

(** No character of [s] is ["<"]. *)
Fixpoint no_lt (s : string) : bool :=
  match s with
  | EmptyString => true
  | String c s' => negb (Ascii.eqb c "<") && no_lt s'
  end.

(** [s] is empty or begins with ["<"]. *)
Definition lt_headed (s : string) : bool :=
  match s with
  | EmptyString => true
  | String c _ => Ascii.eqb c "<"
  end.

(** [p] begins with ["<"] and has no other ["<"]. *)
Definition tag_like (p : string) : bool :=
  match p with
  | EmptyString => false
  | String c q => Ascii.eqb c "<" && no_lt q
  end.

(** The occurrences of [p] inside the texts of the paragraphs. *)
Definition text_occurrences (p : string) (d : doc) : nat :=
  sum_list (map (fun tb : table =>
    sum_list (map (fun r : row =>
      sum_list (map (fun c : cell =>
        sum_list (map (fun x => occurrences p (par_text x)) c)) r)) tb)) d).

(** No paragraph text of the document contains ["<"]. *)
Definition plain_doc (d : doc) : Prop :=
  Forall (Forall (Forall (Forall (fun x => no_lt (par_text x) = true)))) d.

(** [s] contains [t]. *)
Definition contains (s t : string) : Prop :=
  exists front back, s = (front ++ t ++ back)%string.

(** A document whose only paragraph is the run ["<pre>"]. *)
Definition pre_doc : doc := [[[[PRuns ["<pre>"%string]]]]].

(** A document of one table with two cells. *)
Definition small_doc : doc :=
  [[[[PRuns ["run1"%string; "run2"%string]; PText "b"]; [PRuns []]]]].



(** ** Addresses as index paths *)

(** [v[a1][a2]...[an]]. *)
Fixpoint get_at {T : Type} (v : val) (a : list nat) : M T val :=
  match a with
  | [] => ret v
  | i :: a' => x <- py_getitem v i ;; get_at x a'
  end.

(** ** Trees as the traversals see them *)

(** What iterating over a node gives: the items of a list, the
    one-character strings of a string; an integer cannot be iterated
    over. *)
Definition children (t : tree) : list tree :=
  match t with
  | TList ts => ts
  | TStr s => map TStr (chars s)
  | TInt _ => []
  end.

Definition is_int (t : tree) : bool :=
  match t with TInt _ => true | _ => false end.

Definition is_str (t : tree) : bool :=
  match t with TStr _ => true | _ => false end.

(** No integer lies on the levels 0 to [n] of [t]. *)
Fixpoint iterable (n : nat) (t : tree) : bool :=
  negb (is_int t)
  && match n with
     | O => true
     | S n' => forallb (iterable n') (children t)
     end.

(** The nodes [n + 1] levels down, from left to right. *)
Fixpoint nodes_at (n : nat) (t : tree) : list tree :=
  match n with
  | O => children t
  | S n' => concat (map (nodes_at n') (children t))
  end.

(** [str.join] accepts every node on level [n] of [t]: no integer lies on
    the levels 0 to [n], and the elements of the nodes on level [n] are
    strings. *)
Fixpoint joinable (n : nat) (t : tree) : bool :=
  negb (is_int t)
  && forallb (match n with
              | O => is_str
              | S n' => joinable n'
              end) (children t).

(** The tree with every node on level [n] replaced by its elements joined
    with [joint]. *)
Fixpoint join_tree (n : nat) (joint : string) (t : tree) : tree :=
  match n with
  | O => TStr (String.concat joint (map text_of (children t)))
  | S n' => TList (map (join_tree n' joint) (children t))
  end.

(** Some string of [t] is not empty. *)
Fixpoint has_text (t : tree) : bool :=
  match t with
  | TStr s => negb (String.eqb s "")
  | TInt _ => false
  | TList ts => existsb has_text ts
  end.

(** Some node of [t] is an integer. *)
Fixpoint has_int (t : tree) : bool :=
  match t with
  | TStr _ => false
  | TInt _ => true
  | TList ts => existsb has_int ts
  end.

(** [m] leaves the consumer's variables and the existing objects as they
    are: it only adds objects to the store. *)
Definition appends {T A : Type} (m : M T A) : Prop :=
  forall s, exists h2, (m s).2 = (s.1 ++ h2, s.2).

(** All the text of a tree, in reading order. *)
Fixpoint all_text (t : tree) : string :=
  match t with
  | TStr s => s
  | TInt _ => ""
  | TList ts => String.concat "" (map all_text ts)
  end.

(** The document with the runs of every paragraph put together. *)
Definition joined_doc (d : doc) : doc :=
  map (map (map (map (fun p => PText (par_text p))))) d.

(** ** A consumer run over items collected beforehand *)

(** [for p in items: yield(p)], up to the first error of the consumer, and
    then the way the enumeration that gave the items ended. *)
Fixpoint consume {T X : Type} (yield : X -> M T unit) (items : list X)
    (ending : outcome unit) : M T unit :=
  match items with
  | [] => fun s => (ending, s)
  | p :: items' => yield p ;;; consume yield items' ending
  end.

(** In the state [s] the list objects of the region [R] are as they are in
    the store [h0]. *)
Definition unchanged_in {T : Type} (h0 : heap) (R : loc -> Prop) (s : state T)
    : Prop :=
  forall l, R l -> s.1 !! l = h0 !! l.
(** * Properties *)

(** ** Loops with pointwise equal bodies *)

Section LoopFacts.
Context {T : Type}.
#[local] Abbreviation M := (M T).

Lemma bind_ext {A B} (m : M A) (f g : A -> M B) s :
  (forall a s', f a s' = g a s') -> bind m f s = bind m g s.
Proof.
  intros Hfg. unfold bind. destruct (m s) as [[a| e |] s']; auto.
Qed.

Lemma for_list_ext {A} n l (b1 b2 : nat -> val -> A -> M A) :
  (forall i x acc s, b1 i x acc s = b2 i x acc s) ->
  forall i acc s, for_list n l i b1 acc s = for_list n l i b2 acc s.
Proof.
  intros Hb. induction n as [|n IH]; intros i acc s; simpl; [done|].
  apply bind_ext. intros vs s'. destruct (vs !! i) as [x|]; [|done].
  unfold bind. rewrite Hb. destruct (b2 i x acc s') as [[a| e |] s'']; auto.
Qed.

Lemma for_items_ext {A} xs (b1 b2 : nat -> val -> A -> M A) :
  (forall i x acc s, b1 i x acc s = b2 i x acc s) ->
  forall i acc s, for_items xs i b1 acc s = for_items xs i b2 acc s.
Proof.
  intros Hb. induction xs as [|x xs IH]; intros i acc s; simpl; [done|].
  unfold bind. rewrite Hb. destruct (b2 i x acc s) as [[a| e |] s'']; auto.
Qed.

Lemma for_enumerate_ext {A} v (b1 b2 : nat -> val -> A -> M A) acc s :
  (forall i x acc s, b1 i x acc s = b2 i x acc s) ->
  for_enumerate v b1 acc s = for_enumerate v b2 acc s.
Proof.
  intros Hb. destruct v as [str|z|l]; simpl; [|done|].
  - by apply for_items_ext.
  - apply bind_ext. intros vs s'. by apply for_list_ext.
Qed.

Lemma for_each_ext v (b1 b2 : nat -> val -> M unit) s :
  (forall i x s, b1 i x s = b2 i x s) ->
  for_each v b1 s = for_each v b2 s.
Proof. intros Hb. apply for_enumerate_ext. intros; apply Hb. Qed.

(** *** The equation of [enum_at_depth] and its levels *)

Lemma enum_at_depth_eqn nested depth (yield : list nat * val -> M unit) s :
  enum_at_depth nested depth yield s =
    if decide (depth = 1) then
      for_each nested (fun i x => yield ([i], x)) s
    else if decide (2 <= depth <= 5) then
      for_each nested (fun i x =>
        enum_at_depth x (depth - 1) (fun '(j, y) => yield (i :: j, y))) s
    else raise (ValueError depth_msg) s.
Proof.
  simp enum_at_depth.
  destruct (Z.eq_dec depth 1) as [->|H1]; simpl; [done|].
  rewrite decide_False by done.
  destruct (Z.eq_dec depth 2) as [->|H2]; simpl; [done|].
  destruct (Z.eq_dec depth 3) as [->|H3]; simpl; [done|].
  destruct (Z.eq_dec depth 4) as [->|H4]; simpl; [done|].
  destruct (Z.eq_dec depth 5) as [->|H5]; simpl; [done|].
  rewrite decide_False by lia. done.
Qed.

Lemma enum_levels_ext n : forall v (y1 y2 : list nat * val -> M unit) s,
  (forall p s, y1 p s = y2 p s) ->
  enum_levels n v y1 s = enum_levels n v y2 s.
Proof.
  induction n as [|n IH]; intros v y1 y2 s Hy; simpl.
  - apply for_each_ext. intros; apply Hy.
  - apply for_each_ext. intros i x s'. apply IH. intros [j y] s''. apply Hy.
Qed.

Lemma enum_at_depth_levels n :
  forall nested depth (yield : list nat * val -> M unit) s,
  1 <= depth <= 5 -> n = Z.to_nat (depth - 1) ->
  enum_at_depth nested depth yield s = enum_levels n nested yield s.
Proof.
  induction n as [|n IH]; intros nested depth yield s Hd Hn;
    rewrite enum_at_depth_eqn.
  - assert (depth = 1) as -> by lia. done.
  - rewrite decide_False by lia. rewrite decide_True by lia. simpl.
    apply for_each_ext. intros i x s'. apply IH; lia.
Qed.

Lemma enum_at_depth_invalid nested depth (yield : list nat * val -> M unit) s :
  ~ (1 <= depth <= 5) ->
  enum_at_depth nested depth yield s = (Raise (ValueError depth_msg), s).
Proof.
  intros Hd. rewrite enum_at_depth_eqn.
  rewrite !decide_False by lia. done.
Qed.
End LoopFacts.

Section Frozen.
Context {X : Type}.
#[local] Abbreviation M := (M (list X)).

Lemma for_list_traces (h : heap) l vs (body : nat -> val -> M unit)
    (tr : nat -> val -> list X * outcome unit) :
  h !! l = Some vs ->
  (forall i x out, body i x (h, out) = ((tr i x).2, (h, out ++ (tr i x).1))) ->
  forall n i out, (n + i = length vs)%nat ->
    for_list n l i (fun i x _ => body i x) tt (h, out) =
      let r := seq_traces (imap (fun j => tr (i + j)%nat) (drop i vs)) in
      (r.2, (h, out ++ r.1)).
Proof.
  intros Hl Hbody. induction n as [|n IH]; intros i out Hn.
  - rewrite drop_ge by lia. simpl. by rewrite app_nil_r.
  - destruct (lookup_lt_is_Some_2 vs i) as [x Hx]; [lia|].
    rewrite (drop_S _ _ _ Hx). simpl.
    unfold bind, load. simpl. rewrite Hl, Hx, Hbody.
    rewrite Nat.add_0_r.
    destruct (tr i x) as [ys [[]| e |]] eqn:Htr; simpl; [|done..].
    rewrite IH by lia. simpl. rewrite <- app_assoc.
    by rewrite (imap_ext ((fun j => tr (i + j)%nat) ∘ S)
                 (fun j => tr (S (i + j))) (drop (S i) vs))
      by (intros j y _; simpl; f_equal; lia).
Qed.

Lemma for_items_traces (h : heap) (body : nat -> val -> M unit)
    (tr : nat -> val -> list X * outcome unit) :
  (forall i x out, body i x (h, out) = ((tr i x).2, (h, out ++ (tr i x).1))) ->
  forall xs i out,
    for_items xs i (fun i x _ => body i x) tt (h, out) =
      let r := seq_traces (imap (fun j => tr (i + j)%nat) xs) in
      (r.2, (h, out ++ r.1)).
Proof.
  intros Hbody. induction xs as [|x xs IH]; intros i out; simpl.
  - by rewrite app_nil_r.
  - unfold bind. rewrite Hbody, Nat.add_0_r.
    destruct (tr i x) as [ys [[]| e |]] eqn:Htr; simpl; [|done..].
    rewrite IH. simpl. rewrite <- app_assoc.
    by rewrite (imap_ext ((fun j => tr (i + j)%nat) ∘ S)
                 (fun j => tr (S (i + j))) xs)
      by (intros j y _; simpl; f_equal; lia).
Qed.

Lemma for_each_traces (h : heap) v (body : nat -> val -> M unit)
    (tr : nat -> val -> list X * outcome unit) out :
  (forall i x out, body i x (h, out) = ((tr i x).2, (h, out ++ (tr i x).1))) ->
  for_each v body (h, out) =
    match elements h v with
    | Ok xs => let r := seq_traces (imap tr xs) in (r.2, (h, out ++ r.1))
    | Raise e => (Raise e, (h, out))
    | Undef => (Undef, (h, out))
    end.
Proof.
  intros Hbody. destruct v as [s|z|l]; simpl; [|done|].
  - unfold for_each. simpl. by rewrite (for_items_traces h body tr).
  - unfold for_each. simpl. unfold bind, load. simpl.
    destruct (h !! l) as [vs|] eqn:Hl; [|done].
    rewrite (for_list_traces h l vs body tr); [|done..|lia].
    by rewrite drop_0.
Qed.

Lemma seq_traces_singletons {Y A} (g : nat -> A -> Y) (xs : list A) :
  seq_traces (imap (fun i x => ([g i x], Ok tt)) xs) = (imap g xs, Ok tt).
Proof.
  revert g. induction xs as [|x xs IH]; intros g; simpl; [done|].
  unfold compose. by rewrite (IH (fun i => g (S i))).
Qed.

Lemma seq_traces_map {Y Z} (g : Y -> Z) (ts : list (list Y * outcome unit)) :
  seq_traces (map (fun t => (map g t.1, t.2)) ts) =
    (map g (seq_traces ts).1, (seq_traces ts).2).
Proof.
  induction ts as [|[ys [[]| e |]] ts IH]; simpl; try done.
  rewrite IH. simpl. by rewrite map_app.
Qed.

(** Run against a store that the consumer leaves alone, the generator
    yields what the recursive definition says, and leaves the store as it
    is. *)
Lemma enum_levels_record n : forall nested (f : list nat * val -> X) h out,
  enum_levels n nested (record f) (h, out) =
    let r := enumerate_at_depth h nested (S n) in
    (r.2, (h, out ++ map f r.1)).
Proof.
  induction n as [|n IH]; intros nested f h out.
  - simpl enum_levels.
    rewrite (for_each_traces h nested _ (fun i x => ([f ([i], x)], Ok tt)));
      [|done].
    simpl. destruct (elements h nested) as [xs| e |]; simpl;
      rewrite ?app_nil_r; try done.
    rewrite seq_traces_singletons. simpl.
    do 3 f_equal. symmetry.
    exact (fmap_imap (fun i item => ([i], item)) f xs).
  - simpl enum_levels.
    set (ref := fun (i : nat) (x : val) =>
      let r := enumerate_at_depth h x (S n) in
      (map (fun '(sub_address, item) => (i :: sub_address, item)) r.1, r.2)).
    rewrite (for_each_traces h nested _
      (fun i x => (map f (ref i x).1, (ref i x).2))).
    + assert (enumerate_at_depth h nested (S (S n)) =
        match elements h nested with
        | Ok xs => seq_traces (imap ref xs)
        | Raise e => ([], Raise e)
        | Undef => ([], Undef)
        end) as -> by done.
      destruct (elements h nested) as [xs| e |]; cbv zeta; cbn [fst snd map];
        rewrite ?app_nil_r; try done.
      assert (seq_traces (imap (fun i x => (map f (ref i x).1, (ref i x).2)) xs)
              = (map f (seq_traces (imap ref xs)).1,
                 (seq_traces (imap ref xs)).2)) as ->; [|done].
      rewrite <- (seq_traces_map f (imap ref xs)).
      f_equal. symmetry.
      exact (fmap_imap ref (fun t => (map f t.1, t.2)) xs).
    + intros i x out'.
      rewrite (enum_levels_ext n x _ (record (fun p => f (i :: p.1, p.2))))
        by (by intros [j y] s').
      rewrite IH. unfold ref. cbv zeta. cbn [fst snd]. rewrite map_map.
      do 3 f_equal. apply map_ext. by intros [j y].
Qed.
End Frozen.

(** ** Order of the addresses *)

Lemma lex_lt_block i (A : list (list nat)) :
  StronglySorted lex_lt A -> StronglySorted lex_lt (map (cons i) A).
Proof.
  induction 1 as [|a A HA IH Hall]; simpl; constructor; [done|].
  apply Forall_forall. intros b [c [-> Hc]]%list_elem_of_fmap.
  simpl. right. split; [done|].
  rewrite Forall_forall in Hall. by apply Hall.
Qed.

Lemma lex_lt_blocks i (A B : list (list nat)) :
  StronglySorted lex_lt A -> StronglySorted lex_lt B ->
  Forall (starts_from (S i)) B ->
  StronglySorted lex_lt (map (cons i) A ++ B).
Proof.
  intros HA HB Hfrom. apply StronglySorted_app_2; [|by apply lex_lt_block|done].
  intros a b [c [-> Hc]]%list_elem_of_fmap Hb.
  rewrite Forall_forall in Hfrom. specialize (Hfrom b Hb).
  destruct b as [|j b]; simpl in *; [done|]. left. lia.
Qed.

Lemma seq_traces_sorted (E : nat -> val -> list (list nat * val) * outcome unit) :
  forall xs k,
  (forall i x, StronglySorted lex_lt (map fst (E i x).1)) ->
  let tr := seq_traces (imap (fun i x =>
              (map (fun '(a, y) => ((k + i)%nat :: a, y)) (E i x).1, (E i x).2)) xs) in
  StronglySorted lex_lt (map fst tr.1) /\ Forall (starts_from k) (map fst tr.1).
Proof.
  intros xs. revert E. induction xs as [|x xs IH]; intros E k HE; simpl.
  { split; constructor. }
  assert (map fst (map (fun '(a, y) => ((k + 0)%nat :: a, y)) (E 0%nat x).1)
          = map (cons k) (map fst (E 0%nat x).1)) as Hblock.
  { rewrite !map_map. apply map_ext. intros [a y]. simpl. f_equal. lia. }
  assert (Forall (starts_from k) (map (cons k) (map fst (E 0%nat x).1))) as Hk.
  { apply Forall_forall. intros a [c [-> _]]%list_elem_of_fmap. simpl. lia. }
  destruct (E 0%nat x) as [ys [[]| e |]] eqn:HEx; simpl in *.
  - rewrite (imap_ext _ (fun i x0 =>
      (map (fun '(a, y) => ((S k + i)%nat :: a, y)) (E (S i) x0).1, (E (S i) x0).2)))
      by (intros i y _; simpl; f_equal; apply map_ext; intros [a z];
          do 2 f_equal; lia).
    destruct (IH (fun i => E (S i)) (S k) (fun i => HE (S i))) as [Hs Hf].
    rewrite map_app, Hblock. split.
    + apply lex_lt_blocks; [|done..]. specialize (HE 0%nat x). by rewrite HEx in HE.
    + apply Forall_app. split; [done|].
      eapply Forall_impl; [exact Hf|]. intros [|j a]; simpl; [done|lia].
  - rewrite Hblock. split; [|done]. apply lex_lt_block.
    specialize (HE 0%nat x). by rewrite HEx in HE.
  - rewrite Hblock. split; [|done]. apply lex_lt_block.
    specialize (HE 0%nat x). by rewrite HEx in HE.
Qed.

Lemma singletons_sorted {A} (xs : list A) : forall k,
  StronglySorted lex_lt (map fst (imap (fun i x => ([(k + i)%nat], x)) xs)).
Proof.
  induction xs as [|x xs IH]; intros k; simpl; constructor.
  - rewrite (imap_ext _ (fun i x => ([(S k + i)%nat], x)))
      by (intros i y _; simpl; do 3 f_equal; lia).
    apply IH.
  - apply Forall_forall. intros a [[b y] [-> Hin]]%list_elem_of_fmap.
    apply elem_of_lookup_imap in Hin as (i & z & Heq & _).
    injection Heq as -> ->. simpl. left. lia.
Qed.

Lemma enumerate_at_depth_sorted h : forall depth tree,
  StronglySorted lex_lt (map fst (enumerate_at_depth h tree depth).1).
Proof.
  induction depth as [|d IH]; intros tree; [constructor|].
  destruct d as [|d].
  - simpl. destruct (elements h tree) as [xs| e |]; simpl; try constructor.
    apply (singletons_sorted xs 0).
  - assert (enumerate_at_depth h tree (S (S d)) =
      match elements h tree with
      | Ok xs => seq_traces (imap (fun i x =>
          (map (fun '(a, y) => ((0 + i)%nat :: a, y)) (enumerate_at_depth h x (S d)).1,
           (enumerate_at_depth h x (S d)).2)) xs)
      | Raise e => ([], Raise e)
      | Undef => ([], Undef)
      end) as -> by done.
    destruct (elements h tree) as [xs| e |]; simpl; try constructor.
    apply (seq_traces_sorted (fun _ x => enumerate_at_depth h x (S d)) xs 0).
    intros _ x. apply IH.
Qed.

(** ** join_leaves at the target depth *)

Section JoinFacts.
Context {T : Type}.
#[local] Abbreviation M := (M T).

Lemma mapM_expect_str (ss : list string) (s : state T) :
  mapM expect_str (map VStr ss) s = (Ok ss, s).
Proof.
  induction ss as [|x ss IH]; simpl; [done|].
  unfold bind, ret. simpl. by rewrite IH.
Qed.

Lemma py_join_strings joint l (ss : list string) (s : state T) :
  s.1 !! l = Some (map VStr ss) ->
  py_join joint (VList l) s = (Ok (String.concat joint ss), s).
Proof.
  intros Hl. unfold py_join, bind. simpl. unfold load. rewrite Hl.
  by rewrite mapM_expect_str.
Qed.

End JoinFacts.

Lemma concat_cons_cons sep (x y : string) (ss : list string) :
  String.concat sep (x :: y :: ss) =
    (x ++ sep ++ String.concat sep (y :: ss))%string.
Proof. done. Qed.

Lemma append_String c (a b : string) :
  (String c a ++ b = String c (a ++ b))%string.
Proof. done. Qed.

Lemma string_app_assoc (a b c : string) :
  ((a ++ b) ++ c = a ++ (b ++ c))%string.
Proof.
  induction a as [|ch a IH]; [done|]. by rewrite !append_String, IH.
Qed.

(** The separator stands between the two parts of a joined list, and
    nowhere else. *)
Lemma concat_app sep (xs ys : list string) :
  xs <> [] -> ys <> [] ->
  String.concat sep (xs ++ ys) =
    (String.concat sep xs ++ sep ++ String.concat sep ys)%string.
Proof.
  intros Hxs Hys. induction xs as [|x xs IH]; [done|].
  destruct xs as [|x' xs].
  - destruct ys as [|y ys]; [done|]. done.
  - change ((x :: x' :: xs) ++ ys) with (x :: x' :: (xs ++ ys)).
    rewrite !concat_cons_cons.
    change (x' :: xs ++ ys) with ((x' :: xs) ++ ys).
    rewrite IH by done. by rewrite !string_app_assoc.
Qed.

(** ** Code that reads only *)

Section ReadOnly.
Context {T : Type}.
#[local] Abbreviation M := (M T).

Lemma read_only_ret {A} (a : A) : read_only (ret a : M A).
Proof. done. Qed.

Lemma read_only_raise {A} e : read_only (raise e : M A).
Proof. done. Qed.

Lemma read_only_undef {A} : read_only (undef : M A).
Proof. done. Qed.

Lemma read_only_bind {A B} (m : M A) (f : A -> M B) :
  read_only m -> (forall a, read_only (f a)) -> read_only (bind m f).
Proof.
  intros Hm Hf s. unfold bind. specialize (Hm s).
  destruct (m s) as [[a| e |] s']; simpl in *; subst; [apply Hf|done..].
Qed.

Lemma read_only_load l : read_only (load l : M _).
Proof. intros s. unfold load. by destruct (s.1 !! l). Qed.

Lemma read_only_mapM {A B} (f : A -> M B) xs :
  (forall x, read_only (f x)) -> read_only (mapM f xs).
Proof.
  intros Hf. induction xs as [|x xs IH]; simpl; [apply read_only_ret|].
  apply read_only_bind; [done|]. intros y.
  apply read_only_bind; [done|]. intros ys. apply read_only_ret.
Qed.

Lemma read_only_py_list v : read_only (py_list v : M _).
Proof.
  destruct v; simpl;
    [apply read_only_ret | apply read_only_raise | apply read_only_load].
Qed.

Lemma read_only_py_str v : read_only (py_str v : M _).
Proof.
  destruct v; simpl;
    [apply read_only_ret | apply read_only_ret | apply read_only_undef].
Qed.

Lemma read_only_expect_str v : read_only (expect_str v : M _).
Proof.
  destruct v; simpl;
    [apply read_only_ret | apply read_only_raise | apply read_only_raise].
Qed.

Lemma read_only_py_join joint v : read_only (py_join joint v : M _).
Proof.
  unfold py_join. apply read_only_bind; [apply read_only_py_list|]. intros xs.
  apply read_only_bind; [apply read_only_mapM, read_only_expect_str|].
  intros ss. apply read_only_ret.
Qed.

Lemma read_only_wrap_join o c v : read_only (wrap_join o c v : M _).
Proof.
  unfold wrap_join. apply read_only_bind; [apply read_only_py_list|]. intros xs.
  apply read_only_bind; [apply read_only_mapM, read_only_py_str|].
  intros ss. apply read_only_ret.
Qed.

Lemma read_only_py_getitem v i : read_only (py_getitem v i : M _).
Proof.
  destruct v as [s|z|l]; simpl.
  - destruct (chars s !! i); [apply read_only_ret | apply read_only_raise].
  - apply read_only_raise.
  - apply read_only_bind; [apply read_only_load|]. intros vs.
    destruct (vs !! i); [apply read_only_ret | apply read_only_raise].
Qed.
End ReadOnly.

(** ** Code confined to a region *)

Section Region.
Context {T : Type} (R : loc -> Prop).
#[local] Abbreviation M := (M T).

Lemma confined_read_only {A} (m : M A) : read_only m -> confined R m (fun _ => True).
Proof. intros Hm s Hs. rewrite !Hm. done. Qed.

Lemma confined_ret {A} (a : A) (Q : A -> Prop) : Q a -> confined R (ret a : M A) Q.
Proof. intros Ha s Hs. unfold ret. simpl. split; [done|]. split; [done|]. by intros ? [= <-]. Qed.

Lemma confined_raise {A} e (Q : A -> Prop) : confined R (raise e : M A) Q.
Proof. intros s Hs. unfold raise. simpl. done. Qed.

Lemma confined_undef {A} (Q : A -> Prop) : confined R (undef : M A) Q.
Proof. intros s Hs. unfold undef. simpl. done. Qed.

Lemma confined_weaken {A} (m : M A) (Q Q' : A -> Prop) :
  confined R m Q -> (forall a, Q a -> Q' a) -> confined R m Q'.
Proof.
  intros Hm HQ s Hs. destruct (Hm s Hs) as (? & ? & ?). naive_solver.
Qed.

Lemma confined_bind {A B} (m : M A) (f : A -> M B) (Q : A -> Prop) (Q' : B -> Prop) :
  confined R m Q -> (forall a, Q a -> confined R (f a) Q') ->
  confined R (bind m f) Q'.
Proof.
  intros Hm Hf s Hs. destruct (Hm s Hs) as (Hc & Hfr & HQ). unfold bind.
  destruct (m s) as [[a| e |] s']; simpl in *; [|done..].
  destruct (Hf a (HQ a eq_refl) s' Hc) as (Hc' & Hfr' & HQ').
  split; [done|]. split; [|done]. intros l Hl. rewrite Hfr', Hfr; done.
Qed.

Lemma confined_load l :
  confined R (load l : M _) (fun vs => R l -> Forall (val_in R) vs).
Proof.
  intros s Hs. unfold load. destruct (s.1 !! l) as [vs|] eqn:Hl; simpl; [|done].
  split; [done|]. split; [done|]. intros ? [= <-] Hr.
  destruct Hs as [Hc _]. eapply Hc; done.
Qed.

Lemma closed_region_insert h l vs :
  closed_region R h -> R l -> Forall (val_in R) vs ->
  closed_region R (<[l := vs]> h).
Proof.
  intros [Hc Hup] Hl Hvs. split.
  - intros l' vs' Hl' Hlook. destruct (decide (l = l')) as [<-|Hne].
    + apply list_lookup_insert_Some in Hlook as [(_ & <- & _)|[? _]]; done.
    + rewrite list_lookup_insert_ne in Hlook by done. eauto.
  - intros l'. rewrite length_insert. apply Hup.
Qed.

Lemma confined_store l vs :
  R l -> Forall (val_in R) vs -> confined R (store l vs : M _) (fun _ => True).
Proof.
  intros Hl Hvs s Hs. unfold store. destruct (s.1 !! l) eqn:Hlook; simpl; [|done].
  split; [by apply closed_region_insert|]. split; [|done].
  intros l' Hl'. apply list_lookup_insert_ne. by intros <-.
Qed.

Lemma confined_alloc vs :
  Forall (val_in R) vs -> confined R (alloc vs : M _) R.
Proof.
  intros Hvs s [Hc Hup]. unfold alloc. simpl. split; [split|split].
  - intros l vs' Hl Hlook.
    apply lookup_app_Some in Hlook as [Hlook|[_ Hlook]]; [eauto|].
    apply list_lookup_singleton_Some in Hlook as [_ <-]. done.
  - intros l. rewrite length_app. simpl. intros ?. apply Hup. lia.
  - intros l Hl. apply lookup_app_l.
    destruct (decide (l < length s.1)%nat); [done|]. exfalso. apply Hl, Hup. lia.
  - intros a [= <-]. by apply Hup.
Qed.

Lemma confined_py_getitem v i :
  val_in R v -> confined R (py_getitem v i : M _) (val_in R).
Proof.
  intros Hv. destruct v as [s|z|l]; simpl.
  - destruct (chars s !! i); [by apply confined_ret | apply confined_raise].
  - apply confined_raise.
  - eapply confined_bind; [apply confined_load|]. intros vs Hvs. simpl in Hv.
    destruct (vs !! i) as [x|] eqn:Hx; [|apply confined_raise].
    apply confined_ret. specialize (Hvs Hv). rewrite Forall_forall in Hvs.
    apply Hvs. by eapply list_elem_of_lookup_2.
Qed.

Lemma confined_py_setitem v i x :
  val_in R v -> val_in R x -> confined R (py_setitem v i x : M _) (fun _ => True).
Proof.
  intros Hv Hx. destruct v as [s|z|l]; simpl; try apply confined_raise.
  eapply confined_bind; [apply confined_load|]. intros vs Hvs. simpl in Hv.
  case_decide; [|apply confined_raise].
  apply confined_store; [done|]. specialize (Hvs Hv).
  apply Forall_insert; done.
Qed.

Lemma confined_for_list {A} (P : A -> Prop) n l (body : nat -> val -> A -> M A) :
  (forall i x acc, P acc -> confined R (body i x acc) P) ->
  forall i acc, P acc -> confined R (for_list n l i body acc) P.
Proof.
  intros Hb. induction n as [|n IH]; intros i acc Hacc; simpl.
  - by apply confined_ret.
  - eapply confined_bind; [apply (confined_read_only _ (read_only_load l))|].
    intros vs _. destruct (vs !! i) as [x|]; [|by apply confined_ret].
    eapply confined_bind; [by apply Hb|]. intros acc' Hacc'. by apply IH.
Qed.

Lemma confined_for_items {A} (P : A -> Prop) xs (body : nat -> val -> A -> M A) :
  (forall i x acc, P acc -> confined R (body i x acc) P) ->
  forall i acc, P acc -> confined R (for_items xs i body acc) P.
Proof.
  intros Hb. induction xs as [|x xs IH]; intros i acc Hacc; simpl.
  - by apply confined_ret.
  - eapply confined_bind; [by apply Hb|]. intros acc' Hacc'. by apply IH.
Qed.

Lemma confined_for_enumerate {A} (P : A -> Prop) v
    (body : nat -> val -> A -> M A) acc :
  (forall i x acc, P acc -> confined R (body i x acc) P) ->
  P acc ->
  confined R (for_enumerate v body acc) P.
Proof.
  intros Hb Hacc. destruct v as [s|z|l]; simpl.
  - by apply confined_for_items.
  - apply confined_raise.
  - eapply confined_bind; [apply (confined_read_only _ (read_only_load l))|].
    intros vs _. by apply confined_for_list.
Qed.

Lemma confined_for_each v (body : nat -> val -> M unit) :
  (forall i x, confined R (body i x) (fun _ => True)) ->
  confined R (for_each v body) (fun _ => True).
Proof.
  intros Hb. apply (confined_for_enumerate (fun _ => True)); [|done].
  intros; apply Hb.
Qed.

Lemma confined_enum_levels n : forall v (yield : list nat * val -> M unit),
  (forall p, confined R (yield p) (fun _ => True)) ->
  confined R (enum_levels n v yield) (fun _ => True).
Proof.
  induction n as [|n IH]; intros v yield Hy; simpl.
  - apply confined_for_each. intros; apply Hy.
  - apply confined_for_each. intros i x. apply IH. intros [j y]. apply Hy.
Qed.

Lemma confined_enum_at_depth v depth (yield : list nat * val -> M unit) :
  (forall p, confined R (yield p) (fun _ => True)) ->
  confined R (enum_at_depth v depth yield) (fun _ => True).
Proof.
  intros Hy s Hs. destruct (decide (1 <= depth <= 5)) as [Hd|Hd].
  - rewrite (enum_at_depth_levels (Z.to_nat (depth - 1))) by done.
    by apply confined_enum_levels.
  - rewrite enum_at_depth_invalid by done. by apply confined_raise.
Qed.

Lemma confined_join_leaves fuel : forall joint v to_depth _depth,
  confined R (join_leaves fuel joint v to_depth _depth : M _) (val_in R).
Proof.
  induction fuel as [|fuel IH]; intros joint v to_depth _depth; simpl.
  - apply confined_raise.
  - case_decide.
    + eapply confined_bind;
        [apply (confined_read_only _ (read_only_py_join joint v))|].
      intros str _. by apply confined_ret.
    + eapply confined_bind.
      * apply (confined_for_enumerate (Forall (val_in R))); [|done].
        intros i x acc Hacc. eapply confined_bind; [apply IH|].
        intros r Hr. apply confined_ret. apply Forall_app. split; [done|].
        by constructor.
      * intros rs Hrs. eapply confined_bind; [by apply confined_alloc|].
        intros l Hl. by apply confined_ret.
Qed.

Lemma confined_deepcopy_all
    (copy : val -> gmap loc loc -> M (val * gmap loc loc)) :
  (forall x memo, memo_in R memo ->
     confined R (copy x memo) (fun r => val_in R r.1 /\ memo_in R r.2)) ->
  forall xs memo, memo_in R memo ->
    confined R (deepcopy_all copy xs memo)
      (fun r => Forall (val_in R) r.1 /\ memo_in R r.2).
Proof.
  intros Hcopy. induction xs as [|x xs IH]; intros memo Hmemo; simpl.
  - by apply confined_ret.
  - eapply confined_bind; [by apply Hcopy|]. intros r [Hr1 Hr2].
    eapply confined_bind; [by apply IH|]. intros rs [Hrs1 Hrs2].
    apply confined_ret. simpl. split; [by constructor|done].
Qed.

Lemma confined_deepcopy fuel : forall x memo, memo_in R memo ->
  confined R (deepcopy fuel x memo : M _)
    (fun r => val_in R r.1 /\ memo_in R r.2).
Proof.
  induction fuel as [|fuel IH]; intros x memo Hmemo; simpl.
  - apply confined_raise.
  - destruct x as [str|z|l]; try by apply confined_ret.
    destruct (memo !! l) as [y|] eqn:Hy.
    + apply confined_ret. split; [|done]. simpl. by eapply Hmemo.
    + eapply confined_bind; [apply (confined_read_only _ (read_only_load l))|].
      intros vs _.
      eapply confined_bind; [by apply confined_alloc|]. intros y Hy'.
      eapply confined_bind.
      * apply confined_deepcopy_all; [apply IH|].
        intros k y' Hk. apply lookup_insert_Some in Hk as [[_ <-]|[_ Hk]];
          [done|by eapply Hmemo].
      * intros r [Hr1 Hr2].
        eapply confined_bind; [by apply confined_store|]. intros _ _.
        by apply confined_ret.
Qed.

Lemma confined_get_html_map fuel tables :
  confined R (get_html_map fuel tables : M _) (fun _ => True).
Proof.
  unfold get_html_map.
  eapply confined_bind; [by apply (confined_deepcopy fuel tables ∅)|].
  intros copied [Hroot _].
  eapply confined_bind.
  { apply confined_enum_at_depth. intros [a paragraph].
    destruct a as [|i [|j [|k [|m [|]]]]]; try apply confined_raise.
    eapply confined_bind;
      [apply (confined_read_only _ (read_only_py_join _ _))|]. intros txt _.
    eapply confined_bind; [by apply confined_py_getitem|]. intros t_i Hi.
    eapply confined_bind; [by apply confined_py_getitem|]. intros t_ij Hij.
    eapply confined_bind; [by apply confined_py_getitem|]. intros t_ijk Hijk.
    by apply confined_py_setitem. }
  intros _ _. eapply confined_bind.
  { apply confined_enum_at_depth. intros [a cell].
    destruct a as [|i [|j [|k [|]]]]; try apply confined_raise.
    eapply confined_bind;
      [apply (confined_read_only _ (read_only_wrap_join _ _ _))|]. intros txt _.
    eapply confined_bind; [by apply confined_py_getitem|]. intros t_i Hi.
    eapply confined_bind; [by apply confined_py_getitem|]. intros t_ij Hij.
    by apply confined_py_setitem. }
  intros _ _. eapply confined_bind.
  { apply confined_enum_at_depth. intros [a row].
    destruct a as [|i [|j [|]]]; try apply confined_raise.
    eapply confined_bind;
      [apply (confined_read_only _ (read_only_wrap_join _ _ _))|]. intros txt _.
    eapply confined_bind; [by apply confined_py_getitem|]. intros t_i Hi.
    by apply confined_py_setitem. }
  intros _ _. eapply confined_bind.
  { apply confined_enum_at_depth. intros [a table].
    destruct a as [|i [|]]; try apply confined_raise.
    eapply confined_bind;
      [apply (confined_read_only _ (read_only_wrap_join _ _ _))|]. intros txt _.
    by apply confined_py_setitem. }
  intros _ _. eapply confined_bind;
    [apply (confined_read_only _ (read_only_wrap_join _ _ _))|].
  intros txt _. by apply confined_ret.
Qed.
End Region.

(** ** Objects that exist before a call *)

(** The region of the references not yet allocated. *)
Lemma closed_region_fresh (h : heap) :
  closed_region (fun l => (length h <= l)%nat) h.
Proof.
  split; [|done]. intros l vs Hl Hlook. apply lookup_lt_Some in Hlook. lia.
Qed.

Lemma unchanged_below (h h' : heap) :
  (forall l, ~ (length h <= l)%nat -> h' !! l = h !! l) ->
  take (length h) h' = h.
Proof.
  intros Hsame. apply list_eq. intros i.
  destruct (decide (i < length h)%nat) as [Hi|Hi].
  - rewrite lookup_take_lt by done. apply Hsame. lia.
  - rewrite lookup_take_ge by lia. symmetry. apply lookup_ge_None. lia.
Qed.

Lemma confined_unchanged {T A} (m : M T A) (s : state T) :
  (forall R, confined R m (fun _ => True)) ->
  take (length s.1) (m s).2.1 = s.1.
Proof.
  intros Hm. apply unchanged_below.
  apply (Hm (fun l => (length s.1 <= l)%nat) s), closed_region_fresh.
Qed.

Lemma tree_ind_list (P : tree -> Prop) :
  (forall s, P (TStr s)) -> (forall z, P (TInt z)) ->
  (forall ts, Forall P ts -> P (TList ts)) ->
  forall t, P t.
Proof.
  intros Hs Hz Hl. fix IH 1. intros [s|z|ts]; [apply Hs|apply Hz|].
  apply Hl. induction ts as [|t ts IHts]; constructor; [apply IH|apply IHts].
Qed.

(** A tree read from the store stays the same tree when the objects that
    existed are unchanged. *)
Lemma represents_unchanged (h h' : heap) t : forall v,
  take (length h) h' = h ->
  represents h t v = true -> represents h' t v = true.
Proof.
  intros v Htake. revert v.
  induction t as [s|z|ts IH] using tree_ind_list; intros v; [done|done|].
  destruct v as [| |l]; simpl; try done.
  destruct (h !! l) as [vs|] eqn:Hl; [|done].
  assert (h' !! l = Some vs) as ->.
  { rewrite <- Htake in Hl. by apply lookup_take_Some in Hl as [? _]. }
  clear Hl. revert vs. induction IH as [|t ts Ht _ IHts]; intros [|v vs]; try done.
  intros [H1 H2]%andb_prop. apply andb_true_intro. split; [by apply Ht|].
  by apply IHts.
Qed.

(** ** Nested lists held without sharing *)

Lemma owns_frame_both h :
  (forall t v F, owns h t v F ->
     forall h', (forall l, l ∈ F -> h' !! l = h !! l) -> owns h' t v F)
  /\ (forall ts vs F, owns_all h ts vs F ->
     forall h', (forall l, l ∈ F -> h' !! l = h !! l) -> owns_all h' ts vs F).
Proof.
  apply owns_mutind.
  - intros s h' _. constructor.
  - intros z h' _. constructor.
  - intros l vs ts F Hl Hnotin _ IH h' Hsame.
    apply (owns_list h' l vs); [|done|].
    + rewrite Hsame by set_solver. done.
    + apply IH. intros l' Hl'. apply Hsame. set_solver.
  - intros h' _. constructor.
  - intros t ts v vs F1 F2 _ IH1 _ IH2 Hdisj h' Hsame. constructor; [| |done].
    + apply IH1. intros l Hl. apply Hsame. set_solver.
    + apply IH2. intros l Hl. apply Hsame. set_solver.
Qed.

Lemma owns_frame h h' t v F :
  owns h t v F -> (forall l, l ∈ F -> h' !! l = h !! l) -> owns h' t v F.
Proof. intros H. by apply (proj1 (owns_frame_both h)). Qed.

Lemma owns_all_frame h h' ts vs F :
  owns_all h ts vs F -> (forall l, l ∈ F -> h' !! l = h !! l) ->
  owns_all h' ts vs F.
Proof. intros H. by apply (proj2 (owns_frame_both h)). Qed.

Lemma owns_closed_both h :
  (forall t v F, owns h t v F ->
     val_in (fun l => l ∈ F) v
     /\ forall l vs, l ∈ F -> h !! l = Some vs -> Forall (val_in (fun l => l ∈ F)) vs)
  /\ (forall ts vs F, owns_all h ts vs F ->
     Forall (val_in (fun l => l ∈ F)) vs
     /\ forall l vs', l ∈ F -> h !! l = Some vs' ->
          Forall (val_in (fun l => l ∈ F)) vs').
Proof.
  assert (forall (F F' : gset loc) vs, F ⊆ F' ->
    Forall (val_in (fun l => l ∈ F)) vs -> Forall (val_in (fun l => l ∈ F')) vs)
    as Hmono.
  { intros F F' vs Hsub Hvs. eapply Forall_impl; [exact Hvs|].
    intros [| |l]; simpl; set_solver. }
  apply owns_mutind.
  - intros s. split; [done|]. set_solver.
  - intros z. split; [done|]. set_solver.
  - intros l vs ts F Hl Hnotin _ [IH1 IH2]. split; [simpl; set_solver|].
    intros l' vs' Hl' Hlook. destruct (decide (l' = l)) as [->|Hne].
    + rewrite Hl in Hlook. injection Hlook as <-.
      eapply Hmono; [|done]. set_solver.
    + eapply Hmono; [|by eapply (IH2 l' vs'); [set_solver|] ]. set_solver.
  - split; [done|]. set_solver.
  - intros t ts v vs F1 F2 _ [IH1 IH1'] _ [IH2 IH2'] Hdisj. split.
    + constructor.
      * destruct v; simpl in *; set_solver.
      * eapply Hmono; [|done]. set_solver.
    + intros l vs' [Hl|Hl]%elem_of_union Hlook.
      * eapply Hmono; [|by eapply IH1']. set_solver.
      * eapply Hmono; [|by eapply IH2']. set_solver.
Qed.

Lemma owns_bound_both h :
  (forall t v F, owns h t v F -> forall l, l ∈ F -> (l < length h)%nat)
  /\ (forall ts vs F, owns_all h ts vs F ->
        forall l, l ∈ F -> (l < length h)%nat).
Proof.
  apply owns_mutind; try set_solver.
  - intros l vs ts F Hl Hnotin _ IH l' [->%elem_of_singleton|Hl']%elem_of_union.
    + by eapply lookup_lt_Some.
    + by apply IH.
Qed.

Lemma owns_bound h t v F l : owns h t v F -> l ∈ F -> (l < length h)%nat.
Proof. intros H. by apply (proj1 (owns_bound_both h) t v F). Qed.

Lemma owns_all_length h ts vs F : owns_all h ts vs F -> length vs = length ts.
Proof. induction 1; simpl; congruence. Qed.

(** The region of a tree held without sharing, together with the references
    not yet allocated, is closed. *)
Lemma owns_closed_region h t v F :
  owns h t v F ->
  closed_region (fun l => l ∈ F \/ (length h <= l)%nat) h
  /\ val_in (fun l => l ∈ F \/ (length h <= l)%nat) v.
Proof.
  intros Ho. destruct (proj1 (owns_closed_both h) _ _ _ Ho) as [Hv Hc].
  split; [split|].
  - intros l vs [Hl|Hl] Hlook.
    + eapply Forall_impl; [by eapply Hc|]. intros [| |l']; simpl; auto.
    + apply lookup_lt_Some in Hlook. lia.
  - auto.
  - destruct v; simpl in *; auto.
Qed.

(** ** Loops whose bodies agree where an invariant holds *)

Section Congruence.
Context {T : Type} (Inv : state T -> Prop).
#[local] Abbreviation M := (M T).

Lemma for_list_cong {A} n l (b1 b2 : nat -> val -> A -> M A) :
  (forall i x acc s, Inv s ->
     b1 i x acc s = b2 i x acc s /\ Inv (b2 i x acc s).2) ->
  forall i acc s, Inv s ->
    for_list n l i b1 acc s = for_list n l i b2 acc s
    /\ Inv (for_list n l i b2 acc s).2.
Proof.
  intros Hb. induction n as [|n IH]; intros i acc s Hs; simpl; [done|].
  unfold bind, load. destruct (s.1 !! l) as [vs|]; [|done].
  destruct (vs !! i) as [x|]; [|done].
  destruct (Hb i x acc s Hs) as [-> Hinv].
  destruct (b2 i x acc s) as [[acc'| e |] s']; simpl in *; [|done..].
  by apply IH.
Qed.

Lemma for_items_cong {A} xs (b1 b2 : nat -> val -> A -> M A) :
  (forall i x acc s, Inv s ->
     b1 i x acc s = b2 i x acc s /\ Inv (b2 i x acc s).2) ->
  forall i acc s, Inv s ->
    for_items xs i b1 acc s = for_items xs i b2 acc s
    /\ Inv (for_items xs i b2 acc s).2.
Proof.
  intros Hb. induction xs as [|x xs IH]; intros i acc s Hs; simpl; [done|].
  unfold bind. destruct (Hb i x acc s Hs) as [-> Hinv].
  destruct (b2 i x acc s) as [[acc'| e |] s']; simpl in *; [|done..].
  by apply IH.
Qed.

Lemma for_each_cong v (b1 b2 : nat -> val -> M unit) s :
  (forall i x s, Inv s -> b1 i x s = b2 i x s /\ Inv (b2 i x s).2) ->
  Inv s ->
  for_each v b1 s = for_each v b2 s /\ Inv (for_each v b2 s).2.
Proof.
  intros Hb Hs. unfold for_each. destruct v as [str|z|l]; simpl; [|done|].
  - apply for_items_cong; [|done]. intros; by apply Hb.
  - unfold bind, load. destruct (s.1 !! l) as [vs|]; [|done].
    apply for_list_cong; [|done]. intros; by apply Hb.
Qed.

Lemma enum_levels_cong n : forall v (y1 y2 : list nat * val -> M unit) s,
  (forall a it s, length a = S n -> Inv s ->
     y1 (a, it) s = y2 (a, it) s /\ Inv (y2 (a, it) s).2) ->
  Inv s ->
  enum_levels n v y1 s = enum_levels n v y2 s
  /\ Inv (enum_levels n v y2 s).2.
Proof.
  induction n as [|n IH]; intros v y1 y2 s Hy Hs; simpl.
  - apply for_each_cong; [|done]. intros i x s' Hs'. by apply Hy.
  - apply for_each_cong; [|done]. intros i x s' Hs'. apply IH; [|done].
    intros a it s'' Ha Hs''. apply Hy; [simpl; lia|done].
Qed.
End Congruence.

Lemma confined_set_at {T} (R : loc -> Prop) a : forall y x,
  val_in R y -> val_in R x ->
  confined R (set_at y a x : M T unit) (fun _ => True).
Proof.
  induction a as [|i a IH]; intros y x Hy Hx; simpl.
  - by apply confined_ret.
  - destruct a as [|j a]; [by apply confined_py_setitem|].
    eapply confined_bind; [by apply confined_py_getitem|].
    intros y' Hy'. by apply IH.
Qed.

(** ** Replacing the nodes of a level in place *)

Lemma drop_cons_lookup {A} (l : list A) i x l' :
  drop i l = x :: l' -> l !! i = Some x /\ drop (S i) l = l'.
Proof.
  intros Hd. split.
  - rewrite <- (Nat.add_0_r i), <- lookup_drop, Hd. done.
  - rewrite <- (Nat.add_1_l i), (Nat.add_comm 1 i), <- drop_drop, Hd. done.
Qed.

Lemma bind_ok {T A B} (m : M T A) (f : A -> M T B) s a s' :
  m s = (Ok a, s') -> bind m f s = f a s'.
Proof. intros H. unfold bind. by rewrite H. Qed.

Lemma for_list_step {T A} n l i (body : nat -> val -> A -> M T A) acc s vs x acc' s' :
  s.1 !! l = Some vs -> vs !! i = Some x ->
  body i x acc s = (Ok acc', s') ->
  for_list (S n) l i body acc s = for_list n l (S i) body acc' s'.
Proof.
  intros Hl Hx Hb. simpl. unfold bind at 1, load. rewrite Hl, Hx.
  by apply bind_ok.
Qed.

Lemma for_each_list {T} l (body : nat -> val -> M T unit) s vs :
  s.1 !! l = Some vs ->
  for_each (VList l) body s =
    for_list (length vs) l 0 (fun i x _ => body i x) tt s.
Proof.
  intros Hl. unfold for_each. simpl. unfold bind, load. by rewrite Hl.
Qed.

Lemma py_getitem_list {T} l i (s : state T) vs x :
  s.1 !! l = Some vs -> vs !! i = Some x ->
  py_getitem (VList l) i s = (Ok x, s).
Proof.
  intros Hl Hx. simpl. unfold bind, load. by rewrite Hl, Hx.
Qed.

Lemma py_setitem_list {T} l i x (s : state T) vs :
  s.1 !! l = Some vs -> (i < length vs)%nat ->
  py_setitem (VList l) i x s = (Ok tt, (<[l := <[i := x]> vs]> s.1, s.2)).
Proof.
  intros Hl Hi. simpl. unfold bind, load. rewrite Hl.
  rewrite decide_True by done. unfold store. by rewrite Hl.
Qed.

Lemma drop_S_middle {A} (l : list A) x k :
  drop (S (length l)) (l ++ x :: k) = k.
Proof. induction l as [|y l IH]; simpl; [by rewrite drop_0|done]. Qed.

Section InPlace.
Context {T : Type}.
Context (G : list nat -> val -> M T string) (g : list nat -> tree -> string).
Context (good : tree -> Prop).
Hypothesis G_read_only : forall a v, read_only (G a v).
Hypothesis G_good : forall a v tv F (s : state T),
  owns s.1 tv v F -> good tv -> G a v s = (Ok (g a tv), s).

Lemma inplace_base_loop lx ly pre u : forall rest_ts rest_x F_xr done_y rest_y h,
  h !! ly = Some (done_y ++ rest_y) ->
  length rest_y = length rest_ts ->
  (exists cx, h !! lx = Some cx /\ drop (length done_y) cx = rest_x) ->
  owns_all h rest_ts rest_x F_xr -> ly ∉ F_xr ->
  Forall good rest_ts ->
  exists h',
    for_list (length rest_x) lx (length done_y)
      (fun i xi _ => update_at G (VList ly) pre ([i], xi)) tt (h, u)
      = (Ok tt, (h', u))
    /\ h' !! ly =
         Some (done_y ++
               imap (fun j c => VStr (g (pre ++ [(length done_y + j)%nat]) c))
                 rest_ts)
    /\ (forall l, l <> ly -> h' !! l = h !! l).
Proof.
  induction rest_ts as [|c cs IH];
    intros rest_x F_xr done_y rest_y h Hly Hlen (cx & Hlx & Hdrop) Hown Hnotin Hgood.
  - inversion Hown; subst. destruct rest_y; [|done]. exists h. done.
  - destruct rest_x as [|xi xs]; [by inversion Hown|].
    inversion Hown as [|? ? ? ? F1 F2 Hc Hcs Hdisj]; subst.
    destruct rest_y as [|yi ys]; [done|]. simpl in Hlen.
    apply Forall_cons in Hgood as [Hgc Hgcs].
    destruct (drop_cons_lookup _ _ _ _ Hdrop) as [Hxi Hxs].
    set (text := g (pre ++ [length done_y]) c).
    set (h1 := <[ly := (done_y ++ [VStr text]) ++ ys]> h).
    assert (ly < length h)%nat as Hlt by (by eapply lookup_lt_Some).
    destruct (IH xs F2 (done_y ++ [VStr text]) ys h1) as (h' & Hrun & Hly' & Hframe).
    + unfold h1. by rewrite list_lookup_insert_eq.
    + lia.
    + rewrite length_app. simpl. rewrite Nat.add_1_r.
      destruct (decide (lx = ly)) as [->|Hne].
      * eexists. split; [unfold h1; by rewrite list_lookup_insert_eq|].
        rewrite Hly in Hlx. injection Hlx as <-.
        rewrite <- Hxs. rewrite <- !app_assoc. simpl.
        by rewrite !drop_S_middle.
      * exists cx. split; [|done]. unfold h1.
        by rewrite list_lookup_insert_ne.
    + eapply owns_all_frame; [done|]. intros l Hl. unfold h1.
      apply list_lookup_insert_ne. set_solver.
    + set_solver.
    + done.
    + exists h'. split; [|split].
      * rewrite length_app, Nat.add_1_r in Hrun. rewrite <- Hrun.
        apply (for_list_step _ _ _ _ _ (h, u) cx xi); [done..|].
        unfold update_at. simpl fst. simpl snd.
        rewrite (bind_ok _ _ (h, u) text (h, u)) by (by eapply G_good).
        etransitivity;
          [apply (py_setitem_list ly (length done_y) (VStr text) (h, u)
                    (done_y ++ yi :: ys));
           [done|rewrite length_app; simpl; lia]|].
        simpl. unfold h1. do 3 f_equal.
        rewrite <- app_assoc. simpl.
        rewrite insert_app_r_alt by lia. by rewrite Nat.sub_diag.
      * rewrite Hly'. rewrite <- app_assoc. simpl. rewrite Nat.add_0_r.
        do 3 f_equal. apply imap_ext. intros j y _. simpl.
        rewrite length_app. simpl. do 4 f_equal. lia.
      * intros l Hl. rewrite Hframe by done. unfold h1.
        by rewrite list_lookup_insert_ne.
Qed.

(** Below a list of [y] that stays in place, the assignment through [y] is
    the assignment through the element. *)
Lemma update_at_child ly vsy i yi pre (Fi : gset loc) (h0 : heap) a it (s : state T) :
  let R0 := fun l => l ∈ Fi \/ (length h0 <= l)%nat in
  vsy !! i = Some yi -> val_in R0 yi -> ~ R0 ly ->
  a <> [] ->
  closed_region R0 s.1 /\ s.1 !! ly = Some vsy ->
  update_at G (VList ly) pre (i :: a, it) s =
    update_at G yi (pre ++ [i]) (a, it) s
  /\ (closed_region R0 (update_at G yi (pre ++ [i]) (a, it) s).2.1
      /\ (update_at G yi (pre ++ [i]) (a, it) s).2.1 !! ly = Some vsy).
Proof.
  intros R0 Hyi Hin Hly Ha [Hcl Hlook]. split.
  - unfold update_at. simpl fst. simpl snd.
    rewrite <- app_assoc. simpl app.
    unfold bind. pose proof (G_read_only (pre ++ i :: a) it s) as Hro.
    destruct (G (pre ++ i :: a) it s) as [[text| e |] s1]; [|done..].
    simpl in Hro. subst s1. destruct a as [|j a]; [done|].
    change (set_at (VList ly) (i :: j :: a) (VStr text) s) with
      (bind (py_getitem (VList ly) i) (fun y' => set_at y' (j :: a) (VStr text)) s).
    by rewrite (bind_ok _ _ s yi s) by (by eapply py_getitem_list).
  - assert (confined R0 (update_at G yi (pre ++ [i]) (a, it)) (fun _ => True))
      as Hconf.
    { unfold update_at. eapply confined_bind;
        [apply confined_read_only, G_read_only|].
      intros text _. by apply confined_set_at. }
    destruct (Hconf s Hcl) as (Hcl' & Hfr & _). split; [done|].
    by rewrite Hfr.
Qed.

Lemma inplace_step_loop n lx ly pre u vsx vsy :
  (forall x y t Fy pre h,
     owns h t y Fy ->
     (x = y \/ exists Fx, owns h t x Fx /\ Fx ## Fy) ->
     lists_to n good t ->
     exists h' Fy',
       enum_levels n x (update_at G y pre) (h, u) = (Ok tt, (h', u))
       /\ owns h' (mapi_depth n g pre t) y Fy' /\ Fy' ⊆ Fy
       /\ (forall l, l ∉ Fy -> h' !! l = h !! l)) ->
  forall rest_ts rest_x rest_y F_yr i0 h,
  h !! lx = Some vsx -> h !! ly = Some vsy ->
  drop i0 vsx = rest_x -> drop i0 vsy = rest_y ->
  owns_all h rest_ts rest_y F_yr -> lx ∉ F_yr -> ly ∉ F_yr ->
  (rest_x = rest_y \/ exists F_xr, owns_all h rest_ts rest_x F_xr /\ F_xr ## F_yr) ->
  Forall (lists_to n good) rest_ts ->
  exists h' F',
    for_list (length rest_x) lx i0
      (fun i xi _ =>
         enum_levels n xi (fun '(j, it) => update_at G (VList ly) pre (i :: j, it)))
      tt (h, u) = (Ok tt, (h', u))
    /\ owns_all h' (imap (fun j c => mapi_depth n g (pre ++ [(i0 + j)%nat]) c) rest_ts)
         rest_y F'
    /\ F' ⊆ F_yr
    /\ (forall l, l ∉ F_yr -> h' !! l = h !! l).
Proof.
  intros IHn. induction rest_ts as [|c cs IH];
    intros rest_x rest_y F_yr i0 h Hlx Hly Hdx Hdy Hown Hlxn Hlyn Hx Hgood.
  - assert (rest_y = [] /\ F_yr = ∅) as [-> ->] by (by inversion Hown).
    assert (rest_x = []) as ->.
    { destruct Hx as [->|(F_xr & Hox & _)]; [done|]. by inversion Hox. }
    exists h, ∅. split; [done|]. split; [constructor|done].
  - destruct rest_y as [|yi ys]; [by inversion Hown|].
    revert Hdx Hx.
    inversion Hown as [|? ? ? ? F1 F2 Hc Hcs Hdisj]; subst. intros Hdx Hx.
    apply Forall_cons in Hgood as [Hgc Hgcs].
    destruct (drop_cons_lookup _ _ _ _ Hdy) as [Hyi Hys].
    assert (exists xi xs, rest_x = xi :: xs
      /\ (xi = yi \/ exists Fx, owns h c xi Fx /\ Fx ## F1)
      /\ (xs = ys \/ exists F_xr, owns_all h cs xs F_xr /\ F_xr ## F1 ∪ F2))
      as (xi & xs & -> & Hxi & Hxs).
    { destruct Hx as [->|(F_xr & Hox & Hxd)].
      - exists yi, ys. auto.
      - inversion Hox as [|? ? xi xs Fx1 Fx2 Hcx Hcsx Hdx']; subst.
        exists xi, xs. split; [done|]. split; right.
        + exists Fx1. split; [done|]. set_solver.
        + exists Fx2. split; [done|]. set_solver. }
    destruct (drop_cons_lookup _ _ _ _ Hdx) as [Hxi' Hxs'].
    assert (ly < length h)%nat as Hlt by (by eapply lookup_lt_Some).
    destruct (owns_closed_region h c yi F1 Hc) as [Hclosed Hvin].
    set (R0 := fun l => l ∈ F1 \/ (length h <= l)%nat) in *.
    assert (~ R0 ly) as HnR by (unfold R0; intros [?|?]; [set_solver|lia]).
    destruct (enum_levels_cong
      (fun s => closed_region R0 s.1 /\ s.1 !! ly = Some vsy) n xi
      (fun '(j, it) => update_at G (VList ly) pre (i0 :: j, it))
      (update_at G yi (pre ++ [i0])) (h, u)) as [Hcong _].
    { intros a it s Ha Hs.
      apply (update_at_child ly vsy i0 yi pre F1 h a it s); try done.
      by destruct a. }
    { done. }
    destruct (IHn xi yi c F1 (pre ++ [i0]) h Hc Hxi Hgc)
      as (h1 & F1' & Hrun1 & Hown1 & Hsub1 & Hframe1).
    destruct (IH xs ys F2 (S i0) h1) as (h' & F2' & Hrun & Hown2 & Hsub2 & Hframe2).
    + rewrite Hframe1; [done|set_solver].
    + rewrite Hframe1; [done|set_solver].
    + done.
    + done.
    + eapply owns_all_frame; [done|]. intros l Hl. apply Hframe1. set_solver.
    + set_solver.
    + set_solver.
    + destruct Hxs as [->|(F_xr & Hox & Hxd)]; [by left|]. right.
      exists F_xr. split; [|set_solver].
      eapply owns_all_frame; [done|]. intros l Hl. apply Hframe1. set_solver.
    + done.
    + exists h', (F1' ∪ F2'). split; [|split; [|split]].
      * rewrite <- Hrun.
        apply (for_list_step _ _ _ _ _ (h, u) vsx xi); [done..|].
        by rewrite Hcong.
      * simpl. rewrite Nat.add_0_r. constructor.
        -- eapply owns_frame; [done|]. intros l Hl. apply Hframe2.
           set_solver.
        -- erewrite imap_ext; [exact Hown2|].
           intros j y _. simpl. do 3 f_equal. lia.
        -- set_solver.
      * set_solver.
      * intros l Hl. rewrite Hframe2, Hframe1; [done|set_solver..].
Qed.

Lemma owns_all_strings h (f : nat -> tree -> string) : forall ts,
  owns_all h (imap (fun i c => TStr (f i c)) ts)
    (imap (fun i c => VStr (f i c)) ts) ∅.
Proof.
  intros ts. revert f. induction ts as [|c cs IH]; intros f; simpl.
  - constructor.
  - rewrite <- (union_empty_l_L (∅ : gset loc)).
    constructor; [constructor|apply (IH (fun i => f (S i)))|set_solver].
Qed.

(** Enumerating [x] down to a level and assigning, for each node yielded,
    the string computed from it to the same address of [y] turns [y] into
    the tree with these strings at that level; [x] is [y] itself or a tree of
    the same shape held apart from [y].  Nothing outside [y] changes. *)
Lemma inplace_levels n : forall u x y t Fy pre h,
  owns h t y Fy ->
  (x = y \/ exists Fx, owns h t x Fx /\ Fx ## Fy) ->
  lists_to n good t ->
  exists h' Fy',
    enum_levels n x (update_at G y pre) (h, u) = (Ok tt, (h', u))
    /\ owns h' (mapi_depth n g pre t) y Fy' /\ Fy' ⊆ Fy
    /\ (forall l, l ∉ Fy -> h' !! l = h !! l).
Proof.
  induction n as [|n IH]; intros u x y t Fy pre h Hy Hx Hshape.
  - destruct t as [| |ts]; try done. simpl in Hshape.
    inversion Hy as [| |ly vsy ? F Hly Hnotin Hall]; subst.
    assert (exists lx vsx F_xr, x = VList lx /\ h !! lx = Some vsx
      /\ owns_all h ts vsx F_xr /\ ly ∉ F_xr) as (lx & vsx & F_xr & -> & Hlx & Hallx & Hn).
    { destruct Hx as [->|(Fx & Hox & Hd)]; [by exists ly, vsy, F|].
      inversion Hox as [| |lx vsx ? F' Hlx Hnotin' Hallx]; subst.
      exists lx, vsx, F'. repeat split; try done. set_solver. }
    destruct (inplace_base_loop lx ly pre u ts vsx F_xr [] vsy h)
      as (h' & Hrun & Hly' & Hframe); try done.
    { by eapply owns_all_length. }
    { by exists vsx. }
    exists h', ({[ly]} ∪ ∅). split; [|split; [|split]].
    + rewrite <- Hrun.
      exact (for_each_list lx
        (fun i xi => update_at G (VList ly) pre ([i], xi)) (h, u) vsx Hlx).
    + simpl. apply (owns_list h' ly
        (imap (fun j c => VStr (g (pre ++ [j]) c)) ts)); [done|set_solver|].
      apply (owns_all_strings h' (fun j c => g (pre ++ [j]) c)).
    + set_solver.
    + intros l Hl. apply Hframe. set_solver.
  - destruct t as [| |ts]; try done. simpl in Hshape.
    inversion Hy as [| |ly vsy ? F Hly Hnotin Hall]; subst.
    assert (exists lx vsx, x = VList lx /\ h !! lx = Some vsx /\ lx ∉ F
      /\ (vsx = vsy \/ exists F_xr, owns_all h ts vsx F_xr /\ F_xr ## F))
      as (lx & vsx & -> & Hlx & Hn & Hxs).
    { destruct Hx as [->|(Fx & Hox & Hd)]; [exists ly, vsy; auto|].
      inversion Hox as [| |lx vsx ? F' Hlx Hnotin' Hallx]; subst.
      exists lx, vsx. repeat split; try done; [set_solver|].
      right. exists F'. split; [done|set_solver]. }
    destruct (inplace_step_loop n lx ly pre u vsx vsy (IH u) ts vsx vsy F 0%nat h)
      as (h' & F' & Hrun & Hown & Hsub & Hframe); try done.
    exists h', ({[ly]} ∪ F'). split; [|split; [|split]].
    + rewrite <- Hrun.
      exact (for_each_list lx
        (fun i xi => enum_levels n xi
           (fun '(j, it) => update_at G (VList ly) pre (i :: j, it)))
        (h, u) vsx Hlx).
    + simpl. apply (owns_list h' ly vsy); [|set_solver|done].
      rewrite Hframe; done.
    + set_solver.
    + intros l Hl. apply Hframe. set_solver.
Qed.
End InPlace.

(** ** The deep copy of a tree held without sharing *)

Lemma height_children ts fuel :
  (height (TList ts) < S fuel)%nat -> Forall (fun c => (height c < fuel)%nat) ts.
Proof.
  simpl. induction ts as [|c cs IH]; simpl; [constructor|].
  intros H. constructor; [lia|]. apply IH. lia.
Qed.

Section DeepCopy.
Context {T : Type} (u : T).

Lemma deepcopy_all_owned (copy : val -> gmap loc loc -> M T (val * gmap loc loc)) fuel :
  (forall t x F h memo,
     owns h t x F -> (height t < fuel)%nat ->
     (forall l, l ∈ F -> memo !! l = None) ->
     exists y h' memo' Fy,
       copy x memo (h, u) = (Ok (y, memo'), (h', u))
       /\ owns h' t y Fy
       /\ (forall l, l ∈ Fy -> (length h <= l)%nat)
       /\ (length h <= length h')%nat
       /\ (forall l, (l < length h)%nat -> h' !! l = h !! l)
       /\ (forall l, l ∉ F -> memo' !! l = memo !! l)) ->
  forall ts xs F h memo,
    owns_all h ts xs F -> Forall (fun c => (height c < fuel)%nat) ts ->
    (forall l, l ∈ F -> memo !! l = None) ->
    exists ys h' memo' Fys,
      deepcopy_all copy xs memo (h, u) = (Ok (ys, memo'), (h', u))
      /\ owns_all h' ts ys Fys
      /\ (forall l, l ∈ Fys -> (length h <= l)%nat)
      /\ (length h <= length h')%nat
      /\ (forall l, (l < length h)%nat -> h' !! l = h !! l)
      /\ (forall l, l ∉ F -> memo' !! l = memo !! l).
Proof.
  intros Hcopy ts. induction ts as [|t ts IH]; intros xs F h memo Hown Hh Hmemo.
  - inversion Hown; subst. exists [], h, memo, ∅.
    split; [done|]. split; [constructor|]. set_solver.
  - inversion Hown as [|? ? x xs' F1 F2 Ht Hts Hdisj]; subst.
    apply Forall_cons in Hh as [Hht Hhts].
    destruct (Hcopy t x F1 h memo Ht Hht) as
      (y & h1 & memo1 & Fy1 & Hrun1 & Hy1 & Hfresh1 & Hlen1 & Hold1 & Hm1).
    { intros l Hl. apply Hmemo. set_solver. }
    destruct (IH xs' F2 h1 memo1) as
      (ys & h2 & memo2 & Fys & Hrun2 & Hys & Hfresh2 & Hlen2 & Hold2 & Hm2).
    { eapply owns_all_frame; [done|]. intros l Hl. apply Hold1.
      by eapply (proj2 (owns_bound_both h)). }
    { done. }
    { intros l Hl. rewrite Hm1 by set_solver. apply Hmemo. set_solver. }
    exists (y :: ys), h2, memo2, (Fy1 ∪ Fys).
    split; [|split; [|split; [|split; [|split]]]].
    + simpl. rewrite (bind_ok _ _ _ _ _ Hrun1). simpl.
      rewrite (bind_ok _ _ _ _ _ Hrun2). done.
    + constructor; [|done|].
      * eapply owns_frame; [done|]. intros l Hl. apply Hold2.
        by eapply owns_bound.
      * apply elem_of_disjoint. intros l Hl1 Hl2.
        pose proof (owns_bound _ _ _ _ _ Hy1 Hl1). specialize (Hfresh2 l Hl2). lia.
    + intros l [Hl|Hl]%elem_of_union; [by apply Hfresh1|].
      specialize (Hfresh2 l Hl). lia.
    + lia.
    + intros l Hl. rewrite Hold2 by lia. by apply Hold1.
    + intros l Hl. rewrite Hm2, Hm1; [done|set_solver..].
Qed.

(** With enough recursion budget, [deepcopy] of a tree held without
    sharing returns the same tree, held without sharing in new objects, and
    leaves the objects that existed as they were. *)
Lemma deepcopy_owned fuel : forall t x F h memo,
  owns h t x F -> (height t < fuel)%nat ->
  (forall l, l ∈ F -> memo !! l = None) ->
  exists y h' memo' Fy,
    deepcopy fuel x memo (h, u) = (Ok (y, memo'), (h', u))
    /\ owns h' t y Fy
    /\ (forall l, l ∈ Fy -> (length h <= l)%nat)
    /\ (length h <= length h')%nat
    /\ (forall l, (l < length h)%nat -> h' !! l = h !! l)
    /\ (forall l, l ∉ F -> memo' !! l = memo !! l).
Proof.
  induction fuel as [|fuel IH]; intros t x F h memo Hown Hh Hmemo; [lia|].
  inversion Hown as [s|z|l vs ts F' Hl Hnotin Hall]; subst.
  - exists (VStr s), h, memo, ∅. split; [done|]. split; [constructor|]. set_solver.
  - exists (VInt z), h, memo, ∅. split; [done|]. split; [constructor|]. set_solver.
  - apply height_children in Hh.
    assert (l < length h)%nat as Hlt by (by eapply lookup_lt_Some).
    destruct (deepcopy_all_owned (deepcopy fuel) fuel IH ts vs F'
                (h ++ [[]]) (<[l := length h]> memo))
      as (ys & h1 & memo1 & Fys & Hrun & Hys & Hfresh & Hlen & Hold & Hm).
    { eapply owns_all_frame; [done|]. intros l' Hl'. apply lookup_app_l.
      by eapply (proj2 (owns_bound_both h)). }
    { done. }
    { intros l' Hl'. rewrite lookup_insert_ne by set_solver.
      apply Hmemo. set_solver. }
    rewrite length_app in Hfresh, Hlen, Hold. simpl in *.
    assert (is_Some (h1 !! length h)) as [old Hy].
    { apply lookup_lt_is_Some. lia. }
    exists (VList (length h)), (<[length h := ys]> h1), memo1, ({[length h]} ∪ Fys).
    split; [|split; [|split; [|split; [|split]]]].
    + simpl. rewrite Hmemo by set_solver.
      rewrite (bind_ok _ _ (h, u) vs (h, u)) by (unfold load; simpl; by rewrite Hl).
      rewrite (bind_ok _ _ (h, u) (length h) (h ++ [[]], u)) by done.
      rewrite (bind_ok _ _ _ _ _ Hrun). simpl.
      rewrite (bind_ok _ _ (h1, u) tt (<[length h := ys]> h1, u))
        by (unfold store; simpl; by rewrite Hy).
      done.
    + apply (owns_list _ _ ys).
      * apply list_lookup_insert_eq. lia.
      * intros Hin. specialize (Hfresh _ Hin). lia.
      * eapply owns_all_frame; [done|]. intros l' Hl'.
        apply list_lookup_insert_ne. specialize (Hfresh _ Hl'). lia.
    + intros l' [->%elem_of_singleton|Hl']%elem_of_union; [lia|].
      specialize (Hfresh _ Hl'). lia.
    + rewrite length_insert. lia.
    + intros l' Hl'. rewrite list_lookup_insert_ne by lia.
      rewrite Hold by lia. by apply lookup_app_l.
    + intros l' Hl'. rewrite Hm by set_solver.
      apply lookup_insert_ne. set_solver.
Qed.
End DeepCopy.

(** ** The loops of get_html_map *)

Lemma phase_run {T} (G : list nat -> val -> M T string) g good n depth
    (B : list nat * val -> M T unit) x y t Fy h u :
  (forall a v, read_only (G a v)) ->
  (forall a v tv F (s : state T),
     owns s.1 tv v F -> good tv -> G a v s = (Ok (g a tv), s)) ->
  depth = Z.of_nat (S n) -> 1 <= depth <= 5 ->
  (forall a it s, length a = S n -> B (a, it) s = update_at G y [] (a, it) s) ->
  owns h t y Fy ->
  (x = y \/ exists Fx, owns h t x Fx /\ Fx ## Fy) ->
  lists_to n good t ->
  exists h' Fy',
    enum_at_depth x depth B (h, u) = (Ok tt, (h', u))
    /\ owns h' (mapi_depth n g [] t) y Fy' /\ Fy' ⊆ Fy
    /\ (forall l, l ∉ Fy -> h' !! l = h !! l).
Proof.
  intros Hro Hgood -> Hd HB Hy Hx Hshape.
  destruct (inplace_levels G g good Hro Hgood n u x y t Fy [] h Hy Hx Hshape)
    as (h' & Fy' & Hrun & Hrest).
  exists h', Fy'. split; [|done].
  rewrite (enum_at_depth_levels n) by lia.
  destruct (enum_levels_cong (fun _ => True) n x B (update_at G y []) (h, u))
    as [-> _]; [|done..].
  intros a it s Ha _. split; [by apply HB|done].
Qed.

Lemma owns_all_strings_inv h ss : forall vs F,
  owns_all h (map TStr ss) vs F -> vs = map VStr ss.
Proof.
  induction ss as [|s ss IH]; intros vs F Hown; inversion Hown; subst; [done|].
  simpl. f_equal; [|by eapply IH].
  match goal with H : owns _ (TStr _) _ _ |- _ => by inversion H end.
Qed.

Lemma mapM_py_str {T} (ss : list string) (s : state T) :
  mapM py_str (map VStr ss) s = (Ok ss, s).
Proof.
  induction ss as [|x ss IH]; simpl; [done|].
  unfold bind, ret. simpl. by rewrite IH.
Qed.

Lemma map_text_of_strings ss : map text_of (map TStr ss) = ss.
Proof. rewrite map_map. simpl. apply map_id. Qed.

Lemma read_only_address_and_text {T} a v :
  read_only (address_and_text a v : M T string).
Proof.
  unfold address_and_text. apply read_only_bind; [apply read_only_py_join|].
  intros txt. apply read_only_ret.
Qed.

Lemma address_and_text_good {T} a v tv F (s : state T) :
  owns s.1 tv v F -> is_paragraph tv ->
  address_and_text a v s = (Ok (address_text a tv), s).
Proof.
  intros Hown [[str ->]|[runs ->]]; inversion Hown; subst.
  - unfold address_and_text, py_join. simpl.
    unfold bind, ret. simpl. by rewrite mapM_expect_str.
  - match goal with H : owns_all _ _ _ _ |- _ =>
      apply owns_all_strings_inv in H as -> end.
    unfold address_and_text.
    rewrite (bind_ok _ _ s (String.concat "" runs) s)
      by (by apply py_join_strings).
    unfold address_text. simpl. by rewrite map_text_of_strings.
Qed.

Lemma wrap_join_good {T} o c (a : list nat) v tv F (s : state T) :
  owns s.1 tv v F -> is_strings tv ->
  wrap_join o c v s = (Ok (wrapped_text o c tv), s).
Proof.
  intros Hown [ss ->]. inversion Hown; subst.
  match goal with H : owns_all _ _ _ _ |- _ =>
    apply owns_all_strings_inv in H as -> end.
  unfold wrap_join.
  rewrite (bind_ok _ _ s (map VStr ss) s)
    by (unfold py_list, load; by match goal with H : _ !! _ = Some _ |- _ => rewrite H end).
  rewrite (bind_ok _ _ s ss s) by apply mapM_py_str.
  simpl. by rewrite map_map.
Qed.

(** ** The working copy after each loop *)

Lemma imap_imap {A B C} (f : nat -> B -> C) (g : nat -> A -> B) (l : list A) :
  imap f (imap g l) = imap (fun i x => f i (g i x)) l.
Proof.
  revert f g. induction l as [|x l IH]; intros f g; simpl; [done|].
  f_equal. apply IH.
Qed.

Lemma Forall_imap_intro {A B} (P : B -> Prop) (F : nat -> A -> B) (xs : list A) :
  (forall i x, P (F i x)) -> Forall P (imap F xs).
Proof.
  intros HP. revert F HP. induction xs as [|x xs IH]; intros F HP; simpl;
    constructor; [apply HP|]. apply IH. intros i y. apply HP.
Qed.

Lemma Forall_map_intro {A B} (P : B -> Prop) (F : A -> B) (xs : list A) :
  (forall x, P (F x)) -> Forall P (map F xs).
Proof. intros HP. induction xs; simpl; constructor; auto. Qed.

Lemma concat_chars s : String.concat "" (chars s) = s.
Proof.
  induction s as [|c s IH]; [done|]. simpl chars.
  destruct (chars s) as [|c' cs] eqn:Hcs.
  - simpl in *. by rewrite <- IH.
  - rewrite concat_cons_cons, IH. done.
Qed.

Lemma joined_text_par p : joined_text (tree_of_par p) = par_text p.
Proof.
  destruct p as [s|runs]; simpl.
  - apply concat_chars.
  - by rewrite map_text_of_strings.
Qed.

Lemma wrapped_text_strings o c ss :
  wrapped_text o c (TList (map TStr ss)) =
    String.concat "" (map (fun x => o ++ x ++ c)%string ss).
Proof. simpl. by rewrite map_map. Qed.

Lemma tree_of_doc_shape d : lists_to 3 is_paragraph (tree_of_doc d).
Proof.
  unfold tree_of_doc. simpl.
  apply Forall_map_intro. intros tb. simpl.
  apply Forall_map_intro. intros r. simpl.
  apply Forall_map_intro. intros c. simpl.
  apply Forall_map_intro. intros [s|runs]; [left|right]; by eexists.
Qed.

Lemma addressed_tree_eq d :
  mapi_depth 3 address_text [] (tree_of_doc d) = addressed_tree d.
Proof.
  unfold tree_of_doc, addressed_tree. simpl. f_equal.
  rewrite imap_fmap. apply imap_ext. intros i tb _. simpl. f_equal.
  rewrite imap_fmap. apply imap_ext. intros j r _. simpl. f_equal.
  rewrite imap_fmap. apply imap_ext. intros k c _. simpl. f_equal.
  rewrite imap_fmap.
  change (map TStr ?l) with (TStr <$> l). rewrite fmap_imap.
  apply imap_ext. intros m p _. simpl. unfold address_text. simpl.
  by rewrite joined_text_par.
Qed.

Lemma addressed_tree_shape d : lists_to 2 is_strings (addressed_tree d).
Proof.
  unfold addressed_tree. simpl.
  apply Forall_imap_intro. intros i tb. simpl.
  apply Forall_imap_intro. intros j r. simpl.
  apply Forall_imap_intro. intros k c. by eexists.
Qed.

Lemma cells_tree_eq d :
  mapi_depth 2 (fun _ => wrapped_text "<pre>" "</pre>") [] (addressed_tree d)
    = cells_tree d.
Proof.
  unfold addressed_tree, cells_tree.
  cbn [mapi_depth]. f_equal.
  rewrite imap_imap. apply imap_ext. intros i tb _. f_equal.
  rewrite imap_imap. apply imap_ext. intros j r _. f_equal.
  rewrite imap_imap.
  change (map TStr ?l) with (TStr <$> l). rewrite fmap_imap.
  apply imap_ext. intros k c _. unfold compose. f_equal.
  rewrite wrapped_text_strings. unfold cell_html. f_equal.
  change (map ?f ?l) with (f <$> l). rewrite fmap_imap. done.
Qed.

Lemma cells_tree_shape d : lists_to 1 is_strings (cells_tree d).
Proof.
  unfold cells_tree. simpl.
  apply Forall_imap_intro. intros i tb. simpl.
  apply Forall_imap_intro. intros j r. by eexists.
Qed.

Lemma rows_tree_eq d :
  mapi_depth 1 (fun _ => wrapped_text "<td>" "</td>") [] (cells_tree d)
    = rows_tree d.
Proof.
  unfold cells_tree, rows_tree.
  cbn [mapi_depth]. f_equal.
  rewrite imap_imap. apply imap_ext. intros i tb _. cbn [mapi_depth]. f_equal.
  rewrite imap_imap.
  change (map TStr ?l) with (TStr <$> l). rewrite fmap_imap.
  apply imap_ext. intros j r _. unfold compose. f_equal.
  rewrite wrapped_text_strings. unfold row_html. f_equal.
  change (map ?f ?l) with (f <$> l). rewrite fmap_imap. done.
Qed.

Lemma rows_tree_shape d : lists_to 0 is_strings (rows_tree d).
Proof.
  unfold rows_tree. simpl.
  apply Forall_imap_intro. intros i tb. by eexists.
Qed.

Lemma tables_tree_eq d :
  mapi_depth 0 (fun _ => wrapped_text "<tr>" "</tr>") [] (rows_tree d)
    = tables_tree d.
Proof.
  unfold rows_tree, tables_tree.
  cbn [mapi_depth]. f_equal.
  rewrite imap_imap.
  change (map TStr ?l) with (TStr <$> l). rewrite fmap_imap.
  apply imap_ext. intros i tb _. unfold compose. f_equal.
  rewrite wrapped_text_strings. unfold table_html. f_equal.
  change (map ?f ?l) with (f <$> l). rewrite fmap_imap. done.
Qed.

Lemma tables_tree_text d :
  wrapped_text table_open "</table>" (tables_tree d) = body_html d.
Proof.
  unfold tables_tree. rewrite wrapped_text_strings. unfold body_html. f_equal.
  change (map ?f ?l) with (f <$> l). rewrite fmap_imap. done.
Qed.

Lemma tree_of_doc_height d : (height (tree_of_doc d) <= 5)%nat.
Proof.
  assert (forall {A} (F : A -> tree) (xs : list A) n,
    (forall x, height (F x) <= n)%nat ->
    (foldr (fun c m => Nat.max (height c) m) O (map F xs) <= n)%nat) as Hmax.
  { intros A F xs n HF. induction xs as [|x xs IH]; simpl; [lia|].
    specialize (HF x). lia. }
  unfold tree_of_doc. simpl. apply le_n_S. apply Hmax. intros tb.
  simpl. apply le_n_S. apply Hmax. intros r.
  simpl. apply le_n_S. apply Hmax. intros c.
  simpl. apply le_n_S. apply Hmax. intros [s|runs]; simpl; [lia|].
  apply le_n_S. apply Hmax. intros s. simpl. lia.
Qed.

(** ** get_html_map on a document *)

Ltac run_phase G g good n depth x y t Fy h u :=
  match goal with
  | |- ex (fun _ => bind (enum_at_depth _ _ ?B) _ _ = _ /\ _) =>
      let h' := fresh "h" in
      let F' := fresh "F" in
      let Hrun := fresh "Hrun" in
      let Hown := fresh "Hown" in
      let Hsub := fresh "Hsub" in
      let Hframe := fresh "Hframe" in
      destruct (phase_run G g good n depth B x y t Fy h u)
        as (h' & F' & Hrun & Hown & Hsub & Hframe);
      [ | | | | | | | | rewrite (bind_ok _ _ _ _ _ Hrun) ]
  end.

(** With a recursion budget of 6 or more, [get_html_map] on a document
    held in the store without sharing returns the HTML map of the document,
    and leaves the objects that existed as they were. *)
Lemma get_html_map_doc {T} (fuel : nat) (d : doc) (tables : val)
    (F : gset loc) (h : heap) (u : T) :
  owns h (tree_of_doc d) tables F -> (6 <= fuel)%nat ->
  exists h',
    get_html_map fuel tables (h, u) = (Ok (html_of d), (h', u))
    /\ (forall l, (l < length h)%nat -> h' !! l = h !! l).
Proof.
  intros Hown Hfuel.
  destruct (deepcopy_owned u fuel (tree_of_doc d) tables F h ∅ Hown)
    as (y & h0 & memo' & Fc & Hcopy & Hy & Hfresh & Hlen & Hold & _).
  { pose proof (tree_of_doc_height d). lia. }
  { done. }
  assert (owns h0 (tree_of_doc d) tables F) as Hown0.
  { eapply owns_frame; [done|]. intros l Hl. apply Hold. by eapply owns_bound. }
  assert (F ## Fc) as Hdisj.
  { apply elem_of_disjoint. intros l Hl1 Hl2.
    pose proof (owns_bound _ _ _ _ _ Hown Hl1). specialize (Hfresh l Hl2). lia. }
  unfold get_html_map. rewrite (bind_ok _ _ _ _ _ Hcopy).
  cbv zeta. cbn [fst snd].
  run_phase (@address_and_text T) address_text is_paragraph 3%nat 4
    tables y (tree_of_doc d) Fc h0 u.
  { intros a v. apply read_only_address_and_text. }
  { intros a v tv F' s. apply address_and_text_good. }
  { done. }
  { lia. }
  { intros a it s Ha. destruct a as [|i [|j [|k [|m [|]]]]]; try done.
    unfold update_at, address_and_text. simpl. unfold bind.
    by destruct (py_join "" it s) as [[txt| e |] s']. }
  { done. }
  { right. by exists F. }
  { apply tree_of_doc_shape. }
  rewrite addressed_tree_eq in Hown1.
  run_phase (fun (_ : list nat) (v : val) => wrap_join (T := T) "<pre>" "</pre>" v)
    (fun _ : list nat => wrapped_text "<pre>" "</pre>") is_strings 2%nat 3
    y y (addressed_tree d) F0 h1 u.
  { intros a v. apply read_only_wrap_join. }
  { intros a v tv F' s. by apply wrap_join_good. }
  { done. }
  { lia. }
  { intros a it s Ha. by destruct a as [|i [|j [|k [|]]]]. }
  { done. }
  { by left. }
  { apply addressed_tree_shape. }
  rewrite cells_tree_eq in Hown2.
  run_phase (fun (_ : list nat) (v : val) => wrap_join (T := T) "<td>" "</td>" v)
    (fun _ : list nat => wrapped_text "<td>" "</td>") is_strings 1%nat 2
    y y (cells_tree d) F1 h2 u.
  { intros a v. apply read_only_wrap_join. }
  { intros a v tv F' s. by apply wrap_join_good. }
  { done. }
  { lia. }
  { intros a it s Ha. by destruct a as [|i [|j [|]]]. }
  { done. }
  { by left. }
  { apply cells_tree_shape. }
  rewrite rows_tree_eq in Hown3.
  run_phase (fun (_ : list nat) (v : val) => wrap_join (T := T) "<tr>" "</tr>" v)
    (fun _ : list nat => wrapped_text "<tr>" "</tr>") is_strings 0%nat 1
    y y (rows_tree d) F2 h3 u.
  { intros a v. apply read_only_wrap_join. }
  { intros a v tv F' s. by apply wrap_join_good. }
  { done. }
  { lia. }
  { intros a it s Ha. by destruct a as [|i [|]]. }
  { done. }
  { by left. }
  { apply rows_tree_shape. }
  rewrite tables_tree_eq in Hown4.
  rewrite (bind_ok _ _ (h4, u) (wrapped_text table_open "</table>" (tables_tree d)) (h4, u)).
  2:{ eapply (wrap_join_good _ _ []); [done|]. by eexists. }
  exists h4. split.
  - unfold ret. by rewrite tables_tree_text.
  - intros l Hl.
    assert (l ∉ Fc) as Hn by (intros Hin; specialize (Hfresh l Hin); lia).
    rewrite Hframe2, Hframe1, Hframe0, Hframe by set_solver.
    by apply Hold.
Qed.

(** ** Counting tags in the HTML map *)

#[local] Arguments String.append !s1 s2 : simpl nomatch.

Lemma string_app_nil_r (s : string) : (s ++ "")%string = s.
Proof. induction s as [|c s IH]; simpl; [done|]. by rewrite IH. Qed.

Lemma concat_empty_cons (x : string) (xs : list string) :
  String.concat "" (x :: xs) = (x ++ String.concat "" xs)%string.
Proof.
  destruct xs as [|y ys]; [by rewrite string_app_nil_r|].
  by rewrite concat_cons_cons.
Qed.

Lemma no_lt_app a b : no_lt a = true -> no_lt b = true -> no_lt (a ++ b) = true.
Proof.
  intros Ha Hb. induction a as [|c a IH]; simpl in *; [done|].
  apply andb_prop in Ha as [Hc Ha]. rewrite Hc. simpl. by apply IH.
Qed.

Lemma lt_headed_app a b :
  lt_headed a = true -> lt_headed b = true -> lt_headed (a ++ b) = true.
Proof. intros Ha Hb. by destruct a. Qed.

Lemma lt_headed_concat (xs : list string) :
  Forall (fun x => lt_headed x = true) xs ->
  lt_headed (String.concat "" xs) = true.
Proof.
  induction 1 as [|x xs Hx _ IH]; [done|].
  rewrite concat_empty_cons. by apply lt_headed_app.
Qed.

Lemma prefix_cons x q c s :
  String.prefix (String x q) (String c s) =
    if ascii_dec x c then String.prefix q s else false.
Proof. done. Qed.

Lemma prefix_app_lt q : forall a b,
  no_lt q = true -> lt_headed b = true ->
  String.prefix q (a ++ b) = String.prefix q a.
Proof.
  intros a. revert q. induction a as [|c a IH]; intros q b Hq Hb.
  - simpl. destruct q as [|x q]; [by destruct b|].
    simpl in Hq. apply andb_prop in Hq as [Hx _].
    destruct b as [|y b]; [done|]. simpl in *.
    apply Ascii.eqb_eq in Hb as ->.
    destruct (ascii_dec x "<") as [->|]; [done|done].
  - simpl. destruct q as [|x q]; [done|].
    simpl in Hq. apply andb_prop in Hq as [_ Hq].
    destruct (ascii_dec x c); [by apply IH|done].
Qed.

Lemma no_lt_string_of_uint d : no_lt (NilEmpty.string_of_uint d) = true.
Proof. induction d; simpl; done. Qed.

Lemma no_lt_str_of_nat n : no_lt (str_of_nat n) = true.
Proof.
  unfold str_of_nat, NilZero.string_of_uint.
  destruct (Nat.to_uint n); try done; apply (no_lt_string_of_uint (_ _)).
Qed.

Lemma no_lt_address i j k m : no_lt (str_of_tuple [i; j; k; m]) = true.
Proof.
  unfold str_of_tuple.
  change (String.concat ", " (map str_of_nat [i; j; k; m])) with
    (str_of_nat i ++ ", " ++ str_of_nat j ++ ", " ++ str_of_nat k ++ ", "
     ++ str_of_nat m)%string.
  repeat (apply no_lt_app; try done; try apply no_lt_str_of_nat).
Qed.

Lemma sum_list_map_imap {A} (f : string -> nat) (F : nat -> A -> string)
    (G : A -> nat) (xs : list A) :
  (forall i x, f (F i x) = G x) ->
  sum_list (map f (imap F xs)) = sum_list (map G xs).
Proof.
  intros H. revert F H. induction xs as [|x xs IH]; intros F H; simpl; [done|].
  rewrite H. f_equal. apply IH. intros i y. apply H.
Qed.

Lemma sum_list_zero {A} (f : A -> nat) (xs : list A) :
  Forall (fun x => f x = 0%nat) xs -> sum_list (map f xs) = 0%nat.
Proof. induction 1 as [|x xs Hx _ IH]; simpl; [done|]. by rewrite Hx, IH. Qed.

Section Count.
Context (p : string).
Hypothesis p_tag : tag_like p = true.

(** An occurrence cannot run into a following tag. *)
Lemma occurrences_app a b :
  lt_headed b = true ->
  occurrences p (a ++ b) = (occurrences p a + occurrences p b)%nat.
Proof.
  intros Hb. destruct p as [|x q] eqn:Hp; [done|].
  simpl in p_tag. apply andb_prop in p_tag as [Hx Hq].
  induction a as [|c a IH].
  - simpl. lia.
  - simpl String.append. cbn [occurrences]. rewrite IH.
    assert (String.prefix (String x q) (String c (a ++ b)) =
            String.prefix (String x q) (String c a)) as ->; [|lia].
    simpl. destruct (ascii_dec x c); [|done]. by apply prefix_app_lt.
Qed.

(** No occurrence begins in a text without ["<"]. *)
Lemma occurrences_no_lt a b :
  no_lt a = true -> occurrences p (a ++ b) = occurrences p b.
Proof.
  intros Ha. destruct p as [|x q] eqn:Hp; [done|].
  simpl in p_tag. apply andb_prop in p_tag as [Hx Hq].
  apply Ascii.eqb_eq in Hx as ->.
  induction a as [|c a IH]; [done|].
  simpl in Ha. apply andb_prop in Ha as [Hc Ha].
  simpl String.append. cbn [occurrences]. rewrite IH by done.
  rewrite prefix_cons. destruct (ascii_dec "<" c) as [<-|]; [|done].
  by rewrite Ascii.eqb_refl in Hc.
Qed.

Lemma occurrences_concat (xs : list string) :
  Forall (fun x => lt_headed x = true) xs ->
  occurrences p (String.concat "" xs) = sum_list (map (occurrences p) xs).
Proof.
  induction 1 as [|x xs Hx Hxs IH].
  - simpl. destruct p; [done|]. done.
  - rewrite concat_empty_cons, occurrences_app by (by apply lt_headed_concat).
    simpl. by rewrite IH.
Qed.

Lemma occurrences_empty : occurrences p "" = 0%nat.
Proof. by destruct p. Qed.

Lemma occurrences_no_lt_zero s : no_lt s = true -> occurrences p s = 0%nat.
Proof.
  intros Hs. rewrite <- (string_app_nil_r s).
  rewrite occurrences_no_lt by done. apply occurrences_empty.
Qed.

Lemma text_occurrences_plain d : plain_doc d -> text_occurrences p d = 0%nat.
Proof.
  unfold plain_doc, text_occurrences. intros Hd.
  apply sum_list_zero. eapply Forall_impl; [exact Hd|]. intros tb Htb.
  apply sum_list_zero. eapply Forall_impl; [exact Htb|]. intros r Hr.
  apply sum_list_zero. eapply Forall_impl; [exact Hr|]. intros c Hc.
  apply sum_list_zero. eapply Forall_impl; [exact Hc|]. intros x Hx.
  by apply occurrences_no_lt_zero.
Qed.

Hypothesis pre_decided : forall X,
  occurrences p ("<pre>" ++ X) = (occurrences p "<pre>" + occurrences p X)%nat.

Lemma occurrences_wrapped (opening inner closing : string) :
  lt_headed inner = true -> lt_headed closing = true ->
  occurrences p (opening ++ inner ++ closing) =
    (occurrences p opening + occurrences p inner + occurrences p closing)%nat.
Proof.
  intros Hi Hc.
  rewrite occurrences_app by (by apply lt_headed_app).
  rewrite occurrences_app by done. lia.
Qed.

Lemma occurrences_pre_html i j k m x :
  occurrences p (pre_html i j k m x) =
    (occurrences p "<pre>" + occurrences p (par_text x)
     + occurrences p "</pre>")%nat.
Proof.
  unfold pre_html. rewrite pre_decided.
  rewrite !string_app_assoc.
  rewrite occurrences_no_lt by apply no_lt_address.
  rewrite (occurrences_no_lt " ") by done.
  rewrite occurrences_app by done. lia.
Qed.

Lemma occurrences_cell_html i j k (c : cell) :
  occurrences p (cell_html i j k c) =
    ((occurrences p "<pre>" + occurrences p "</pre>") * length c
     + sum_list (map (fun x => occurrences p (par_text x)) c))%nat.
Proof.
  unfold cell_html.
  rewrite occurrences_concat by (by apply Forall_imap_intro).
  rewrite (sum_list_map_imap _ _
    (fun x => occurrences p "<pre>" + occurrences p (par_text x)
              + occurrences p "</pre>")%nat)
    by (intros; apply occurrences_pre_html).
  generalize (occurrences p "<pre>") (occurrences p "</pre>")
    (occurrences p "<td>") (occurrences p "</td>")
    (occurrences p "<tr>") (occurrences p "</tr>")
    (occurrences p table_open) (occurrences p "</table>").
  intros o4 c4 o3 c3 o2 c2 o1 c1.
  induction c as [|x c IH]; cbn [sum_list foldr map length]; [lia|].
  unfold sum_list in *. nia.
Qed.

Lemma lt_headed_cell_html i j k c : lt_headed (cell_html i j k c) = true.
Proof. apply lt_headed_concat. by apply Forall_imap_intro. Qed.

Lemma occurrences_row_html i j (r : row) :
  occurrences p (row_html i j r) =
    ((occurrences p "<td>" + occurrences p "</td>") * length r
     + (occurrences p "<pre>" + occurrences p "</pre>")
       * sum_list (map (fun c : cell => length c) r)
     + sum_list (map (fun c : cell =>
         sum_list (map (fun x => occurrences p (par_text x)) c)) r))%nat.
Proof.
  unfold row_html.
  rewrite occurrences_concat by (by apply Forall_imap_intro).
  rewrite (sum_list_map_imap _ _
    (fun c : cell =>
       occurrences p "<td>"
       + ((occurrences p "<pre>" + occurrences p "</pre>") * length c
          + sum_list (map (fun x => occurrences p (par_text x)) c))
       + occurrences p "</td>")%nat).
  2:{ intros k c. rewrite occurrences_wrapped;
        [|apply lt_headed_cell_html|done].
      by rewrite occurrences_cell_html. }
  generalize (occurrences p "<pre>") (occurrences p "</pre>")
    (occurrences p "<td>") (occurrences p "</td>")
    (occurrences p "<tr>") (occurrences p "</tr>")
    (occurrences p table_open) (occurrences p "</table>").
  intros o4 c4 o3 c3 o2 c2 o1 c1.
  induction r as [|c r IH]; cbn [sum_list foldr map length]; [lia|].
  unfold sum_list in *. nia.
Qed.

Lemma lt_headed_row_html i j r : lt_headed (row_html i j r) = true.
Proof. apply lt_headed_concat. by apply Forall_imap_intro. Qed.

Lemma occurrences_table_html i (tb : table) :
  occurrences p (table_html i tb) =
    ((occurrences p "<tr>" + occurrences p "</tr>") * length tb
     + (occurrences p "<td>" + occurrences p "</td>")
       * sum_list (map (fun r : row => length r) tb)
     + (occurrences p "<pre>" + occurrences p "</pre>")
       * sum_list (map (fun r : row =>
           sum_list (map (fun c : cell => length c) r)) tb)
     + sum_list (map (fun r : row =>
         sum_list (map (fun c : cell =>
           sum_list (map (fun x => occurrences p (par_text x)) c)) r)) tb))%nat.
Proof.
  unfold table_html.
  rewrite occurrences_concat by (by apply Forall_imap_intro).
  rewrite (sum_list_map_imap _ _
    (fun r : row =>
       occurrences p "<tr>"
       + ((occurrences p "<td>" + occurrences p "</td>") * length r
          + (occurrences p "<pre>" + occurrences p "</pre>")
            * sum_list (map (fun c : cell => length c) r)
          + sum_list (map (fun c : cell =>
              sum_list (map (fun x => occurrences p (par_text x)) c)) r))
       + occurrences p "</tr>")%nat).
  2:{ intros j r. rewrite occurrences_wrapped;
        [|apply lt_headed_row_html|done].
      by rewrite occurrences_row_html. }
  generalize (occurrences p "<pre>") (occurrences p "</pre>")
    (occurrences p "<td>") (occurrences p "</td>")
    (occurrences p "<tr>") (occurrences p "</tr>")
    (occurrences p table_open) (occurrences p "</table>").
  intros o4 c4 o3 c3 o2 c2 o1 c1.
  induction tb as [|r tb IH]; cbn [sum_list foldr map length]; [lia|].
  unfold sum_list in *. nia.
Qed.

Lemma lt_headed_table_html i tb : lt_headed (table_html i tb) = true.
Proof. apply lt_headed_concat. by apply Forall_imap_intro. Qed.

Lemma occurrences_body_html (d : doc) :
  occurrences p (body_html d) =
    ((occurrences p table_open + occurrences p "</table>") * n_tables d
     + (occurrences p "<tr>" + occurrences p "</tr>") * n_rows d
     + (occurrences p "<td>" + occurrences p "</td>") * n_cells d
     + (occurrences p "<pre>" + occurrences p "</pre>") * n_pars d
     + text_occurrences p d)%nat.
Proof.
  unfold body_html, n_tables, n_rows, n_cells, n_pars, text_occurrences.
  rewrite occurrences_concat by (by apply Forall_imap_intro).
  rewrite (sum_list_map_imap _ _
    (fun tb : table =>
       occurrences p table_open
       + ((occurrences p "<tr>" + occurrences p "</tr>") * length tb
          + (occurrences p "<td>" + occurrences p "</td>")
            * sum_list (map (fun r : row => length r) tb)
          + (occurrences p "<pre>" + occurrences p "</pre>")
            * sum_list (map (fun r : row =>
                sum_list (map (fun c : cell => length c) r)) tb)
          + sum_list (map (fun r : row =>
              sum_list (map (fun c : cell =>
                sum_list (map (fun x => occurrences p (par_text x)) c)) r)) tb))
       + occurrences p "</table>")%nat).
  2:{ intros i tb. rewrite occurrences_wrapped;
        [|apply lt_headed_table_html|done].
      by rewrite occurrences_table_html. }
  generalize (occurrences p "<pre>") (occurrences p "</pre>")
    (occurrences p "<td>") (occurrences p "</td>")
    (occurrences p "<tr>") (occurrences p "</tr>")
    (occurrences p table_open) (occurrences p "</table>").
  intros o4 c4 o3 c3 o2 c2 o1 c1.
  induction d as [|tb d IH]; cbn [sum_list foldr map length]; [lia|].
  unfold sum_list in *. nia.
Qed.

Lemma lt_headed_body_html d : lt_headed (body_html d) = true.
Proof. apply lt_headed_concat. by apply Forall_imap_intro. Qed.

Lemma occurrences_html_of (d : doc) :
  occurrences p (html_of d) =
    (occurrences p "<html><body>" + occurrences p "</body></html>"
     + (occurrences p table_open + occurrences p "</table>") * n_tables d
     + (occurrences p "<tr>" + occurrences p "</tr>") * n_rows d
     + (occurrences p "<td>" + occurrences p "</td>") * n_cells d
     + (occurrences p "<pre>" + occurrences p "</pre>") * n_pars d
     + text_occurrences p d)%nat.
Proof.
  unfold html_of.
  rewrite occurrences_wrapped; [|apply lt_headed_body_html|done].
  rewrite occurrences_body_html. lia.
Qed.

(** The count of a tag-like [p] in the HTML map, from the counts of [p] in
    the tags themselves. *)
Lemma tag_count (k1 k2 k3 k4 : nat) (d : doc) :
  (occurrences p "<html><body>" + occurrences p "</body></html>" = 0)%nat ->
  (occurrences p table_open + occurrences p "</table>" = k1)%nat ->
  (occurrences p "<tr>" + occurrences p "</tr>" = k2)%nat ->
  (occurrences p "<td>" + occurrences p "</td>" = k3)%nat ->
  (occurrences p "<pre>" + occurrences p "</pre>" = k4)%nat ->
  occurrences p (html_of d) =
    (k1 * n_tables d + k2 * n_rows d + k3 * n_cells d + k4 * n_pars d
     + text_occurrences p d)%nat.
Proof.
  intros H0 <- <- <- <-. rewrite occurrences_html_of. lia.
Qed.
End Count.

(** ** Trees built in the store *)

Lemma alloc_all_owns ts :
  Forall (fun t => forall h, exists F,
    owns (alloc_tree t h).2 t (alloc_tree t h).1 F
    /\ (forall l, l ∈ F -> (length h <= l)%nat)
    /\ (length h <= length (alloc_tree t h).2)%nat
    /\ (forall l, (l < length h)%nat -> (alloc_tree t h).2 !! l = h !! l)) ts ->
  forall h, exists F,
    owns_all (alloc_all alloc_tree ts h).2 ts (alloc_all alloc_tree ts h).1 F
    /\ (forall l, l ∈ F -> (length h <= l)%nat)
    /\ (length h <= length (alloc_all alloc_tree ts h).2)%nat
    /\ (forall l, (l < length h)%nat ->
          (alloc_all alloc_tree ts h).2 !! l = h !! l).
Proof.
  induction 1 as [|t ts Ht _ IH]; intros h.
  - exists ∅. split; [constructor|]. set_solver.
  - simpl. destruct (Ht h) as (F1 & Hown1 & Hfresh1 & Hlen1 & Hold1).
    destruct (IH (alloc_tree t h).2) as (F2 & Hown2 & Hfresh2 & Hlen2 & Hold2).
    exists (F1 ∪ F2). split; [|split; [|split]].
    + constructor; [|done|].
      * eapply owns_frame; [done|]. intros l Hl. apply Hold2.
        by eapply owns_bound.
      * apply elem_of_disjoint. intros l Hl1 Hl2.
        pose proof (owns_bound _ _ _ _ _ Hown1 Hl1).
        specialize (Hfresh2 l Hl2). lia.
    + intros l [Hl|Hl]%elem_of_union; [by apply Hfresh1|].
      specialize (Hfresh2 l Hl). lia.
    + lia.
    + intros l Hl. rewrite Hold2 by lia. by apply Hold1.
Qed.

(** A tree built by [alloc_tree] is held without sharing, in new objects. *)
Lemma alloc_tree_owns t : forall h, exists F,
  owns (alloc_tree t h).2 t (alloc_tree t h).1 F
  /\ (forall l, l ∈ F -> (length h <= l)%nat)
  /\ (length h <= length (alloc_tree t h).2)%nat
  /\ (forall l, (l < length h)%nat -> (alloc_tree t h).2 !! l = h !! l).
Proof.
  induction t as [s|z|ts IH] using tree_ind_list; intros h.
  - exists ∅. split; [constructor|]. set_solver.
  - exists ∅. split; [constructor|]. set_solver.
  - destruct (alloc_all_owns ts IH h) as (F & Hown & Hfresh & Hlen & Hold).
    simpl. set (r := alloc_all alloc_tree ts h) in *.
    exists ({[length r.2]} ∪ F). split; [|split; [|split]].
    + apply (owns_list _ _ r.1).
      * rewrite lookup_app_r by lia. by rewrite Nat.sub_diag.
      * intros Hin. pose proof (proj2 (owns_bound_both _) _ _ _ Hown _ Hin). lia.
      * eapply owns_all_frame; [done|]. intros l Hl. apply lookup_app_l.
        by eapply (proj2 (owns_bound_both _)).
    + intros l [->%elem_of_singleton|Hl]%elem_of_union; [lia|by apply Hfresh].
    + rewrite length_app. simpl. lia.
    + intros l Hl. rewrite lookup_app_l by lia. by apply Hold.
Qed.

(** ** Where a paragraph stands in the HTML map *)

Lemma contains_refl s : contains s s.
Proof. exists ""%string, ""%string. by rewrite string_app_nil_r. Qed.





Lemma pre_in_pre X :
  occurrences "<pre>" ("<pre>" ++ X) =
    (occurrences "<pre>" "<pre>" + occurrences "<pre>" X)%nat.
Proof. simpl. by destruct X. Qed.

Lemma prefix_app (a b : string) : String.prefix a (a ++ b) = true.
Proof.
  induction a as [|c a IH]; [by destruct b|].
  rewrite append_String, prefix_cons. by destruct (ascii_dec c c).
Qed.



(** * The claims *)

Lemma enum_at_depth_record {X} (f : list nat * val -> X) h out tree depth :
  1 <= depth <= 5 ->
  enum_at_depth tree depth (record f) (h, out) =
    let r := enumerate_at_depth h tree (Z.to_nat depth) in
    (r.2, (h, out ++ map f r.1)).
Proof.
  intros Hd.
  rewrite (enum_at_depth_levels (Z.to_nat (depth - 1))) by done.
  rewrite enum_levels_record.
  by replace (S (Z.to_nat (depth - 1))) with (Z.to_nat depth) by lia.
Qed.

Lemma collect_enum_at_depth h tree depth :
  1 <= depth <= 5 ->
  collect (enum_at_depth tree depth) h =
    ((enumerate_at_depth h tree (Z.to_nat depth)).1,
     (enumerate_at_depth h tree (Z.to_nat depth)).2, h).
Proof.
  intros Hd. unfold collect. rewrite enum_at_depth_record by done.
  cbv zeta. cbn [fst snd app]. by rewrite map_id.
Qed.

Lemma iter_at_depth_valid {T} (tree : val) depth :
  1 <= depth <= 5 ->
  iter_at_depth (T := T) tree depth =
    Ok (fun yield => enum_at_depth tree depth (fun '(_, x) => yield x)).
Proof.
  intros Hd. unfold iter_at_depth.
  repeat (case_decide; [done|]). lia.
Qed.

Lemma collect_iter_at_depth h tree depth :
  1 <= depth <= 5 ->
  collect (fun yield => enum_at_depth tree depth (fun '(_, x) => yield x)) h =
    (map snd (enumerate_at_depth h tree (Z.to_nat depth)).1,
     (enumerate_at_depth h tree (Z.to_nat depth)).2, h).
Proof.
  intros Hd. unfold collect.
  rewrite (enum_at_depth_levels (Z.to_nat (depth - 1))) by done.
  rewrite (enum_levels_ext _ _ _ (record snd)) by (by intros [a x] s).
  rewrite enum_levels_record.
  by replace (S (Z.to_nat (depth - 1))) with (Z.to_nat depth) by lia.
Qed.

(** C2. For every tree and every depth outside 1..5: iterating over
    [enum_at_depth(tree, depth)] raises [ValueError] with the message that
    lists the depths 1 to 5 before anything is yielded (the consumer never
    runs and the state is untouched), and [iter_at_depth(tree, depth)] raises
    the same error when it is called. *)
Theorem invalid_depth_raises (T : Type) (h : heap) (tree : val) (depth : Z) :
  ~ (1 <= depth <= 5) ->
  collect (enum_at_depth tree depth) h =
    ([], Raise (ValueError "depth argument must be 1, 2, 3, 4, or 5"), h)
  /\ (forall (yield : list nat * val -> M T unit) (s : state T),
        enum_at_depth tree depth yield s =
          (Raise (ValueError "depth argument must be 1, 2, 3, 4, or 5"), s))
  /\ iter_at_depth (T := T) tree depth =
       Raise (ValueError "depth argument must be 1, 2, 3, 4, or 5").
Proof.
  intros Hd. split; [|split].
  - unfold collect. by rewrite enum_at_depth_invalid.
  - intros yield s. by rewrite enum_at_depth_invalid.
  - unfold iter_at_depth. repeat (case_decide; [lia|]). done.
Qed.

Lemma invalid_depth_raises_witness :
  ~ (1 <= 6 <= 5) /\
  collect (enum_at_depth (VList 0%nat) 6) [[VStr "a"]] =
    ([], Raise (ValueError "depth argument must be 1, 2, 3, 4, or 5"),
     [[VStr "a"]]).
Proof.
  split; [lia|].
  apply (invalid_depth_raises unit [[VStr "a"]] (VList 0%nat) 6). lia.
Defined.

(** C3. For the depths 1 to 5, what [enum_at_depth] yields is what the
    recursive definition of the spec gives ([enumerate_at_depth]), the
    addresses come out in strict lexicographic order, and on the fixture at
    depth 3 the five documented pairs are yielded in order. *)
Theorem enum_at_depth_recursive_definition (h : heap) (tree : val) (depth : Z) :
  1 <= depth <= 5 ->
  collect (enum_at_depth tree depth) h =
    ((enumerate_at_depth h tree (Z.to_nat depth)).1,
     (enumerate_at_depth h tree (Z.to_nat depth)).2, h)
  /\ StronglySorted lex_lt (map fst (collect (enum_at_depth tree depth) h).1.1)
  /\ (let r := alloc_tree fixture [] in
      let e := collect (enum_at_depth r.1 3) r.2 in
      e.1.2 = Ok tt /\
      map fst e.1.1 = map fst fixture_depth3 /\
      Forall2 (fun p q => represents r.2 q.2 p.2 = true) e.1.1 fixture_depth3).
Proof.
  intros Hd. split; [|split].
  - by apply collect_enum_at_depth.
  - rewrite collect_enum_at_depth by done. apply enumerate_at_depth_sorted.
  - vm_compute. split; [done|]. split; [done|]. repeat constructor.
Qed.

Lemma enum_at_depth_recursive_definition_witness :
  1 <= 2 <= 5 /\
  collect (enum_at_depth (VList 1%nat) 2) [[VStr "a"; VStr "b"]; [VList 0%nat; VList 0%nat]] =
    ([([0; 0], VStr "a"); ([0; 1], VStr "b");
      ([1; 0], VStr "a"); ([1; 1], VStr "b")]%nat, Ok tt,
     [[VStr "a"; VStr "b"]; [VList 0%nat; VList 0%nat]]).
Proof.
  split; [lia|].
  apply (enum_at_depth_recursive_definition
           [[VStr "a"; VStr "b"]; [VList 0%nat; VList 0%nat]] (VList 1%nat) 2). lia.
Defined.

(** C4. For the depths 1 to 5, [iter_at_depth(tree, depth)] returns a
    generator, and what it yields is the items of what
    [enum_at_depth(tree, depth)] yields: same order, same length, same end. *)
Theorem iter_at_depth_projection (h : heap) (tree : val) (depth : Z) :
  1 <= depth <= 5 ->
  exists g, iter_at_depth tree depth = Ok g /\
    let e := collect (enum_at_depth tree depth) h in
    collect g h = (map snd e.1.1, e.1.2, e.2) /\
    length (collect g h).1.1 = length e.1.1.
Proof.
  intros Hd. eexists. split; [by apply iter_at_depth_valid|].
  rewrite collect_iter_at_depth, collect_enum_at_depth by done.
  cbv zeta. cbn [fst snd]. split; [done|]. by rewrite length_map.
Qed.

Lemma iter_at_depth_projection_witness :
  1 <= 2 <= 5 /\
  exists g, iter_at_depth (VList 1%nat) 2 = Ok g /\
    let e := collect (enum_at_depth (VList 1%nat) 2)
               [[VStr "a"; VStr "b"]; [VList 0%nat; VList 0%nat]] in
    collect g [[VStr "a"; VStr "b"]; [VList 0%nat; VList 0%nat]] =
      (map snd e.1.1, e.1.2, e.2) /\
    length (collect g [[VStr "a"; VStr "b"]; [VList 0%nat; VList 0%nat]]).1.1 =
      length e.1.1.
Proof.
  split; [lia|].
  apply (iter_at_depth_projection
           [[VStr "a"; VStr "b"]; [VList 0%nat; VList 0%nat]] (VList 1%nat) 2). lia.
Defined.

(** C9. The named wrappers are the generic functions at the depths 1, 2, 3
    and 4: the same generator, hence the same values yielded by it on every
    store. *)
Theorem wrappers_are_aliases (T : Type) (tables : val) :
  iter_tables (T := T) tables = iter_at_depth tables 1
  /\ iter_rows (T := T) tables = iter_at_depth tables 2
  /\ iter_cells (T := T) tables = iter_at_depth tables 3
  /\ iter_paragraphs (T := T) tables = iter_at_depth tables 4
  /\ enum_tables (T := T) tables = enum_at_depth tables 1
  /\ enum_rows (T := T) tables = enum_at_depth tables 2
  /\ enum_cells (T := T) tables = enum_at_depth tables 3
  /\ enum_paragraphs (T := T) tables = enum_at_depth tables 4
  /\ (forall h,
        collect (enum_tables tables) h = collect (enum_at_depth tables 1) h
        /\ collect (enum_rows tables) h = collect (enum_at_depth tables 2) h
        /\ collect (enum_cells tables) h = collect (enum_at_depth tables 3) h
        /\ collect (enum_paragraphs tables) h =
             collect (enum_at_depth tables 4) h).
Proof. repeat split. Qed.

(** C10. On an empty top-level list and for the depths 1 to 5, both
    functions yield nothing and end without an error. *)
Theorem empty_sequence_yields_nothing (h : heap) (l : loc) (depth : Z) :
  h !! l = Some [] ->
  1 <= depth <= 5 ->
  collect (enum_at_depth (VList l) depth) h = ([], Ok tt, h)
  /\ exists g, iter_at_depth (VList l) depth = Ok g /\
       collect g h = ([], Ok tt, h).
Proof.
  intros Hl Hd.
  assert (enumerate_at_depth h (VList l) (Z.to_nat depth) = ([], Ok tt)) as He.
  { destruct (Z.to_nat depth) as [|[|d]] eqn:Hn; [lia|..];
      simpl; by rewrite Hl. }
  split.
  - by rewrite collect_enum_at_depth, He.
  - eexists. split; [by apply iter_at_depth_valid|].
    by rewrite collect_iter_at_depth, He.
Qed.

Lemma empty_sequence_yields_nothing_witness :
  [[]] !! 0%nat = Some ([] : list val) /\ 1 <= 3 <= 5 /\
  collect (enum_at_depth (VList 0%nat) 3) [[]] = ([], Ok tt, [[]]).
Proof.
  split; [done|]. split; [lia|].
  apply (empty_sequence_yields_nothing [[]] 0%nat 3); [done|lia].
Defined.

(** C1, as the code has it.  With the target depth 3 of the docstring the
    node reached at depth 3 holds the two paragraphs, which are lists, and
    [str.join] raises [TypeError]; no recursion budget makes the call
    return. *)
Lemma join_leaves_depth3_raises :
  (let r := alloc_tree runs_fixture [] in
   (join_leaves 1000 "" r.1 3 0 (r.2, tt)).1 = Raise TypeError)
  /\ ~ (exists fuel v s,
          let r := alloc_tree runs_fixture [] in
          join_leaves fuel "" r.1 3 0 (r.2, tt) = (Ok v, s)).
Proof.
  split; [by vm_compute|].
  intros (fuel & v & s & H).
  do 4 (destruct fuel as [|fuel]; [by vm_compute in H|]).
  by vm_compute in H.
Qed.

(** C1, amended.  With target depth 4 (the depth of the paragraphs) and
    the separator [""], [join_leaves] on the docstring's tree returns
    [[[[["run1run2", "run3run4"]]]]]; the lists of the input are left as they
    were. *)
Theorem join_leaves_runs (fuel : nat) :
  (5 <= fuel)%nat ->
  let r := alloc_tree runs_fixture [] in
  exists v h',
    join_leaves fuel "" r.1 4 0 (r.2, tt) = (Ok v, (h', tt))
    /\ represents h' joined_fixture v = true
    /\ take (length r.2) h' = r.2
    /\ represents h' runs_fixture r.1 = true.
Proof.
  intros Hfuel.
  do 5 (destruct fuel as [|fuel]; [lia|]).
  vm_compute. eexists _, _. repeat split.
Qed.

Lemma join_leaves_runs_witness :
  (5 <= 5)%nat /\
  let r := alloc_tree runs_fixture [] in
  exists v h',
    join_leaves 5 "" r.1 4 0 (r.2, tt) = (Ok v, (h', tt))
    /\ represents h' joined_fixture v = true
    /\ take (length r.2) h' = r.2
    /\ represents h' runs_fixture r.1 = true.
Proof.
  split; [lia|]. apply (join_leaves_runs 5). lia.
Defined.



(** C5. Whatever the input and however the call ends, [get_html_map] leaves
    every list object that existed before the call as it was (it writes only
    into the objects of its deep copy), so a tree read from the argument
    before the call is read from it unchanged after the call; the same holds
    for [join_leaves], which only builds new lists, and iterating over
    [enum_at_depth] or [iter_at_depth] leaves the whole store as it is. *)
Theorem input_tree_not_mutated (T : Type) (fuel : nat) (tables : val)
    (t : tree) (s : state T) :
  represents s.1 t tables = true ->
  (let r := get_html_map fuel tables s in
   take (length s.1) r.2.1 = s.1 /\ represents r.2.1 t tables = true)
  /\ (forall joint to_depth _depth,
        let r := join_leaves fuel joint tables to_depth _depth s in
        take (length s.1) r.2.1 = s.1 /\ represents r.2.1 t tables = true)
  /\ (forall depth,
        (collect (enum_at_depth tables depth) s.1).2 = s.1
        /\ forall g, iter_at_depth tables depth = Ok g ->
             (collect g s.1).2 = s.1).
Proof.
  intros Ht.
  assert (forall A (m : M T A), (forall R, confined R m (fun _ => True)) ->
    take (length s.1) (m s).2.1 = s.1 /\ represents (m s).2.1 t tables = true)
    as Hframe.
  { intros A m Hm. pose proof (confined_unchanged m s Hm) as Htake.
    split; [done|]. by eapply represents_unchanged. }
  split; [|split].
  - apply Hframe. intros R. apply confined_get_html_map.
  - intros joint to_depth _depth. apply Hframe. intros R.
    eapply confined_weaken; [apply confined_join_leaves|done].
  - intros depth. destruct (decide (1 <= depth <= 5)) as [Hd|Hd].
    + split; [by rewrite collect_enum_at_depth|].
      intros g. rewrite iter_at_depth_valid by done. intros [= <-].
      by rewrite collect_iter_at_depth.
    + split.
      * unfold collect. by rewrite enum_at_depth_invalid.
      * intros g Hg. unfold iter_at_depth in Hg.
        repeat (case_decide; [lia|]). done.
Qed.

Lemma input_tree_not_mutated_witness :
  let r := alloc_tree runs_fixture [] in
  represents r.2 runs_fixture r.1 = true /\
  take (length r.2) (get_html_map 10 r.1 (r.2, tt)).2.1 = r.2 /\
  represents (get_html_map 10 r.1 (r.2, tt)).2.1 runs_fixture r.1 = true.
Proof.
  split; [by vm_compute|].
  exact (proj1 (input_tree_not_mutated unit 10 (alloc_tree runs_fixture []).1
                  runs_fixture ((alloc_tree runs_fixture []).2, tt) eq_refl)).
Defined.

Ltac prove_owns :=
  repeat (first
    [ apply owns_str
    | apply owns_int
    | apply owns_nil
    | eapply owns_list; [reflexivity| |]; cycle 1
    | eapply owns_cons; [ | |]
    | set_solver ]).

(** C6, as the code has it.  The text of a paragraph is copied into the
    map as it is: for the document whose only paragraph is the run ["<pre>"]
    the map has two occurrences of ["<pre>"], for one paragraph. *)
Lemma html_map_counts_counterexample :
  let r := alloc_tree (tree_of_doc pre_doc) [] in
  exists out s',
    get_html_map 10 r.1 (r.2, tt) = (Ok out, s')
    /\ n_pars pre_doc = 1%nat
    /\ occurrences "<pre>" out = 2%nat.
Proof. vm_compute. eexists _, _. repeat split. Qed.

(** C6, amended.  For a document held in the store without sharing,
    [get_html_map] returns a string that begins with [<html><body>], ends
    with [</body></html>], and in which ["<table"], ["<tr>"], ["<td>"] and
    ["<pre>"] occur as many times as there are tables, rows, cells and
    paragraphs, plus the times they occur inside the paragraph texts: exactly
    N, R, C and P times when no paragraph text contains ["<"]. *)
Theorem html_map_tag_counts (T : Type) (fuel : nat) (d : doc) (tables : val)
    (F : gset loc) (h : heap) (u : T) :
  owns h (tree_of_doc d) tables F -> (6 <= fuel)%nat ->
  exists out h',
    get_html_map fuel tables (h, u) = (Ok out, (h', u))
    /\ occurrences "<table" out = (n_tables d + text_occurrences "<table" d)%nat
    /\ occurrences "<tr>" out = (n_rows d + text_occurrences "<tr>" d)%nat
    /\ occurrences "<td>" out = (n_cells d + text_occurrences "<td>" d)%nat
    /\ occurrences "<pre>" out = (n_pars d + text_occurrences "<pre>" d)%nat
    /\ String.prefix "<html><body>" out = true
    /\ ends_with out "</body></html>"
    /\ (plain_doc d ->
        occurrences "<table" out = n_tables d
        /\ occurrences "<tr>" out = n_rows d
        /\ occurrences "<td>" out = n_cells d
        /\ occurrences "<pre>" out = n_pars d).
Proof.
  intros Hown Hfuel.
  destruct (get_html_map_doc fuel d tables F h u Hown Hfuel) as (h' & Hrun & _).
  exists (html_of d), h'. split; [done|].
  assert (occurrences "<table" (html_of d) =
          (n_tables d + text_occurrences "<table" d)%nat) as H1.
  { rewrite (tag_count "<table" eq_refl (fun X => eq_refl) 1 0 0 0 d) by done.
    lia. }
  assert (occurrences "<tr>" (html_of d) =
          (n_rows d + text_occurrences "<tr>" d)%nat) as H2.
  { rewrite (tag_count "<tr>" eq_refl (fun X => eq_refl) 0 1 0 0 d) by done.
    lia. }
  assert (occurrences "<td>" (html_of d) =
          (n_cells d + text_occurrences "<td>" d)%nat) as H3.
  { rewrite (tag_count "<td>" eq_refl (fun X => eq_refl) 0 0 1 0 d) by done.
    lia. }
  assert (occurrences "<pre>" (html_of d) =
          (n_pars d + text_occurrences "<pre>" d)%nat) as H4.
  { rewrite (tag_count "<pre>" eq_refl pre_in_pre 0 0 0 1 d) by done.
    lia. }
  repeat (split; [done|]). split; [|split].
  - apply prefix_app.
  - unfold html_of. exists ("<html><body>" ++ body_html d)%string.
    by rewrite string_app_assoc.
  - intros Hplain. rewrite H1, H2, H3, H4.
    rewrite (text_occurrences_plain "<table" eq_refl d Hplain),
      (text_occurrences_plain "<tr>" eq_refl d Hplain),
      (text_occurrences_plain "<td>" eq_refl d Hplain),
      (text_occurrences_plain "<pre>" eq_refl d Hplain). lia.
Qed.

Lemma html_map_tag_counts_witness :
  let r := alloc_tree (tree_of_doc small_doc) [] in
  exists F,
    owns r.2 (tree_of_doc small_doc) r.1 F /\ (6 <= 6)%nat /\
    exists out h',
      get_html_map 6 r.1 (r.2, tt) = (Ok out, (h', tt))
      /\ occurrences "<tr>" out = 1%nat.
Proof.
  cbv zeta.
  assert (exists F, owns (alloc_tree (tree_of_doc small_doc) []).2
                      (tree_of_doc small_doc)
                      (alloc_tree (tree_of_doc small_doc) []).1 F) as [F Hown].
  { vm_compute. eexists. prove_owns. }
  exists F. split; [exact Hown|]. split; [lia|].
  destruct (html_map_tag_counts unit 6 small_doc _ _ _ tt Hown (le_n 6))
    as (out & h' & Hrun & _ & H2 & _).
  exists out, h'. split; [exact Hrun|]. rewrite H2. reflexivity.
Defined.




(** * Lemmas for the further properties *)

(** ** Trees read from the store *)

Lemma represents_TList h ts v :
  represents h (TList ts) v = true <->
  exists l vs, v = VList l /\ h !! l = Some vs
    /\ Forall2 (fun t x => represents h t x = true) ts vs.
Proof.
  split.
  - destruct v as [| |l]; simpl; try done.
    destruct (h !! l) as [vs|] eqn:Hl; [|done].
    intros H. exists l, vs. split; [done|]. split; [done|].
    clear Hl. revert vs H. induction ts as [|t ts IH]; intros [|x vs] H; try done.
    apply andb_prop in H as [H1 H2]. constructor; [done|]. by apply IH.
  - intros (l & vs & -> & Hl & H). simpl. rewrite Hl. clear Hl.
    induction H as [|t x ts vs H1 _ IH]; [done|].
    apply andb_true_intro. by split.
Qed.

Lemma represents_TStr h s v : represents h (TStr s) v = true <-> v = VStr s.
Proof.
  destruct v as [s'| |]; simpl; try (split; done).
  rewrite bool_decide_eq_true. split; congruence.
Qed.

Lemma represents_TInt h z v : represents h (TInt z) v = true <-> v = VInt z.
Proof.
  destruct v as [|z'|]; simpl; try (split; done).
  rewrite bool_decide_eq_true. split; congruence.
Qed.

Lemma represents_chars h ss :
  Forall2 (fun t x => represents h t x = true) (map TStr ss) (map VStr ss).
Proof.
  induction ss as [|s ss IH]; constructor; [|done]. by apply represents_TStr.
Qed.

(** The elements of a node that can be iterated over are its children. *)
Lemma represents_elements h t v :
  represents h t v = true -> is_int t = false ->
  exists vs, elements h v = Ok vs
    /\ Forall2 (fun c x => represents h c x = true) (children t) vs.
Proof.
  destruct t as [s|z|ts]; intros H Hint; [|done|].
  - apply represents_TStr in H as ->. eexists. split; [done|].
    apply represents_chars.
  - apply represents_TList in H as (l & vs & -> & Hl & H).
    exists vs. simpl. by rewrite Hl.
Qed.

Lemma represents_app h hx t v :
  represents h t v = true -> represents (h ++ hx) t v = true.
Proof. apply represents_unchanged. by rewrite take_app_length. Qed.

(** ** Addresses are index paths *)

Lemma py_getitem_elements {T} h v i (u : T) :
  py_getitem v i (h, u) =
    (match elements h v with
     | Ok xs => match xs !! i with Some x => Ok x | None => Raise IndexError end
     | Raise e => Raise e
     | Undef => Undef
     end, (h, u)).
Proof.
  destruct v as [s|z|l]; simpl; [|done|].
  - rewrite list_lookup_fmap. by destruct (chars s !! i).
  - unfold bind, load. simpl. destruct (h !! l) as [vs|]; [|done].
    by destruct (vs !! i).
Qed.

Lemma seq_traces_elem {Y} (ts : list (list Y * outcome unit)) y :
  y ∈ (seq_traces ts).1 -> exists i t, ts !! i = Some t /\ y ∈ t.1.
Proof.
  induction ts as [|[ys r] ts IH]; simpl; [by intros ?%elem_of_nil|].
  destruct r as [[]|e|]; simpl.
  - intros [Hy|Hy]%elem_of_app.
    + by exists 0%nat, (ys, Ok tt).
    + destruct (IH Hy) as (i & t & Hi & Ht). by exists (S i), t.
  - intros Hy. by exists 0%nat, (ys, Raise e).
  - intros Hy. by exists 0%nat, (ys, Undef).
Qed.

Lemma seq_traces_ok {Y} (ts : list (list Y * outcome unit)) :
  (seq_traces ts).2 = Ok tt ->
  Forall (fun t => t.2 = Ok tt) ts /\ (seq_traces ts).1 = concat (map fst ts).
Proof.
  induction ts as [|[ys r] ts IH]; simpl; [done|].
  destruct r as [[]|e|]; simpl; [|done..].
  intros H. destruct (IH H) as [H1 H2]. split; [by constructor|]. by rewrite H2.
Qed.

Lemma enumerate_at_depth_sound {T} h (u : T) : forall n v a x,
  (a, x) ∈ (enumerate_at_depth h v n).1 ->
  length a = n /\ get_at v a (h, u) = (Ok x, (h, u)).
Proof.
  induction n as [|n IH]; intros v a x; [by intros ?%elem_of_nil|].
  assert (enumerate_at_depth h v (S n) =
    match elements h v with
    | Ok xs =>
        match n with
        | O => (imap (fun i item => ([i], item)) xs, Ok tt)
        | S _ =>
            seq_traces (imap (fun i x =>
              let r := enumerate_at_depth h x n in
              (map (fun '(sub_address, item) => (i :: sub_address, item)) r.1,
               r.2)) xs)
        end
    | Raise e => ([], Raise e)
    | Undef => ([], Undef)
    end) as -> by done.
  destruct (elements h v) as [xs|e|] eqn:Hel;
    [|by intros ?%elem_of_nil..].
  destruct n as [|n].
  - cbn [fst]. intros (i & y & [= -> ->] & Hi)%elem_of_lookup_imap.
    split; [done|]. simpl. unfold bind.
    by rewrite py_getitem_elements, Hel, Hi.
  - intros (i & t & Hi & Ht)%seq_traces_elem.
    apply list_lookup_imap_Some in Hi as (y & Hy & ->).
    cbv zeta in Ht. cbn [fst] in Ht.
    apply list_elem_of_fmap in Ht as ([b z] & [= -> ->] & Hb).
    destruct (IH y b z Hb) as [Hlen Hget].
    split; [simpl; by rewrite Hlen|].
    simpl. unfold bind. by rewrite py_getitem_elements, Hel, Hy.
Qed.

Lemma elem_of_concat_2 {A} (x : A) l ls : x ∈ l -> l ∈ ls -> x ∈ concat ls.
Proof.
  intros Hx. induction 1 as [l ls|l l' ls _ IH]; simpl; apply elem_of_app; auto.
Qed.

Lemma enumerate_at_depth_complete {T} h (u : T) : forall n v a x,
  (enumerate_at_depth h v n).2 = Ok tt -> length a = n ->
  get_at v a (h, u) = (Ok x, (h, u)) ->
  (a, x) ∈ (enumerate_at_depth h v n).1.
Proof.
  induction n as [|n IH]; intros v a x; [done|].
  assert (enumerate_at_depth h v (S n) =
    match elements h v with
    | Ok xs =>
        match n with
        | O => (imap (fun i item => ([i], item)) xs, Ok tt)
        | S _ =>
            seq_traces (imap (fun i x =>
              let r := enumerate_at_depth h x n in
              (map (fun '(sub_address, item) => (i :: sub_address, item)) r.1,
               r.2)) xs)
        end
    | Raise e => ([], Raise e)
    | Undef => ([], Undef)
    end) as -> by done.
  destruct a as [|i a]; [done|]. intros Hok [= Hlen].
  simpl. unfold bind. rewrite py_getitem_elements.
  destruct (elements h v) as [xs|e|] eqn:Hel; [|done..].
  destruct (xs !! i) as [y|] eqn:Hy; [|done]. intros Hget.
  destruct n as [|n].
  - destruct a; [|done]. injection Hget as <-.
    cbn [fst]. apply elem_of_lookup_imap. by exists i, y.
  - apply seq_traces_ok in Hok as [Hall Heq]. cbv zeta in Hall, Heq |- *.
    rewrite Heq.
    assert ((enumerate_at_depth h y (S n)).2 = Ok tt) as Hy_ok.
    { eapply Forall_lookup_1 in Hall;
        [|apply list_lookup_imap_Some; by exists y]. done. }
    apply (elem_of_concat_2 _
      (map (fun '(sub_address, item) => (i :: sub_address, item))
         (enumerate_at_depth h y (S n)).1)).
    + apply list_elem_of_fmap. exists (a, x). split; [done|]. by apply IH.
    + apply list_elem_of_fmap. eexists (_, _). split; [done|].
      apply list_elem_of_lookup. exists i.
      apply list_lookup_imap_Some. by exists y.
Qed.

Lemma lex_lt_irrefl a : ~ lex_lt a a.
Proof. induction a as [|i a IH]; simpl; [tauto|]. intros [?|[_ ?]]; [lia|by apply IH]. Qed.

Lemma StronglySorted_NoDup {A} (R : A -> A -> Prop) (l : list A) :
  (forall x, ~ R x x) -> StronglySorted R l -> NoDup l.
Proof.
  intros Hirr. induction 1 as [|x l _ IH Hx]; constructor; [|done].
  intros Hin. eapply Forall_forall in Hx; [|done]. by eapply Hirr.
Qed.

(** ** Levels of the enumeration put together *)

Lemma enum_levels_compose {T} n1 :
  forall n2 v (yield : list nat * val -> M T unit) s,
  enum_levels (n1 + S n2) v yield s =
    enum_levels n1 v (fun '(a, x) =>
      enum_levels n2 x (fun '(b, y) => yield (a ++ b, y))) s.
Proof.
  induction n1 as [|n1 IH]; intros n2 v yield s; simpl.
  - apply for_each_ext. intros i x s'. apply enum_levels_ext. by intros [b y] s''.
  - apply for_each_ext. intros i x s'. rewrite IH. apply enum_levels_ext.
    intros [a x'] s''. apply enum_levels_ext. by intros [b y] s3.
Qed.

Lemma enum_at_depth_split {T} (tree : val) (d1 d2 : Z)
    (yield : list nat * val -> M T unit) (s : state T) :
  1 <= d1 -> 1 <= d2 -> d1 + d2 <= 5 ->
  enum_at_depth tree (d1 + d2) yield s =
    enum_at_depth tree d1 (fun '(a, x) =>
      enum_at_depth x d2 (fun '(b, y) => yield (a ++ b, y))) s.
Proof.
  intros H1 H2 H12.
  rewrite (enum_at_depth_levels (Z.to_nat (d1 - 1) + S (Z.to_nat (d2 - 1))))
    by lia.
  rewrite enum_levels_compose.
  rewrite (enum_at_depth_levels (Z.to_nat (d1 - 1)) tree d1) by lia.
  apply enum_levels_ext. intros [a x] s'.
  by rewrite (enum_at_depth_levels (Z.to_nat (d2 - 1)) x d2) by lia.
Qed.

(** ** Strings and integers met by the enumeration *)

Lemma chars_char s c : c ∈ chars s -> chars c = [c].
Proof.
  induction s as [|a s IH]; simpl; [by intros ?%elem_of_nil|].
  intros [->|Hc]%elem_of_cons; [done|]. by apply IH.
Qed.

Lemma enumerate_at_depth_string h : forall n s,
  enumerate_at_depth h (VStr s) (S n) =
    (imap (fun i c => (i :: replicate n 0%nat, VStr c)) (chars s), Ok tt).
Proof.
  induction n as [|n IH]; intros s.
  - simpl. f_equal. exact (imap_fmap (fun i item => ([i], item)) VStr (chars s)).
  - assert (enumerate_at_depth h (VStr s) (S (S n)) =
      seq_traces (imap (fun i x =>
        let r := enumerate_at_depth h x (S n) in
        (map (fun '(sub_address, item) => (i :: sub_address, item)) r.1, r.2))
        (map VStr (chars s)))) as -> by done.
    rewrite (imap_fmap _ VStr (chars s)).
    rewrite (imap_ext _
      (fun i c => ([(i :: replicate (S n) 0%nat, VStr c)], Ok tt)) (chars s)).
    + by rewrite seq_traces_singletons.
    + intros i c Hc. cbv zeta. unfold compose. rewrite IH.
      rewrite (chars_char s c) by (by eapply list_elem_of_lookup_2). done.
Qed.

Lemma enumerate_at_depth_int h z n :
  enumerate_at_depth h (VInt z) (S n) = ([], Raise TypeError).
Proof. done. Qed.

(** ** The items of the enumeration are the nodes of the tree *)

Lemma enumerate_at_depth_items h n v :
  (map snd (enumerate_at_depth h v (S (S n))).1,
   (enumerate_at_depth h v (S (S n))).2) =
    match elements h v with
    | Ok vs =>
        seq_traces (map (fun x =>
          (map snd (enumerate_at_depth h x (S n)).1,
           (enumerate_at_depth h x (S n)).2)) vs)
    | Raise e => ([], Raise e)
    | Undef => ([], Undef)
    end.
Proof.
  assert (enumerate_at_depth h v (S (S n)) =
    match elements h v with
    | Ok xs =>
        seq_traces (imap (fun i x =>
          let r := enumerate_at_depth h x (S n) in
          (map (fun '(sub_address, item) => (i :: sub_address, item)) r.1,
           r.2)) xs)
    | Raise e => ([], Raise e)
    | Undef => ([], Undef)
    end) as -> by done.
  destruct (elements h v) as [vs|e|]; [|done..].
  rewrite <- (seq_traces_map snd). f_equal.
  change (map ?f (imap ?g vs)) with (f <$> imap g vs).
  rewrite fmap_imap. cbv zeta. unfold compose. cbn [fst snd].
  rewrite <- (imap_const _ vs). apply imap_ext. intros i x _. unfold const.
  f_equal. rewrite map_map. apply map_ext. by intros [a y].
Qed.

Lemma seq_traces_nodes {X C} (R : X -> C -> Prop)
    (G : val -> list X * outcome unit) (ok : tree -> bool)
    (nodes : tree -> list C) (cs : list tree) (vs : list val) :
  Forall2 (fun c x =>
    (G x).2 = (if ok c then Ok tt else Raise TypeError)
    /\ (ok c = true -> Forall2 R (G x).1 (nodes c))) cs vs ->
  (seq_traces (map G vs)).2 = (if forallb ok cs then Ok tt else Raise TypeError)
  /\ (forallb ok cs = true ->
      Forall2 R (seq_traces (map G vs)).1 (concat (map nodes cs))).
Proof.
  induction 1 as [|c x cs vs [Hend Hnodes] _ [IH1 IH2]]; [done|].
  simpl. destruct (G x) as [ys r]. simpl in *. subst r.
  destruct (ok c); simpl; [|done]. split; [done|].
  intros Hcs. apply Forall2_app; auto.
Qed.

Lemma enumerate_at_depth_nodes h : forall n t v,
  represents h t v = true ->
  (enumerate_at_depth h v (S n)).2 =
    (if iterable n t then Ok tt else Raise TypeError)
  /\ (iterable n t = true ->
      Forall2 (fun x c => represents h c x = true)
        (map snd (enumerate_at_depth h v (S n)).1) (nodes_at n t)).
Proof.
  induction n as [|n IH]; intros t v Hrep.
  - destruct (is_int t) eqn:Hint.
    + destruct t as [|z|]; try done. apply represents_TInt in Hrep as ->. done.
    + destruct (represents_elements h t v Hrep Hint) as (vs & Hel & Hvs).
      simpl. rewrite Hel, Hint. simpl. split; [done|]. intros _.
      change (map snd (imap ?g vs)) with (snd <$> imap g vs).
      rewrite fmap_imap. unfold compose. simpl.
      rewrite (imap_const (fun x : val => x)), list_fmap_id.
      by apply Forall2_flip.
  - pose proof (enumerate_at_depth_items h n v) as Hitems.
    destruct (is_int t) eqn:Hint.
    + destruct t as [|z|]; try done. apply represents_TInt in Hrep as ->. done.
    + destruct (represents_elements h t v Hrep Hint) as (vs & Hel & Hvs).
      rewrite Hel in Hitems.
      assert (iterable (S n) t = forallb (iterable n) (children t)) as ->
        by (simpl; by rewrite Hint).
      simpl nodes_at.
      pose proof (f_equal fst Hitems) as H1.
      pose proof (f_equal snd Hitems) as H2.
      cbn [fst snd] in H1, H2. rewrite H1, H2. clear Hitems H1 H2 Hel Hrep Hint.
      apply (seq_traces_nodes (fun x c => represents h c x = true)
               (fun x => (map snd (enumerate_at_depth h x (S n)).1,
                          (enumerate_at_depth h x (S n)).2))).
      eapply Forall2_impl; [exact Hvs|]. intros c x Hc. by apply IH.
Qed.

(** ** The nodes of a document *)

Lemma forallb_intro {A} (f : A -> bool) (xs : list A) :
  Forall (fun x => f x = true) xs -> forallb f xs = true.
Proof. induction 1 as [|x xs Hx _ IH]; simpl; [done|]. by rewrite Hx. Qed.

Lemma forallb_elim {A} (f : A -> bool) (xs : list A) :
  forallb f xs = true -> Forall (fun x => f x = true) xs.
Proof.
  induction xs as [|x xs IH]; simpl; [by constructor|].
  intros [H1 H2]%andb_prop. constructor; auto.
Qed.

Lemma lists_to_iterable (good : tree -> Prop) : forall n t,
  lists_to n good t -> iterable n t = true.
Proof.
  induction n as [|n IH]; intros [s|z|ts]; simpl; try done.
  intros Hts. apply forallb_intro.
  eapply Forall_impl; [exact Hts|]. intros c. apply IH.
Qed.

Lemma nodes_at_list n {A} (f : A -> tree) (xs : list A) :
  nodes_at (S n) (TList (map f xs)) = concat (map (fun x => nodes_at n (f x)) xs).
Proof. simpl. by rewrite map_map. Qed.

Lemma length_concat_map {A B} (f : A -> list B) (xs : list A) :
  length (concat (map f xs)) = sum_list (map (fun x => length (f x)) xs).
Proof.
  induction xs as [|x xs IH]; simpl; [done|]. by rewrite length_app, IH.
Qed.

Lemma concat_map_concat {A} (l : list (list (list A))) :
  concat (map (@concat A) l) = concat (concat l).
Proof.
  induction l as [|x l IH]; simpl; [done|]. by rewrite List.concat_app, IH.
Qed.

Lemma tree_of_doc_counts d :
  length (nodes_at 0 (tree_of_doc d)) = n_tables d
  /\ length (nodes_at 1 (tree_of_doc d)) = n_rows d
  /\ length (nodes_at 2 (tree_of_doc d)) = n_cells d
  /\ length (nodes_at 3 (tree_of_doc d)) = n_pars d.
Proof.
  unfold tree_of_doc, n_tables, n_rows, n_cells, n_pars.
  split; [simpl; by rewrite length_map|].
  rewrite !nodes_at_list, !length_concat_map.
  split; [|split].
  - f_equal. apply map_ext. intros tb. simpl. by rewrite length_map.
  - f_equal. apply map_ext. intros tb.
    rewrite nodes_at_list, length_concat_map. f_equal. apply map_ext.
    intros r. simpl. by rewrite length_map.
  - f_equal. apply map_ext. intros tb.
    rewrite nodes_at_list, length_concat_map. f_equal. apply map_ext.
    intros r. rewrite nodes_at_list, length_concat_map. f_equal. apply map_ext.
    intros c. simpl. by rewrite length_map.
Qed.

Lemma concat_map_map {A B C} (g : B -> C) (k : A -> list B) (xs : list A) :
  concat (map (fun x => map g (k x)) xs) = map g (concat (map k xs)).
Proof. by rewrite concat_map, map_map. Qed.

Lemma tree_of_doc_paragraphs d :
  nodes_at 3 (tree_of_doc d) = map tree_of_par (concat (concat (concat d))).
Proof.
  assert (forall r : row,
    nodes_at 1 (TList (map (fun c : cell => TList (map tree_of_par c)) r)) =
      map tree_of_par (concat r)) as Hrow.
  { intros r. rewrite nodes_at_list.
    rewrite (concat_map_map tree_of_par (fun c : cell => c)). by rewrite map_id. }
  assert (forall tb : table,
    nodes_at 2 (TList (map (fun r : row =>
      TList (map (fun c : cell => TList (map tree_of_par c)) r)) tb)) =
      map tree_of_par (concat (concat tb))) as Htable.
  { intros tb. rewrite nodes_at_list.
    rewrite (map_ext _ (fun r : row => map tree_of_par (concat r)))
      by (intros r; apply Hrow).
    by rewrite concat_map_map, concat_map_concat. }
  unfold tree_of_doc. rewrite nodes_at_list.
  rewrite (map_ext _ (fun tb : table => map tree_of_par (concat (concat tb))))
    by (intros tb; apply Htable).
  rewrite concat_map_map. f_equal.
  rewrite <- (concat_map_concat (concat d)), concat_map, <- concat_map_concat.
  rewrite map_map. f_equal. apply map_ext. intros tb.
  by rewrite concat_map_concat.
Qed.

Lemma tree_of_doc_iterable d n : (n <= 3)%nat -> iterable n (tree_of_doc d) = true.
Proof.
  intros Hn. pose proof (tree_of_doc_shape d) as H3.
  assert (forall good k t, lists_to (S k) good t -> lists_to k (fun _ => True) t)
    as Hdown.
  { intros good k. induction k as [|k IH]; intros [s|z|ts]; simpl; try done.
    - intros _. by apply Forall_forall.
    - intros H. eapply Forall_impl; [exact H|]. intros c. apply IH. }
  destruct n as [|[|[|[|n]]]]; [..|lia].
  - done.
  - eapply lists_to_iterable, Hdown, Hdown. exact H3.
  - eapply lists_to_iterable, Hdown. exact H3.
  - eapply lists_to_iterable. exact H3.
Qed.

Lemma enum_at_depth_doc h d tables n :
  represents h (tree_of_doc d) tables = true -> (n <= 3)%nat ->
  let e := collect (enum_at_depth tables (Z.of_nat (S n))) h in
  e.1.2 = Ok tt
  /\ Forall2 (fun x c => represents h c x = true)
       (map snd e.1.1) (nodes_at n (tree_of_doc d)).
Proof.
  intros Hrep Hn. cbv zeta. rewrite collect_enum_at_depth by lia.
  cbn [fst snd]. rewrite Nat2Z.id.
  destruct (enumerate_at_depth_nodes h n _ _ Hrep) as [Hend Hnodes].
  rewrite tree_of_doc_iterable in Hend, Hnodes by done. auto.
Qed.

(** ** Code that only adds objects to the store *)

Section Appends.
Context {T : Type}.
#[local] Abbreviation M := (M T).

Lemma appends_read_only {A} (m : M A) : read_only m -> appends m.
Proof.
  intros Hm s. exists []. rewrite Hm, app_nil_r. by destruct s.
Qed.

Lemma appends_ret {A} (a : A) : appends (ret a : M A).
Proof. apply appends_read_only, read_only_ret. Qed.

Lemma appends_raise {A} e : appends (raise e : M A).
Proof. apply appends_read_only, read_only_raise. Qed.

Lemma appends_alloc vs : appends (alloc vs : M loc).
Proof. intros s. by exists [vs]. Qed.

Lemma appends_bind {A B} (m : M A) (f : A -> M B) :
  appends m -> (forall a, appends (f a)) -> appends (bind m f).
Proof.
  intros Hm Hf s. unfold bind. destruct (Hm s) as [h2 H2].
  destruct (m s) as [[a|e|] s']; simpl in H2; subst s'; [|by exists h2..].
  destruct (Hf a (s.1 ++ h2, s.2)) as [h3 H3]. exists (h2 ++ h3).
  rewrite H3. simpl. by rewrite app_assoc.
Qed.

Lemma appends_for_list {A} l (body : nat -> val -> A -> M A) :
  (forall i x acc, appends (body i x acc)) ->
  forall n i acc, appends (for_list n l i body acc).
Proof.
  intros Hbody. induction n as [|n IH]; intros i acc; simpl; [apply appends_ret|].
  apply appends_bind; [apply appends_read_only, read_only_load|].
  intros vs. destruct (vs !! i) as [x|]; [|apply appends_ret].
  apply appends_bind; [apply Hbody|]. intros acc'. apply IH.
Qed.

Lemma appends_for_items {A} (body : nat -> val -> A -> M A) :
  (forall i x acc, appends (body i x acc)) ->
  forall xs i acc, appends (for_items xs i body acc).
Proof.
  intros Hbody. induction xs as [|x xs IH]; intros i acc; simpl;
    [apply appends_ret|].
  apply appends_bind; [apply Hbody|]. intros acc'. apply IH.
Qed.

Lemma appends_for_enumerate {A} v (body : nat -> val -> A -> M A) acc :
  (forall i x acc, appends (body i x acc)) ->
  appends (for_enumerate v body acc).
Proof.
  intros Hbody. destruct v as [s|z|l]; simpl.
  - by apply appends_for_items.
  - apply appends_raise.
  - apply appends_bind; [apply appends_read_only, read_only_load|].
    intros vs. by apply appends_for_list.
Qed.

Lemma appends_join_leaves fuel : forall joint v to_depth _depth,
  appends (join_leaves fuel joint v to_depth _depth : M val).
Proof.
  induction fuel as [|fuel IH]; intros joint v to_depth _depth; simpl;
    [apply appends_raise|].
  case_decide.
  - apply appends_bind; [apply appends_read_only, read_only_py_join|].
    intros s. apply appends_ret.
  - apply appends_bind.
    + apply appends_for_enumerate. intros i x acc.
      apply appends_bind; [apply IH|]. intros r. apply appends_ret.
    + intros rs. apply appends_bind; [apply appends_alloc|].
      intros l. apply appends_ret.
Qed.

(** A loop over a list object whose body only adds objects sees the
    elements the list had when the loop began. *)
Lemma for_list_items {A} l vs (body : nat -> val -> A -> M A) :
  (forall i x acc, appends (body i x acc)) ->
  forall n i acc s, s.1 !! l = Some vs -> (n + i = length vs)%nat ->
    for_list n l i body acc s = for_items (drop i vs) i body acc s.
Proof.
  intros Hbody. induction n as [|n IH]; intros i acc s Hl Hn.
  - by rewrite drop_ge by lia.
  - destruct (lookup_lt_is_Some_2 vs i) as [x Hx]; [lia|].
    rewrite (drop_S _ _ _ Hx). simpl.
    unfold bind at 1. unfold load. rewrite Hl, Hx.
    unfold bind. destruct (Hbody i x acc s) as [h2 H2].
    destruct (body i x acc s) as [[acc'|e|] s']; simpl in H2; subst s'; try done.
    apply IH; [|lia]. simpl. by apply lookup_app_l_Some.
Qed.

(** A list comprehension over the elements [xs]. *)
Lemma for_items_comprehension {B} (f : val -> M B) xs : forall i acc s,
  for_items xs i (fun _ b acc => r <- f b ;; ret (acc ++ [r])) acc s =
    (rs <- mapM f xs ;; ret (acc ++ rs)) s.
Proof.
  induction xs as [|x xs IH]; intros i acc s; simpl.
  - unfold bind, ret. by rewrite app_nil_r.
  - unfold bind, ret. destruct (f x s) as [[r|e|] s']; try done.
    specialize (IH (S i) (acc ++ [r]) s'). unfold bind, ret in IH. rewrite IH.
    destruct (mapM f xs s') as [[rs|e|] s'']; try done.
    by rewrite <- app_assoc.
Qed.

(** The list comprehension of [join_leaves] over the elements of the
    node. *)
Lemma join_leaves_elements fuel joint v to_depth _depth h (u : T) vs :
  _depth <> to_depth -> elements h v = Ok vs ->
  join_leaves (S fuel) joint v to_depth _depth (h, u) =
    (rs <- mapM (fun b => join_leaves fuel joint b to_depth (_depth + 1)) vs ;;
     l <- alloc rs ;; ret (VList l)) (h, u).
Proof.
  intros Hd Hel. simpl join_leaves. rewrite decide_False by done.
  set (body := fun (_ : nat) b acc =>
    bind (join_leaves fuel joint b to_depth (_depth + 1))
      (fun r => ret (acc ++ [r]) : M (list val))).
  assert (for_enumerate v body [] (h, u) =
    (rs <- mapM (fun b => join_leaves fuel joint b to_depth (_depth + 1)) vs ;;
     ret ([] ++ rs)) (h, u)) as Hloop.
  { destruct v as [s|z|l]; simpl in Hel; [|done|].
    - injection Hel as <-. simpl. apply for_items_comprehension.
    - destruct (h !! l) as [vs'|] eqn:Hl; [|done]. injection Hel as ->.
      simpl. unfold bind at 1. unfold load. simpl. rewrite Hl.
      rewrite (for_list_items l vs); [|..|done|lia].
      + rewrite drop_0. apply for_items_comprehension.
      + intros i x acc. apply appends_bind; [apply appends_join_leaves|].
        intros r. apply appends_ret. }
  unfold bind at 1. rewrite Hloop. unfold bind.
  by destruct (mapM _ vs (h, u)) as [[rs|e|] s'].
Qed.
End Appends.

(** ** join_leaves on a tree of the store *)

Lemma owns_app h hx t v F : owns h t v F -> owns (h ++ hx) t v F.
Proof.
  intros Ho. eapply owns_frame; [done|]. intros l Hl.
  apply lookup_app_l. by eapply owns_bound.
Qed.

Lemma owns_all_bound h ts vs F l :
  owns_all h ts vs F -> l ∈ F -> (l < length h)%nat.
Proof. intros H. by apply (proj2 (owns_bound_both h) ts vs F). Qed.

Lemma owns_all_app h hx ts vs F : owns_all h ts vs F -> owns_all (h ++ hx) ts vs F.
Proof.
  intros Ho. eapply owns_all_frame; [done|]. intros l Hl.
  apply lookup_app_l. by eapply owns_all_bound.
Qed.

Section JoinTree.
Context {T : Type} (u : T) (joint : string).

Lemma py_list_elements h v :
  py_list v (h, u) =
    (match elements h v with
     | Ok vs => Ok vs
     | Raise e => Raise e
     | Undef => Undef
     end, (h, u)).
Proof.
  destruct v as [s|z|l]; simpl; try done.
  unfold load. simpl. by destruct (h !! l).
Qed.

Lemma mapM_expect_str_children h cs vs (s : state T) :
  Forall2 (fun c x => represents h c x = true) cs vs ->
  mapM expect_str vs s =
    (if forallb is_str cs then Ok (map text_of cs) else Raise TypeError, s).
Proof.
  induction 1 as [|c x cs vs Hc _ IH]; [done|].
  simpl. unfold bind. destruct c as [c|z|ts].
  - apply represents_TStr in Hc as ->. simpl. unfold ret at 1. rewrite IH.
    by destruct (forallb is_str cs).
  - by apply represents_TInt in Hc as ->.
  - by apply represents_TList in Hc as (l & ? & -> & _).
Qed.

Lemma py_join_tree h t v :
  represents h t v = true ->
  py_join joint v (h, u) =
    (if joinable 0 t
     then Ok (String.concat joint (map text_of (children t)))
     else Raise TypeError, (h, u)).
Proof.
  intros Hrep. unfold py_join, bind. rewrite py_list_elements.
  destruct (is_int t) eqn:Hint.
  - destruct t as [|z|]; try done. by apply represents_TInt in Hrep as ->.
  - destruct (represents_elements h t v Hrep Hint) as (vs & -> & Hvs).
    rewrite (mapM_expect_str_children h (children t)) by done.
    simpl. rewrite Hint. simpl. by destruct (forallb is_str (children t)).
Qed.

(** [join_leaves] on a nested list of the store, at the target depth [n]
    levels below the node it is called on: it returns the joined tree, built
    of new list objects only, or raises [TypeError] when [str.join] meets
    something else than strings. *)
Lemma join_leaves_tree : forall n fuel t v h d0,
  (n < fuel)%nat -> represents h t v = true ->
  exists h2,
    if joinable n t then
      exists v' F,
        join_leaves fuel joint v (d0 + Z.of_nat n) d0 (h, u) =
          (Ok v', (h ++ h2, u))
        /\ owns (h ++ h2) (join_tree n joint t) v' F
        /\ (forall l, l ∈ F -> (length h <= l)%nat)
    else
      join_leaves fuel joint v (d0 + Z.of_nat n) d0 (h, u) =
        (Raise TypeError, (h ++ h2, u)).
Proof.
  induction n as [|n IH]; intros fuel t v h d0 Hfuel Hrep;
    (destruct fuel as [|fuel]; [lia|]).
  - exists []. rewrite app_nil_r. simpl join_leaves.
    rewrite decide_True by lia. unfold bind. rewrite (py_join_tree h t) by done.
    destruct (joinable 0 t); [|done].
    eexists _, ∅. split; [done|]. split; [constructor|set_solver].
  - destruct (is_int t) eqn:Hint.
    { destruct t as [|z|]; try done. apply represents_TInt in Hrep as ->.
      exists []. rewrite app_nil_r. simpl. by rewrite decide_False by lia. }
    destruct (represents_elements h t v Hrep Hint) as (vs & Hel & Hvs).
    rewrite (join_leaves_elements fuel joint v _ d0 h u vs) by (done || lia).
    assert (joinable (S n) t = forallb (joinable n) (children t)) as ->
      by (simpl; by rewrite Hint).
    assert (join_tree (S n) joint t =
            TList (map (join_tree n joint) (children t))) as -> by done.
    set (f := fun b => join_leaves fuel joint b (d0 + Z.of_nat (S n)) (d0 + 1)).
    assert (forall b s, f b s =
      join_leaves fuel joint b (d0 + Z.of_nat (S n)) (d0 + 1) s) as Hf by done.
    clearbody f.
    assert (forall cs vs hc,
      Forall2 (fun c x => represents hc c x = true) cs vs ->
      exists h2,
        if forallb (joinable n) cs then
          exists rs F,
            mapM f vs (hc, u) = (Ok rs, (hc ++ h2, u))
            /\ owns_all (hc ++ h2) (map (join_tree n joint) cs) rs F
            /\ (forall l, l ∈ F -> (length hc <= l)%nat)
        else mapM f vs (hc, u) = (Raise TypeError, (hc ++ h2, u))) as Hmap.
    { clear dependent vs. clear Hrep Hint.
      induction cs as [|c cs IHcs]; intros vs hc Hall.
      - apply Forall2_nil_inv_l in Hall as ->. exists []. simpl.
        eexists [], ∅. rewrite app_nil_r. split; [done|].
        split; [constructor|set_solver].
      - apply Forall2_cons_inv_l in Hall as (x & vs' & Hc & Hcs & ->).
        destruct (IH fuel c x hc (d0 + 1) ltac:(lia) Hc) as [h2a Hrun].
        replace (d0 + 1 + Z.of_nat n) with (d0 + Z.of_nat (S n)) in Hrun by lia.
        rewrite <- Hf in Hrun.
        simpl forallb. simpl mapM. unfold bind.
        destruct (joinable n c); simpl.
        + destruct Hrun as (r & F0 & Hrun & Hown0 & Hfresh0).
          rewrite Hrun.
          destruct (IHcs vs' (hc ++ h2a)) as [h2b Hrest].
          { eapply Forall2_impl; [exact Hcs|]. intros c' x'.
            apply represents_app. }
          exists (h2a ++ h2b). rewrite (app_assoc hc).
          destruct (forallb (joinable n) cs).
          * destruct Hrest as (rs & F1 & Hrest & Hown1 & Hfresh1).
            rewrite Hrest. exists (r :: rs), (F0 ∪ F1).
            split; [done|]. split.
            -- constructor; [by apply owns_app|done|].
               apply elem_of_disjoint. intros l Hl0 Hl1.
               pose proof (owns_bound _ _ _ _ _ Hown0 Hl0).
               specialize (Hfresh1 l Hl1). lia.
            -- intros l [Hl|Hl]%elem_of_union; [by apply Hfresh0|].
               specialize (Hfresh1 l Hl). rewrite length_app in Hfresh1. lia.
          * by rewrite Hrest.
        + rewrite Hrun. by exists h2a. }
    destruct (Hmap (children t) vs h Hvs) as [h2 Hrun]. unfold bind.
    destruct (forallb (joinable n) (children t)).
    + destruct Hrun as (rs & F & Hrun & Hown & Hfresh).
      rewrite Hrun. unfold alloc, ret. cbn [fst snd].
      exists (h2 ++ [rs]). eexists _, ({[length (h ++ h2)]} ∪ F).
      rewrite (app_assoc h). split; [done|]. split.
      * apply (owns_list _ _ rs).
        -- by apply list_lookup_middle.
        -- intros Hin. pose proof (owns_all_bound _ _ _ _ _ Hown Hin). lia.
        -- by apply owns_all_app.
      * intros l [->%elem_of_singleton|Hl]%elem_of_union; [|by apply Hfresh].
        rewrite length_app. lia.
    + rewrite Hrun. by exists h2.
Qed.
End JoinTree.

Lemma owns_represents_both h :
  (forall t v F, owns h t v F -> represents h t v = true)
  /\ (forall ts vs F, owns_all h ts vs F ->
        Forall2 (fun t v => represents h t v = true) ts vs).
Proof.
  apply owns_mutind.
  - intros s. by apply represents_TStr.
  - intros z. by apply represents_TInt.
  - intros l vs ts F Hl _ _ IH. apply represents_TList. by exists l, vs.
  - constructor.
  - intros t ts v vs F1 F2 _ IH1 _ IH2 _. by constructor.
Qed.

Lemma owns_represents h t v F : owns h t v F -> represents h t v = true.
Proof. apply (proj1 (owns_represents_both h)). Qed.

(** ** The joined tree, level by level *)

Lemma joinable_iterable : forall n t, joinable n t = true -> iterable n t = true.
Proof.
  induction n as [|n IH]; intros t; simpl.
  - intros [H _]%andb_prop. by rewrite H.
  - intros [H1 H2]%andb_prop. rewrite H1. simpl.
    apply forallb_intro. apply forallb_elim in H2.
    eapply Forall_impl; [exact H2|]. intros c. apply IH.
Qed.

Lemma iterable_pred : forall n t, iterable (S n) t = true -> iterable n t = true.
Proof.
  induction n as [|n IH]; intros t.
  - simpl. intros [H _]%andb_prop. by rewrite H.
  - intros H. change (negb (is_int t) && forallb (iterable (S n)) (children t)
                      = true) in H.
    apply andb_prop in H as [H1 H2].
    change (negb (is_int t) && forallb (iterable n) (children t) = true).
    rewrite H1. simpl. apply forallb_intro. apply forallb_elim in H2.
    eapply Forall_impl; [exact H2|]. intros c. apply IH.
Qed.

Lemma joinable_nodes : forall n t,
  joinable (S n) t = true -> Forall (fun c => joinable 0 c = true) (nodes_at n t).
Proof.
  induction n as [|n IH]; intros t H.
  - change (negb (is_int t) && forallb (joinable 0) (children t) = true) in H.
    apply andb_prop in H as [_ H]. by apply forallb_elim in H.
  - change (negb (is_int t) && forallb (joinable (S n)) (children t) = true)
      in H.
    apply andb_prop in H as [_ H]. apply forallb_elim in H.
    simpl. apply Forall_concat, Forall_fmap.
    eapply Forall_impl; [exact H|]. intros c. apply IH.
Qed.

Lemma nodes_at_join_tree joint : forall n t,
  nodes_at n (join_tree (S n) joint t) = map (join_tree 0 joint) (nodes_at n t).
Proof.
  induction n as [|n IH]; intros t; [done|].
  change (concat (map (nodes_at n)
            (map (join_tree (S n) joint) (children t))) =
          map (join_tree 0 joint) (concat (map (nodes_at n) (children t)))).
  rewrite concat_map, !map_map. f_equal. apply map_ext. intros c. apply IH.
Qed.

Lemma join_tree_iterable joint : forall n t,
  iterable n (join_tree (S n) joint t) = true.
Proof.
  induction n as [|n IH]; intros t; [done|].
  change (forallb (iterable n) (map (join_tree (S n) joint) (children t)) = true).
  apply forallb_intro, Forall_fmap, Forall_forall. intros c _. apply IH.
Qed.

Lemma Forall2_through {A B C} (P : A -> C -> Prop) (Q : B -> C -> Prop)
    (G : C -> Prop) (R : A -> B -> Prop) (xs : list A) (ys : list B)
    (cs : list C) :
  (forall x y c, P x c -> Q y c -> G c -> R x y) ->
  Forall2 P xs cs -> Forall2 Q ys cs -> Forall G cs -> Forall2 R xs ys.
Proof.
  intros HR HP. revert ys. induction HP as [|x c xs cs Hx _ IH]; intros ys HQ HG.
  - apply Forall2_nil_inv_r in HQ as ->. constructor.
  - apply Forall2_cons_inv_r in HQ as (y & ys' & Hy & Hys & ->).
    apply Forall_cons in HG as [Hc Hcs]. constructor; eauto.
Qed.

(** ** A target depth that the recursion cannot reach *)

Lemma has_text_chars s :
  existsb has_text (map TStr (chars s)) = has_text (TStr s).
Proof. by destruct s. Qed.

Lemma has_int_chars s : existsb has_int (map TStr (chars s)) = false.
Proof. induction s as [|c s IH]; simpl; done. Qed.

Lemma has_text_children t :
  is_int t = false -> existsb has_text (children t) = has_text t.
Proof. destruct t; try done. intros _. apply has_text_chars. Qed.

Lemma has_int_children t :
  is_int t = false -> existsb has_int (children t) = has_int t.
Proof. destruct t; try done. intros _. apply has_int_chars. Qed.

Lemma join_leaves_unreachable {T} (u : T) joint to_depth :
  forall fuel t v h _depth,
  to_depth < _depth -> represents h t v = true ->
  exists h2 o,
    join_leaves fuel joint v to_depth _depth (h, u) = (o, (h ++ h2, u))
    /\ (o = Raise RecursionError
        \/ (has_int t = true /\ o = Raise TypeError)
        \/ (has_text t = false /\ exists v', o = Ok v')).
Proof.
  induction fuel as [|fuel IH]; intros t v h _depth Hd Hrep.
  { exists [], (Raise RecursionError). rewrite app_nil_r. auto. }
  destruct (is_int t) eqn:Hint.
  { destruct t as [|z|]; try done. apply represents_TInt in Hrep as ->.
    exists [], (Raise TypeError). rewrite app_nil_r. simpl.
    rewrite decide_False by lia. auto. }
  destruct (represents_elements h t v Hrep Hint) as (vs & Hel & Hvs).
  rewrite (join_leaves_elements fuel joint v to_depth _depth h u vs)
    by (done || lia).
  rewrite <- (has_text_children t), <- (has_int_children t) by done.
  set (f := fun b => join_leaves fuel joint b to_depth (_depth + 1)).
  assert (forall b s, f b s = join_leaves fuel joint b to_depth (_depth + 1) s)
    as Hf by done.
  clearbody f.
  assert (forall cs vs hc,
    Forall2 (fun c x => represents hc c x = true) cs vs ->
    exists h2 o,
      mapM f vs (hc, u) = (o, (hc ++ h2, u))
      /\ (o = Raise RecursionError
          \/ (existsb has_int cs = true /\ o = Raise TypeError)
          \/ (existsb has_text cs = false /\ exists rs, o = Ok rs))) as Hmap.
  { clear dependent vs. clear Hrep Hint.
    induction cs as [|c cs IHcs]; intros vs hc Hall.
    - apply Forall2_nil_inv_l in Hall as ->. exists [], (Ok []).
      rewrite app_nil_r. split; [done|]. right. right. eauto.
    - apply Forall2_cons_inv_l in Hall as (x & vs' & Hc & Hcs & ->).
      destruct (IH c x hc (_depth + 1) ltac:(lia) Hc)
        as (h2a & o & Hrun & Ho).
      rewrite <- Hf in Hrun. simpl mapM. unfold bind. rewrite Hrun.
      destruct Ho as [->|[[Hi ->]|[Ht [r ->]]]].
      + exists h2a, (Raise RecursionError). auto.
      + exists h2a, (Raise TypeError). simpl. rewrite Hi. auto.
      + destruct (IHcs vs' (hc ++ h2a)) as (h2b & o & Hrest & Ho).
        { eapply Forall2_impl; [exact Hcs|]. intros c' x'.
          apply represents_app. }
        rewrite Hrest. rewrite <- (app_assoc hc). simpl existsb. rewrite Ht.
        destruct Ho as [->|[[Hi ->]|[Hts [rs ->]]]].
        * exists (h2a ++ h2b), (Raise RecursionError). auto.
        * exists (h2a ++ h2b), (Raise TypeError). rewrite Hi, orb_true_r. auto.
        * exists (h2a ++ h2b), (Ok (r :: rs)). split; [done|].
          right. right. rewrite Hts. eauto. }
  destruct (Hmap (children t) vs h Hvs) as (h2 & o & Hrun & Ho).
  unfold bind. rewrite Hrun.
  destruct Ho as [->|[[Hi ->]|[Ht [rs ->]]]].
  - exists h2, (Raise RecursionError). auto.
  - exists h2, (Raise TypeError). auto.
  - exists (h2 ++ [rs]). eexists. unfold alloc, ret. cbn [fst snd].
    rewrite (app_assoc h). split; [done|]. right. right. eauto.
Qed.

(** ** Joining again, and the text of the joined tree *)

Lemma joinable_join_tree joint : forall n t,
  joinable n (join_tree (S n) joint t) = true.
Proof.
  induction n as [|n IH]; intros t.
  - change (forallb is_str (map (join_tree 0 joint) (children t)) = true).
    apply forallb_intro, Forall_fmap, Forall_forall. by intros c _.
  - change (forallb (joinable n)
              (map (join_tree (S n) joint) (children t)) = true).
    apply forallb_intro, Forall_fmap, Forall_forall. intros c _. apply IH.
Qed.

Lemma all_text_children t :
  is_int t = false -> String.concat "" (map all_text (children t)) = all_text t.
Proof.
  destruct t as [s| |ts]; try done. intros _. simpl.
  rewrite map_map. simpl. rewrite map_id. apply concat_chars.
Qed.

Lemma all_text_join_tree : forall n t,
  joinable n t = true -> all_text (join_tree n "" t) = all_text t.
Proof.
  induction n as [|n IH]; intros t H;
    [change (negb (is_int t) && forallb is_str (children t) = true) in H
    |change (negb (is_int t) && forallb (joinable n) (children t) = true) in H];
    apply andb_prop in H as [Hint H]; apply negb_true_iff in Hint;
    apply forallb_elim in H; rewrite <- (all_text_children t) by done.
  - simpl. f_equal. apply Forall_fmap_ext_1.
    eapply Forall_impl; [exact H|]. by intros [s| |].
  - simpl. rewrite map_map. f_equal. apply Forall_fmap_ext_1.
    eapply Forall_impl; [exact H|]. intros c. apply IH.
Qed.

(** ** The HTML map of the joined document *)

Lemma forallb_is_str_chars s : forallb is_str (map TStr (chars s)) = true.
Proof. apply forallb_intro, Forall_fmap, Forall_forall. by intros c _. Qed.

Lemma joinable_tree_of_par p : joinable 0 (tree_of_par p) = true.
Proof.
  destruct p as [s|runs]; simpl.
  - apply forallb_is_str_chars.
  - apply forallb_intro, Forall_fmap, Forall_forall. by intros c _.
Qed.

Lemma joinable_tree_of_doc d : joinable 4 (tree_of_doc d) = true.
Proof.
  unfold tree_of_doc. simpl.
  apply forallb_intro, Forall_fmap, Forall_forall. intros tb _. simpl.
  apply forallb_intro, Forall_fmap, Forall_forall. intros r _. simpl.
  apply forallb_intro, Forall_fmap, Forall_forall. intros c _. simpl.
  apply forallb_intro, Forall_fmap, Forall_forall. intros p _.
  apply joinable_tree_of_par.
Qed.

Lemma join_tree_par p :
  join_tree 0 "" (tree_of_par p) = tree_of_par (PText (par_text p)).
Proof.
  destruct p as [s|runs]; simpl; f_equal.
  - by rewrite map_text_of_strings, concat_chars.
  - by rewrite map_text_of_strings.
Qed.

Lemma join_tree_list n joint {A} (f : A -> tree) (xs : list A) :
  join_tree (S n) joint (TList (map f xs)) =
    TList (map (fun x => join_tree n joint (f x)) xs).
Proof. simpl. by rewrite map_map. Qed.

Lemma join_tree_doc d :
  join_tree 4 "" (tree_of_doc d) = tree_of_doc (joined_doc d).
Proof.
  unfold tree_of_doc, joined_doc. rewrite join_tree_list, !map_map. f_equal.
  apply map_ext. intros tb. rewrite join_tree_list, !map_map. f_equal.
  apply map_ext. intros r. rewrite join_tree_list, !map_map. f_equal.
  apply map_ext. intros c. rewrite join_tree_list, !map_map. f_equal.
  apply map_ext. intros p. apply join_tree_par.
Qed.

Lemma html_of_joined_doc d : html_of (joined_doc d) = html_of d.
Proof.
  unfold html_of, body_html, joined_doc. do 3 f_equal.
  change (map ?f d) with (f <$> d). rewrite imap_fmap.
  apply imap_ext. intros i tb _. unfold compose. do 2 f_equal.
  unfold table_html. f_equal.
  change (map ?f tb) with (f <$> tb). rewrite imap_fmap.
  apply imap_ext. intros j r _. unfold compose. do 2 f_equal.
  unfold row_html. f_equal.
  change (map ?f r) with (f <$> r). rewrite imap_fmap.
  apply imap_ext. intros k c _. unfold compose. do 2 f_equal.
  unfold cell_html. f_equal.
  change (map ?f c) with (f <$> c). rewrite imap_fmap.
  by apply imap_ext.
Qed.

(** ** A consumer that leaves the enumerated lists alone *)

Section Materialise.
Context {T : Type} (h0 : heap) (R : loc -> Prop).
Context (keeps : state T -> Prop).
Hypothesis R_closed :
  forall l vs, R l -> h0 !! l = Some vs -> Forall (val_in R) vs.
Hypothesis keeps_unchanged : forall s, keeps s -> unchanged_in h0 R s.

Lemma consume_keeps {X} (yield : X -> M T unit) items ending :
  (forall p s, keeps s -> keeps (yield p s).2) ->
  forall s, keeps s -> keeps (consume yield items ending s).2.
Proof.
  intros Hy. induction items as [|p items IH]; intros s Hs; simpl; [done|].
  unfold bind. pose proof (Hy p s Hs) as Hs'.
  destruct (yield p s) as [[[]|e|] s']; simpl in *; auto.
Qed.

Lemma consume_app {X} (yield : X -> M T unit) xs ys ending s :
  consume yield (xs ++ ys) ending s =
    (consume yield xs (Ok tt) ;;; consume yield ys ending) s.
Proof.
  revert s. induction xs as [|p xs IH]; intros s; simpl; [done|].
  unfold bind in *. destruct (yield p s) as [[[]|e|] s']; done.
Qed.

Lemma consume_map {X Y} (g : X -> Y) (yield : Y -> M T unit)
    (yield' : X -> M T unit) items ending s :
  (forall p s, yield' p s = yield (g p) s) ->
  consume yield' items ending s = consume yield (map g items) ending s.
Proof.
  intros Hg. revert s. induction items as [|p items IH]; intros s; simpl; [done|].
  unfold bind. rewrite Hg. destruct (yield (g p) s) as [[[]|e|] s']; auto.
Qed.

Lemma consume_single {X} (yield : X -> M T unit) p s :
  consume yield [p] (Ok tt) s = yield p s.
Proof. simpl. unfold bind. by destruct (yield p s) as [[[]|e|] s']. Qed.

Lemma consume_failed {X} (yield : X -> M T unit) items ending s
    (k : unit -> M T unit) :
  ending <> Ok tt ->
  bind (consume yield items ending) k s = consume yield items ending s.
Proof.
  intros Hend. revert s. induction items as [|p items IH]; intros s; simpl.
  - unfold bind. by destruct ending as [[]|e|].
  - unfold bind in *. destruct (yield p s) as [[[]|e|] s']; done.
Qed.

Lemma for_list_items_inv {A} l vs (body : nat -> val -> A -> M T A) :
  (forall i x acc s, vs !! i = Some x -> keeps s -> keeps (body i x acc s).2) ->
  R l -> h0 !! l = Some vs ->
  forall n i acc s, keeps s -> (n + i = length vs)%nat ->
    for_list n l i body acc s = for_items (drop i vs) i body acc s.
Proof.
  intros Hbody Hl Hvs. induction n as [|n IH]; intros i acc s Hs Hn.
  - by rewrite drop_ge by lia.
  - destruct (lookup_lt_is_Some_2 vs i) as [x Hx]; [lia|].
    rewrite (drop_S _ _ _ Hx). simpl.
    unfold bind at 1. unfold load. rewrite (keeps_unchanged s Hs l Hl), Hvs, Hx.
    unfold bind. pose proof (Hbody i x acc s Hx Hs) as Hs'.
    destruct (body i x acc s) as [[acc'|e|] s']; try done.
    apply IH; [done|lia].
Qed.

Lemma for_items_consume {X} (yield : X -> M T unit)
    (body : nat -> val -> M T unit)
    (tr : nat -> val -> list X * outcome unit) :
  (forall p s, keeps s -> keeps (yield p s).2) ->
  forall xs i s,
    (forall j x s', (i + j < i + length xs)%nat -> xs !! j = Some x ->
       keeps s' ->
       body (i + j)%nat x s' = consume yield (tr (i + j)%nat x).1
                                 (tr (i + j)%nat x).2 s') ->
    keeps s ->
    for_items xs i (fun i x _ => body i x) tt s =
      (let r := seq_traces (imap (fun j => tr (i + j)%nat) xs) in
       consume yield r.1 r.2 s).
Proof.
  intros Hy. induction xs as [|x xs IH]; intros i s Hbody Hs; [done|].
  simpl. unfold bind.
  pose proof (Hbody 0%nat x s ltac:(simpl; lia) eq_refl Hs) as Hx.
  rewrite Nat.add_0_r in *. rewrite Hx.
  destruct (tr i x) as [ys r] eqn:Htr. cbn [fst snd].
  assert (forall s', keeps s' ->
    for_items xs (S i) (fun i x _ => body i x) tt s' =
      (let r := seq_traces (imap ((fun j => tr (i + j)%nat) ∘ S) xs) in
       consume yield r.1 r.2 s')) as Hrest.
  { intros s' Hs'.
    rewrite (imap_ext ((fun j => tr (i + j)%nat) ∘ S)
               (fun j => tr (S i + j)%nat) xs)
      by (intros j y _; simpl; f_equal; lia).
    apply IH; [|done]. intros j y s'' Hj Hy' Hs''.
    replace (S i + j)%nat with (i + S j)%nat by lia.
    apply Hbody; [simpl; lia|done|done]. }
  destruct r as [[]|e|].
  - cbv zeta in *. cbn [fst snd]. rewrite consume_app. unfold bind.
    pose proof (consume_keeps yield ys (Ok tt) Hy s Hs) as Hs'.
    destruct (consume yield ys (Ok tt) s) as [[[]|e|] s']; try done.
    by apply Hrest.
  - pose proof (consume_failed yield ys (Raise e) s
                  (fun a => for_items xs (S i) (fun i x _ => body i x) a)
                  ltac:(done)) as Hf.
    unfold bind in Hf. exact Hf.
  - pose proof (consume_failed yield ys Undef s
                  (fun a => for_items xs (S i) (fun i x _ => body i x) a)
                  ltac:(done)) as Hf.
    unfold bind in Hf. exact Hf.
Qed.

Lemma for_each_consume {X} (yield : X -> M T unit)
    (body : nat -> val -> M T unit)
    (tr : nat -> val -> list X * outcome unit) v s :
  (forall p s, keeps s -> keeps (yield p s).2) ->
  (forall j x s', val_in R x -> keeps s' ->
     body j x s' = consume yield (tr j x).1 (tr j x).2 s') ->
  val_in R v -> keeps s ->
  for_each v body s =
    match elements h0 v with
    | Ok xs => let r := seq_traces (imap tr xs) in consume yield r.1 r.2 s
    | Raise e => (Raise e, s)
    | Undef => (Undef, s)
    end.
Proof.
  intros Hy Hbody Hv Hs. unfold for_each. destruct v as [str|z|l]; simpl.
  - rewrite (for_items_consume yield body tr Hy); [done| |done].
    intros j x s' _ Hx Hs'. apply Hbody; [|done].
    eapply Forall_lookup_1; [|exact Hx].
    apply Forall_fmap, Forall_forall. by intros c _.
  - done.
  - simpl in Hv. unfold bind, load. rewrite (keeps_unchanged s Hs l Hv).
    destruct (h0 !! l) as [vs|] eqn:Hl; [|done].
    pose proof (R_closed l vs Hv Hl) as Hvs.
    rewrite (for_list_items_inv l vs); [|..|done|done|done|lia].
    + rewrite drop_0.
      rewrite (for_items_consume yield body tr Hy); [done| |done].
      intros j x s' _ Hx Hs'. apply Hbody; [|done].
      eapply Forall_lookup_1; [exact Hvs|exact Hx].
    + intros i x acc s' Hx Hs'. rewrite Hbody; [|by eapply Forall_lookup_1|done].
      by apply consume_keeps.
Qed.

Lemma enum_levels_consume n :
  forall v (yield : list nat * val -> M T unit) s,
  (forall p s, keeps s -> keeps (yield p s).2) ->
  val_in R v -> keeps s ->
  enum_levels n v yield s =
    (let r := enumerate_at_depth h0 v (S n) in consume yield r.1 r.2 s).
Proof.
  induction n as [|n IH]; intros v yield s Hy Hv Hs.
  - simpl enum_levels.
    rewrite (for_each_consume yield _ (fun i x => ([([i], x)], Ok tt)) v s Hy);
      [|by intros; symmetry; apply consume_single|done|done].
    simpl. destruct (elements h0 v) as [xs|e|]; try done.
    by rewrite seq_traces_singletons.
  - simpl enum_levels.
    set (ref := fun (i : nat) (x : val) =>
      let r := enumerate_at_depth h0 x (S n) in
      (map (fun '(sub_address, item) => (i :: sub_address, item)) r.1, r.2)).
    rewrite (for_each_consume yield _ ref v s Hy); [|..|done|done].
    + assert (enumerate_at_depth h0 v (S (S n)) =
        match elements h0 v with
        | Ok xs => seq_traces (imap ref xs)
        | Raise e => ([], Raise e)
        | Undef => ([], Undef)
        end) as -> by done.
      by destruct (elements h0 v) as [xs|e|].
    + intros j x s' Hx Hs'. rewrite IH; [|..|done|done].
      * unfold ref. cbv zeta. cbn [fst snd].
        apply consume_map. by intros [a y] s''.
      * intros [a y] s'' Hs''. by apply Hy.
Qed.
End Materialise.

(** ** get_html_map on paragraphs that are not made of strings *)

Lemma represents_frame (R : loc -> Prop) (h h' : heap) :
  (forall l vs, R l -> h !! l = Some vs -> Forall (val_in R) vs) ->
  (forall l, R l -> h' !! l = h !! l) ->
  forall t v, val_in R v -> represents h t v = true -> represents h' t v = true.
Proof.
  intros Hclosed Hsame.
  induction t as [s|z|ts IH] using tree_ind_list; intros v Hv; [done|done|].
  intros (l & vs & -> & Hl & Hall)%represents_TList. simpl in Hv.
  apply represents_TList. exists l, vs. split; [done|].
  split; [by rewrite Hsame|].
  pose proof (Hclosed l vs Hv Hl) as Hvs. clear Hl.
  induction Hall as [|c x cs vs Hc Hcs IHcs]; [constructor|].
  apply Forall_cons in IH as [IHc IH]. apply Forall_cons in Hvs as [Hx Hvs].
  constructor; [by apply IHc|by apply IHcs].
Qed.

Lemma enumerate_at_depth_val_in (R : loc -> Prop) h :
  (forall l vs, R l -> h !! l = Some vs -> Forall (val_in R) vs) ->
  forall n v, val_in R v ->
    Forall (fun p => val_in R p.2) (enumerate_at_depth h v n).1.
Proof.
  intros Hclosed n v Hv. apply Forall_forall. intros [a x] Hin. simpl.
  apply (enumerate_at_depth_sound h tt) in Hin as [_ Hget].
  clear n. revert v Hv Hget. induction a as [|i a IH]; intros v Hv; simpl.
  - by intros [= <-].
  - unfold bind. rewrite py_getitem_elements.
    destruct (elements h v) as [xs|e|] eqn:Hel; [|done..].
    destruct (xs !! i) as [y|] eqn:Hy; [|done]. apply IH.
    destruct v as [s|z|l]; simpl in Hel.
    + injection Hel as <-.
      change (map VStr (chars s)) with (VStr <$> chars s) in Hy.
      apply list_lookup_fmap_Some in Hy as (c & Hc1 & Hc2). by subst.
    + done.
    + destruct (h !! l) as [vs|] eqn:Hl; [|done]. injection Hel as ->.
      eapply Forall_lookup_1; [by eapply Hclosed|done].
Qed.

Lemma address_and_text_tree {T} a v tv (s : state T) :
  represents s.1 tv v = true ->
  address_and_text a v s =
    (if joinable 0 tv
     then Ok (String.concat " "
                [str_of_tuple a;
                 String.concat "" (map text_of (children tv))])
     else Raise TypeError, s).
Proof.
  intros Hrep. unfold address_and_text, bind. destruct s as [h u].
  rewrite (py_join_tree u "" h tv v Hrep). by destruct (joinable 0 tv).
Qed.

(** Two consumers that do the same on the items that are in order, the
    first of them raising [TypeError] on the others. *)
Lemma consume_until_failure {T X C} (y1 y2 : X -> M T unit)
    (Inv : state T -> Prop) (ok : C -> bool) (rel : X -> C -> Prop) items cs :
  Forall2 rel items cs ->
  (forall p c s, rel p c -> Inv s ->
     Inv (y2 p s).2
     /\ if ok c then y1 p s = y2 p s
        else exists s', y1 p s = (Raise TypeError, s')) ->
  forallb ok cs = false ->
  forall s, Inv s ->
    (exists s2, consume y2 items (Ok tt) s = (Ok tt, s2)) ->
    exists s', consume y1 items (Ok tt) s = (Raise TypeError, s').
Proof.
  intros Hall Hrel. induction Hall as [|p c items cs Hp _ IH]; [done|].
  intros Hbad s Hs [s2 Hrun2]. simpl in *.
  destruct (Hrel p c s Hp Hs) as [Hinv Hy]. unfold bind in *.
  destruct (ok c); simpl in Hbad.
  - rewrite Hy. destruct (y2 p s) as [[[]|e|] s1]; [|done..].
    apply IH; [done|done|by exists s2].
  - destruct Hy as [s' ->]. by exists s'.
Qed.

Lemma Forall2_with_left {A B} (P : A -> Prop) (Q : A -> B -> Prop) xs ys :
  Forall P xs -> Forall2 Q xs ys -> Forall2 (fun x y => Q x y /\ P x) xs ys.
Proof.
  intros HP HQ. induction HQ as [|x y xs ys Hxy _ IH]; [constructor|].
  apply Forall_cons in HP as [Hx HP]. constructor; auto.
Qed.

Lemma get_html_map_type_error {T} (fuel : nat) (t : tree) (tables : val)
    (F : gset loc) (h : heap) (u : T) :
  owns h t tables F -> lists_to 3 (fun _ => True) t -> (height t < fuel)%nat ->
  forallb (joinable 0) (nodes_at 3 t) = false ->
  exists s', get_html_map fuel tables (h, u) = (Raise TypeError, s').
Proof.
  intros Hown Hshape Hfuel Hbad.
  destruct (deepcopy_owned u fuel t tables F h ∅ Hown Hfuel)
    as (y & h0 & memo' & Fc & Hcopy & Hy & Hfresh & Hlen & Hold & _); [done|].
  assert (owns h0 t tables F) as Hown0.
  { eapply owns_frame; [done|]. intros l Hl. apply Hold. by eapply owns_bound. }
  assert (F ## Fc) as Hdisj.
  { apply elem_of_disjoint. intros l Hl1 Hl2.
    pose proof (owns_bound _ _ _ _ _ Hown Hl1). specialize (Hfresh l Hl2). lia. }
  unfold get_html_map. rewrite (bind_ok _ _ _ _ _ Hcopy).
  cbv zeta. cbn [fst snd].
  match goal with
  | |- ex (fun _ => bind (enum_at_depth tables 4 ?B) _ _ = _) => set (B0 := B)
  end.
  assert (exists s', enum_at_depth tables 4 B0 (h0, u) = (Raise TypeError, s'))
    as [s' Hloop]; [|exists s'; unfold bind at 1; by rewrite Hloop].
  set (G' := fun (a : list nat) (v : val) (s : state T) =>
    match address_and_text a v s with
    | (Ok x, s') => (Ok x, s')
    | _ => (Ok ""%string, s)
    end).
  set (g' := fun (a : list nat) (tv : tree) =>
    if joinable 0 tv
    then String.concat " "
           [str_of_tuple a; String.concat "" (map text_of (children tv))]
    else ""%string).
  (* the loop as the code has it, and the loop that skips the failures *)
  assert (enum_at_depth tables 4 B0 (h0, u) =
          enum_levels 3 tables (update_at address_and_text y []) (h0, u)) as ->.
  { rewrite (enum_at_depth_levels 3) by (lia || done).
    destruct (enum_levels_cong (fun _ => True) 3 tables B0
                (update_at address_and_text y []) (h0, u)) as [-> _]; [|done..].
    intros a it s Ha _. split; [|done].
    destruct a as [|i [|j [|k [|m [|]]]]]; try done.
    unfold update_at, address_and_text. simpl. unfold bind.
    by destruct (py_join "" it s) as [[txt| e |] s1]. }
  assert (forall a v, read_only (G' a v)) as Hro'.
  { intros a v s. unfold G'.
    pose proof (read_only_address_and_text (T := T) a v s) as Hs.
    by destruct (address_and_text a v s) as [[x|e|] s1]. }
  destruct (phase_run G' g' (fun _ => True) 3%nat 4 (update_at G' y [])
              tables y t Fc h0 u) as (h' & Fy' & Hrun' & _); try done.
  { intros a v tv F' s Hv _. unfold G', g'.
    rewrite (address_and_text_tree a v tv s) by (by eapply owns_represents).
    by destruct (joinable 0 tv). }
  { right. by exists F. }
  rewrite (enum_at_depth_levels 3) in Hrun' by (lia || done).
  (* both loops run over the items of the argument *)
  set (R := fun l : loc => l ∈ F).
  set (Rc := fun l : loc => l ∈ Fc \/ (length h0 <= l)%nat).
  set (Inv := fun s : state T =>
    closed_region Rc s.1 /\ forall l, ~ Rc l -> s.1 !! l = h0 !! l).
  destruct (proj1 (owns_closed_both h0) _ _ _ Hown0) as [Htables HF].
  destruct (owns_closed_region h0 t y Fc Hy) as [Hclosed_c Hy_c].
  assert (forall l vs, R l -> h0 !! l = Some vs -> Forall (val_in R) vs)
    as HR by (intros l vs; apply HF).
  assert (forall s, Inv s -> unchanged_in h0 R s) as Hkeeps.
  { intros s [_ Hs] l Hl. apply Hs. intros [Hc|Hge]; [set_solver|].
    pose proof (owns_bound _ _ _ _ _ Hown0 Hl). lia. }
  assert (forall (Gx : list nat -> val -> M T string),
    (forall a v, read_only (Gx a v)) ->
    forall p s, Inv s -> Inv (update_at Gx y [] p s).2) as Hinv.
  { intros Gx Hgx p s [Hc Hs].
    assert (confined Rc (update_at Gx y [] p) (fun _ => True)) as Hconf.
    { unfold update_at. eapply confined_bind.
      - apply confined_read_only, Hgx.
      - intros text _. by apply confined_set_at. }
    destruct (Hconf s Hc) as (Hc' & Hframe & _). split; [done|].
    intros l Hl. rewrite Hframe by done. by apply Hs. }
  assert (Inv (h0, u)) as Hinv0 by done.
  rewrite (enum_levels_consume h0 R Inv HR Hkeeps 3 tables
             (update_at address_and_text y []) (h0, u));
    [|apply Hinv; intros; apply read_only_address_and_text|done|done].
  rewrite (enum_levels_consume h0 R Inv HR Hkeeps 3 tables
             (update_at G' y []) (h0, u)) in Hrun';
    [|by apply Hinv|done|done].
  cbv zeta in Hrun' |- *.
  (* the items are the paragraphs *)
  destruct (enumerate_at_depth_nodes h0 3 t tables (owns_represents _ _ _ _ Hown0))
    as [Hend Hnodes].
  rewrite (lists_to_iterable _ 3 t Hshape) in Hend, Hnodes.
  specialize (Hnodes eq_refl). rewrite Hend in Hrun' |- *.
  apply Forall2_fmap_l in Hnodes.
  pose proof (Forall2_with_left _ _ _ _
    (enumerate_at_depth_val_in R h0 HR 4 tables Htables) Hnodes) as Hitems.
  eapply (consume_until_failure _ (update_at G' y []) Inv (joinable 0));
    [exact Hitems| |done|done|by eexists].
  intros [a v] c s [Hrep Hv] Hs. split; [by apply Hinv|].
  assert (represents s.1 c v = true) as Hrep'.
  { eapply (represents_frame R h0); [done| |done|done].
    intros l Hl. by apply Hkeeps. }
  unfold update_at, G', bind. cbn [fst snd].
  rewrite (address_and_text_tree _ v c s Hrep').
  destruct (joinable 0 c); [done|by eexists].
Qed.

Lemma forallb_Exists_false {A} (f : A -> bool) (xs : list A) :
  Exists (fun x => f x = false) xs -> forallb f xs = false.
Proof.
  induction 1 as [x xs Hx|x xs _ IH]; simpl.
  - by rewrite Hx.
  - rewrite IH. apply andb_false_r.
Qed.

(** * Further properties of the module *)

(** X1. For the depths 1 to 5, every pair that [enum_at_depth(tree, depth)]
    yields holds an address of [depth] indices and the item found by
    indexing the tree along it, [tree[a1][a2]...]; when the enumeration ends
    without an error, every address of [depth] indices that can be followed
    in the tree is yielded; and no address is yielded twice. *)
Theorem enum_at_depth_address_is_index_path (T : Type) (h : heap) (u : T)
    (tree : val) (depth : Z) :
  1 <= depth <= 5 ->
  let e := collect (enum_at_depth tree depth) h in
  (forall a x, (a, x) ∈ e.1.1 ->
     length a = Z.to_nat depth /\ get_at tree a (h, u) = (Ok x, (h, u)))
  /\ (e.1.2 = Ok tt ->
      forall a x, length a = Z.to_nat depth ->
        get_at tree a (h, u) = (Ok x, (h, u)) -> (a, x) ∈ e.1.1)
  /\ NoDup (map fst e.1.1).
Proof.
  intros Hd. cbv zeta. rewrite collect_enum_at_depth by done. cbn [fst snd].
  split; [|split].
  - intros a x. apply enumerate_at_depth_sound.
  - intros Hok a x. by apply enumerate_at_depth_complete.
  - eapply StronglySorted_NoDup; [apply lex_lt_irrefl|].
    apply enumerate_at_depth_sorted.
Qed.

Lemma enum_at_depth_address_is_index_path_witness :
  1 <= 2 <= 5 /\
  NoDup (map fst
    (collect (enum_at_depth (VList 1%nat) 2)
       [[VStr "a"; VStr "b"]; [VList 0%nat; VList 0%nat]]).1.1).
Proof.
  split; [lia|].
  apply (enum_at_depth_address_is_index_path unit
           [[VStr "a"; VStr "b"]; [VList 0%nat; VList 0%nat]] tt (VList 1%nat) 2).
  lia.
Defined.

(** X2. Enumerating at the depth [d1 + d2] is enumerating at the depth [d1]
    and, inside every item, at the depth [d2], the two addresses put end to
    end: for every consumer and from every state, as long as the depths are
    at least 1 and their sum is at most 5. *)
Theorem enum_at_depth_compose (T : Type) (tree : val) (d1 d2 : Z)
    (yield : list nat * val -> M T unit) (s : state T) :
  1 <= d1 -> 1 <= d2 -> d1 + d2 <= 5 ->
  enum_at_depth tree (d1 + d2) yield s =
    enum_at_depth tree d1 (fun '(a, x) =>
      enum_at_depth x d2 (fun '(b, y) => yield (a ++ b, y))) s.
Proof. apply enum_at_depth_split. Qed.

Lemma enum_at_depth_compose_witness :
  1 <= 1 /\ 1 <= 2 /\ 1 + 2 <= 5 /\
  collect (enum_at_depth (VList 2%nat) (1 + 2))
    [[VStr "a"; VStr "b"]; [VList 0%nat]; [VList 1%nat; VList 1%nat]] =
  collect (fun yield => enum_at_depth (VList 2%nat) 1 (fun '(a, x) =>
             enum_at_depth x 2 (fun '(b, y) => yield (a ++ b, y))))
    [[VStr "a"; VStr "b"]; [VList 0%nat]; [VList 1%nat; VList 1%nat]].
Proof.
  split; [lia|]. split; [lia|]. split; [lia|].
  unfold collect.
  rewrite (enum_at_depth_compose (list (list nat * val)) (VList 2%nat) 1 2)
    by lia.
  reflexivity.
Defined.

(** X3. The same for [iter_at_depth]: for depths at least 1 whose sum is at
    most 5, iterating at the depth [d1 + d2] gives the items of
    [iter_at_depth(x, d2)] for every [x] of [iter_at_depth(tree, d1)], in
    order. *)
Theorem iter_at_depth_compose (T : Type) (tree : val) (d1 d2 : Z) :
  1 <= d1 -> 1 <= d2 -> d1 + d2 <= 5 ->
  exists (g g1 : generator val) (g2 : val -> generator val),
    iter_at_depth tree (d1 + d2) = Ok g
    /\ iter_at_depth tree d1 = Ok g1
    /\ (forall x, iter_at_depth x d2 = Ok (g2 x))
    /\ forall (yield : val -> M T unit) (s : state T),
         g yield s = g1 (fun x => g2 x yield) s.
Proof.
  intros H1 H2 H12. eexists _, _, (fun x yield => _).
  split; [apply iter_at_depth_valid; lia|].
  split; [apply iter_at_depth_valid; lia|].
  split; [intros x; apply iter_at_depth_valid; lia|].
  intros yield s. cbv beta. by rewrite enum_at_depth_split by done.
Qed.

Lemma iter_at_depth_compose_witness :
  1 <= 2 /\ 1 <= 2 /\ 2 + 2 <= 5 /\
  exists (g g1 : generator val) (g2 : val -> generator val),
    iter_at_depth (VList 0%nat) (2 + 2) = Ok g
    /\ iter_at_depth (VList 0%nat) 2 = Ok g1
    /\ (forall x, iter_at_depth x 2 = Ok (g2 x))
    /\ forall (yield : val -> M unit unit) (s : state unit),
         g yield s = g1 (fun x => g2 x yield) s.
Proof.
  split; [lia|]. split; [lia|]. split; [lia|].
  apply (iter_at_depth_compose unit (VList 0%nat) 2 2); lia.
Defined.

(** X4. A string is a sequence for the enumeration, not a leaf: for the
    depths 1 to 5, [enum_at_depth] over a string yields its characters as
    one-character strings, every level below the first adding the index 0 to
    the address, and ends without an error; over an integer it yields
    nothing and raises [TypeError]. *)
Theorem enum_at_depth_string_by_characters (h : heap) (s : string) (z : Z)
    (depth : Z) :
  1 <= depth <= 5 ->
  collect (enum_at_depth (VStr s) depth) h =
    (imap (fun i c => (i :: replicate (Z.to_nat depth - 1) 0%nat, VStr c))
       (chars s), Ok tt, h)
  /\ collect (enum_at_depth (VInt z) depth) h = ([], Raise TypeError, h).
Proof.
  intros Hd. rewrite !collect_enum_at_depth by done.
  destruct (Z.to_nat depth) as [|n] eqn:Hn; [lia|].
  rewrite enumerate_at_depth_string, enumerate_at_depth_int.
  by replace (S n - 1)%nat with n by lia.
Qed.

Lemma enum_at_depth_string_by_characters_witness :
  1 <= 3 <= 5 /\
  collect (enum_at_depth (VStr "ab") 3) [] =
    ([([0; 0; 0]%nat, VStr "a"); ([1; 0; 0]%nat, VStr "b")], Ok tt, []).
Proof.
  split; [lia|].
  exact (proj1 (enum_at_depth_string_by_characters [] "ab" 0 3
                  ltac:(lia))).
Defined.

(** X5. A loop over [enum_at_depth(tree, depth)] whose body leaves the
    lists of the tree as they are (it may change or build any other object)
    calls the body on the items that the enumeration yields when nothing
    disturbs it, in the same order, up to the first error of the body; after
    the last item it ends as the undisturbed enumeration ends: without an
    error, or with the error of the enumeration, which is raised after the
    body has run on the items yielded before it.  When the enumeration ends
    without an error, the loop is therefore
    [for p in list(enum_at_depth(tree, depth)): body(p)].  [R] is a set of
    list objects that holds the lists of the tree, and [h0] a store in which
    they are as in the state the loop starts from. *)
Theorem enum_at_depth_materialised (T : Type) (h0 : heap) (R : loc -> Prop)
    (tree : val) (depth : Z) (yield : list nat * val -> M T unit)
    (s : state T) :
  1 <= depth <= 5 ->
  (forall l vs, R l -> h0 !! l = Some vs -> Forall (val_in R) vs) ->
  val_in R tree ->
  (forall p s', unchanged_in h0 R s' -> unchanged_in h0 R (yield p s').2) ->
  unchanged_in h0 R s ->
  let e := collect (enum_at_depth tree depth) h0 in
  enum_at_depth tree depth yield s = consume yield e.1.1 e.1.2 s
  /\ (e.1.2 = Ok tt ->
      enum_at_depth tree depth yield s = consume yield e.1.1 (Ok tt) s)
  /\ (forall err, e.1.2 = Raise err ->
      enum_at_depth tree depth yield s = consume yield e.1.1 (Raise err) s).
Proof.
  intros Hd Hclosed Htree Hyield Hs.
  assert (enum_at_depth tree depth yield s =
          consume yield (collect (enum_at_depth tree depth) h0).1.1
            (collect (enum_at_depth tree depth) h0).1.2 s) as Heq.
  { rewrite collect_enum_at_depth by done. cbn [fst snd].
    rewrite (enum_at_depth_levels (Z.to_nat (depth - 1))) by done.
    rewrite (enum_levels_consume h0 R (unchanged_in h0 R) Hclosed) by done.
    by replace (S (Z.to_nat (depth - 1))) with (Z.to_nat depth) by lia. }
  cbv zeta. split; [exact Heq|]. split.
  - intros Hok. by rewrite Heq, Hok.
  - intros err Herr. by rewrite Heq, Herr.
Qed.

Lemma enum_at_depth_materialised_witness :
  let h0 : heap := [[VStr "a"; VStr "b"]; [VList 0%nat; VInt 5]] in
  let R := fun l : loc => (l < 2)%nat in
  let yield := fun p : list nat * val =>
    (alloc [p.2] ;;; ret tt : M unit unit) in
  1 <= 2 <= 5
  /\ (forall l vs, R l -> h0 !! l = Some vs -> Forall (val_in R) vs)
  /\ val_in R (VList 1%nat)
  /\ (forall p s', unchanged_in h0 R s' -> unchanged_in h0 R (yield p s').2)
  /\ unchanged_in h0 R (h0, tt)
  /\ collect (enum_at_depth (VList 1%nat) 2) h0 =
       ([([0; 0]%nat, VStr "a"); ([0; 1]%nat, VStr "b")], Raise TypeError, h0)
  /\ enum_at_depth (VList 1%nat) 2 yield (h0, tt) =
       consume yield [([0; 0]%nat, VStr "a"); ([0; 1]%nat, VStr "b")]
         (Raise TypeError) (h0, tt)
  /\ enum_at_depth (VList 1%nat) 2 yield (h0, tt) =
       (Raise TypeError, (h0 ++ [[VStr "a"]; [VStr "b"]], tt)).
Proof.
  cbv zeta.
  assert (forall l vs, (l < 2)%nat ->
    ([[VStr "a"; VStr "b"]; [VList 0%nat; VInt 5]] : heap) !! l = Some vs ->
    Forall (val_in (fun l : loc => (l < 2)%nat)) vs) as Hclosed.
  { intros [|[|l]] vs Hl; [| |lia]; intros [= <-]; repeat constructor. }
  assert (forall (p : list nat * val) (s' : state unit),
    unchanged_in [[VStr "a"; VStr "b"]; [VList 0%nat; VInt 5]]
      (fun l : loc => (l < 2)%nat) s' ->
    unchanged_in [[VStr "a"; VStr "b"]; [VList 0%nat; VInt 5]]
      (fun l : loc => (l < 2)%nat)
      ((alloc [p.2] ;;; ret tt : M unit unit) s').2) as Hyield.
  { intros p s' Hs' l Hl. simpl. rewrite <- (Hs' l Hl).
    apply lookup_app_l. apply lookup_lt_is_Some. rewrite (Hs' l Hl).
    destruct l as [|[|l]]; [by eexists|by eexists|lia]. }
  assert (unchanged_in [[VStr "a"; VStr "b"]; [VList 0%nat; VInt 5]]
            (fun l : loc => (l < 2)%nat)
            ([[VStr "a"; VStr "b"]; [VList 0%nat; VInt 5]], tt)) as Hs
    by done.
  split; [lia|]. split; [exact Hclosed|]. split; [simpl; lia|].
  split; [exact Hyield|]. split; [exact Hs|]. split; [reflexivity|].
  pose proof (proj2 (proj2 (enum_at_depth_materialised unit
           [[VStr "a"; VStr "b"]; [VList 0%nat; VInt 5]]
           (fun l : loc => (l < 2)%nat) (VList 1%nat) 2
           (fun p => (alloc [p.2] ;;; ret tt : M unit unit))
           ([[VStr "a"; VStr "b"]; [VList 0%nat; VInt 5]], tt)
           ltac:(lia) Hclosed ltac:(simpl; lia) Hyield Hs))
           TypeError eq_refl) as Heq.
  split; [exact Heq|]. rewrite Heq. reflexivity.
Defined.

(** X6. Rewriting a nested list through its own enumeration, as the loops
    of [get_html_map] do: on a nested list [y] held without sharing, the loop
    [for a, x in enum_at_depth(y, k): y[a] = G(a, x)], where [G] computes a
    string from the address and the node without changing the store, ends
    without an error although it assigns into the lists it is iterating
    over; afterwards [y] is the tree in which every node [k] levels down is
    replaced by the string computed from its address and from the node as it
    was, and no object outside [y] has changed. *)
Theorem enum_at_depth_rewrite_in_place (T : Type)
    (G : list nat -> val -> M T string) (g : list nat -> tree -> string)
    (good : tree -> Prop) (n : nat) (y : val) (t : tree) (Fy : gset loc)
    (h : heap) (u : T) :
  (forall a v, read_only (G a v)) ->
  (forall a v tv F (s : state T),
     owns s.1 tv v F -> good tv -> G a v s = (Ok (g a tv), s)) ->
  (n <= 4)%nat -> owns h t y Fy -> lists_to n good t ->
  exists h' Fy',
    enum_at_depth y (Z.of_nat (S n)) (fun p => update_at G y [] p) (h, u) =
      (Ok tt, (h', u))
    /\ owns h' (mapi_depth n g [] t) y Fy'
    /\ Fy' ⊆ Fy
    /\ (forall l, l ∉ Fy -> h' !! l = h !! l).
Proof.
  intros Hro Hgood Hn Hown Hshape.
  apply (phase_run G g good n (Z.of_nat (S n)) _ y y t Fy h u); try done.
  - lia.
  - by left.
Qed.

Lemma enum_at_depth_rewrite_in_place_witness :
  let t := TList [TList [TStr "a"; TStr "b"]; TList []] in
  let r := alloc_tree t [] in
  let G := fun (_ : list nat) v => (wrap_join "<td>" "</td>" v : M unit string) in
  let g := fun (_ : list nat) c => wrapped_text "<td>" "</td>" c in
  (forall a v, read_only (G a v))
  /\ (forall a v tv F (s : state unit),
        owns s.1 tv v F -> is_strings tv -> G a v s = (Ok (g a tv), s))
  /\ (0 <= 4)%nat
  /\ lists_to 0 is_strings t
  /\ mapi_depth 0 g [] t = TList [TStr "<td>a</td><td>b</td>"; TStr ""]
  /\ exists F,
       owns r.2 t r.1 F
       /\ exists h' Fy',
            enum_at_depth r.1 (Z.of_nat 1) (fun p => update_at G r.1 [] p)
              (r.2, tt) = (Ok tt, (h', tt))
            /\ owns h' (mapi_depth 0 g [] t) r.1 Fy'
            /\ Fy' ⊆ F
            /\ (forall l, l ∉ F -> h' !! l = r.2 !! l).
Proof.
  cbv zeta.
  assert (forall (a : list nat) v,
    read_only (wrap_join "<td>" "</td>" v : M unit string)) as Hro
    by (intros _ v; apply read_only_wrap_join).
  assert (forall (a : list nat) v tv F (s : state unit),
    owns s.1 tv v F -> is_strings tv ->
    wrap_join "<td>" "</td>" v s = (Ok (wrapped_text "<td>" "</td>" tv), s))
    as Hgood by (intros a v tv F s; by apply wrap_join_good).
  assert (lists_to 0 is_strings (TList [TList [TStr "a"; TStr "b"]; TList []]))
    as Hshape.
  { repeat constructor.
    - by exists ["a"%string; "b"%string].
    - by exists []. }
  assert (exists F, owns
    (alloc_tree (TList [TList [TStr "a"; TStr "b"]; TList []]) []).2
    (TList [TList [TStr "a"; TStr "b"]; TList []])
    (alloc_tree (TList [TList [TStr "a"; TStr "b"]; TList []]) []).1 F)
    as [F Hown].
  { vm_compute. eexists. prove_owns. }
  split; [exact Hro|]. split; [exact Hgood|]. split; [lia|].
  split; [exact Hshape|]. split; [reflexivity|].
  exists F. split; [exact Hown|].
  exact (enum_at_depth_rewrite_in_place unit
           (fun _ v => wrap_join "<td>" "</td>" v)
           (fun _ c => wrapped_text "<td>" "</td>" c) is_strings 0 _ _ F _ tt
           Hro Hgood (Nat.le_0_l 4) Hown Hshape).
Defined.

(** X7. On a document (tables, rows, cells, paragraphs) held in the store,
    [enum_tables], [enum_rows], [enum_cells] and [enum_paragraphs] end
    without an error and yield as many pairs as the document has tables,
    rows, cells and paragraphs; [iter_paragraphs] yields the paragraphs of
    the document in reading order: those of the first cell of the first row
    of the first table first. *)
Theorem document_traversal (h : heap) (d : doc) (tables : val) :
  represents h (tree_of_doc d) tables = true ->
  (let e := collect (enum_tables tables) h in
   e.1.2 = Ok tt /\ length e.1.1 = n_tables d)
  /\ (let e := collect (enum_rows tables) h in
      e.1.2 = Ok tt /\ length e.1.1 = n_rows d)
  /\ (let e := collect (enum_cells tables) h in
      e.1.2 = Ok tt /\ length e.1.1 = n_cells d)
  /\ (let e := collect (enum_paragraphs tables) h in
      e.1.2 = Ok tt /\ length e.1.1 = n_pars d)
  /\ exists g, iter_paragraphs tables = Ok g
       /\ Forall2 (fun x p => represents h (tree_of_par p) x = true)
            (collect g h).1.1 (concat (concat (concat d))).
Proof.
  intros Hrep.
  destruct (tree_of_doc_counts d) as (H0 & H1 & H2 & H3).
  assert (forall n, (n <= 3)%nat ->
    let e := collect (enum_at_depth tables (Z.of_nat (S n))) h in
    e.1.2 = Ok tt /\ length e.1.1 = length (nodes_at n (tree_of_doc d))) as Hn.
  { intros n Hle. destruct (enum_at_depth_doc h d tables n Hrep Hle) as [He Hf].
    split; [done|]. apply Forall2_length in Hf. by rewrite length_map in Hf. }
  split; [rewrite <- H0; exact (Hn 0%nat ltac:(lia))|].
  split; [rewrite <- H1; exact (Hn 1%nat ltac:(lia))|].
  split; [rewrite <- H2; exact (Hn 2%nat ltac:(lia))|].
  split; [rewrite <- H3; exact (Hn 3%nat ltac:(lia))|].
  eexists. split; [by apply iter_at_depth_valid|].
  rewrite collect_iter_at_depth by done. cbn [fst].
  destruct (enum_at_depth_doc h d tables 3 Hrep ltac:(lia)) as [_ Hf].
  rewrite collect_enum_at_depth in Hf by done. cbn [fst] in Hf.
  rewrite tree_of_doc_paragraphs in Hf.
  apply Forall2_fmap_r in Hf. exact Hf.
Qed.

Lemma document_traversal_witness :
  let r := alloc_tree (tree_of_doc small_doc) [] in
  represents r.2 (tree_of_doc small_doc) r.1 = true /\
  length (collect (enum_paragraphs r.1) r.2).1.1 = 3%nat.
Proof.
  split; [by vm_compute|].
  exact (proj2 (proj1 (proj2 (proj2 (proj2
    (document_traversal (alloc_tree (tree_of_doc small_doc) []).2 small_doc
       (alloc_tree (tree_of_doc small_doc) []).1 eq_refl)))))).
Defined.

(** X8. On a nested list of the store whose nodes on level [n] hold only
    strings, with no integer on the levels 0 to [n] ([joinable n]),
    [join_leaves] with the target depth [n] and a recursion budget above [n]
    returns the tree in which every node on level [n] is replaced by its
    strings joined with the separator, the levels above keeping their shape
    ([join_tree n]).  The result is built of new list objects, none of them
    shared or taken from the argument, and nothing that existed in the store
    is changed. *)
Theorem join_leaves_joins_level (T : Type) (u : T) (fuel n : nat)
    (joint : string) (t : tree) (v : val) (h : heap) :
  (n < fuel)%nat -> represents h t v = true -> joinable n t = true ->
  exists v' h2 F,
    join_leaves fuel joint v (Z.of_nat n) 0 (h, u) = (Ok v', (h ++ h2, u))
    /\ represents (h ++ h2) (join_tree n joint t) v' = true
    /\ owns (h ++ h2) (join_tree n joint t) v' F
    /\ (forall l, l ∈ F -> (length h <= l)%nat)
    /\ represents (h ++ h2) t v = true.
Proof.
  intros Hfuel Hrep Hjoin.
  destruct (join_leaves_tree u joint n fuel t v h 0 Hfuel Hrep) as [h2 Hrun].
  rewrite Hjoin in Hrun. destruct Hrun as (v' & F & Hrun & Hown & Hfresh).
  exists v', h2, F. split; [done|]. split; [by eapply owns_represents|].
  split; [done|]. split; [done|]. by apply represents_app.
Qed.

Lemma join_leaves_joins_level_witness :
  let r := alloc_tree runs_fixture [] in
  (4 < 5)%nat /\ represents r.2 runs_fixture r.1 = true
  /\ joinable 4 runs_fixture = true
  /\ join_tree 4 "" runs_fixture = joined_fixture
  /\ exists v' h2 F,
       join_leaves 5 "" r.1 4 0 (r.2, tt) = (Ok v', (r.2 ++ h2, tt))
       /\ represents (r.2 ++ h2) (join_tree 4 "" runs_fixture) v' = true
       /\ owns (r.2 ++ h2) (join_tree 4 "" runs_fixture) v' F
       /\ (forall l, l ∈ F -> (length r.2 <= l)%nat)
       /\ represents (r.2 ++ h2) runs_fixture r.1 = true.
Proof.
  cbv zeta. split; [lia|]. split; [reflexivity|]. split; [reflexivity|].
  split; [reflexivity|].
  apply (join_leaves_joins_level unit tt 5 4 "" runs_fixture
           (alloc_tree runs_fixture []).1 (alloc_tree runs_fixture []).2);
    [lia|reflexivity|reflexivity].
Defined.

(** X9. On a nested list of the store in which some node on level [n]
    holds an element that is not a string (a list, for a target depth that is
    too small), or in which an integer lies on one of the levels 0 to [n],
    [join_leaves] with the target depth [n] and a recursion budget above [n]
    raises [TypeError]; the objects that existed in the store are left as
    they were. *)
Theorem join_leaves_not_strings_raises (T : Type) (u : T) (fuel n : nat)
    (joint : string) (t : tree) (v : val) (h : heap) :
  (n < fuel)%nat -> represents h t v = true -> joinable n t = false ->
  exists h2,
    join_leaves fuel joint v (Z.of_nat n) 0 (h, u) =
      (Raise TypeError, (h ++ h2, u)).
Proof.
  intros Hfuel Hrep Hjoin.
  destruct (join_leaves_tree u joint n fuel t v h 0 Hfuel Hrep) as [h2 Hrun].
  rewrite Hjoin in Hrun. by exists h2.
Qed.

Lemma join_leaves_not_strings_raises_witness :
  let r := alloc_tree runs_fixture [] in
  (3 < 5)%nat /\ represents r.2 runs_fixture r.1 = true
  /\ joinable 3 runs_fixture = false
  /\ exists h2,
       join_leaves 5 "" r.1 3 0 (r.2, tt) = (Raise TypeError, (r.2 ++ h2, tt)).
Proof.
  cbv zeta. split; [lia|]. split; [reflexivity|]. split; [reflexivity|].
  apply (join_leaves_not_strings_raises unit tt 5 3 "" runs_fixture
           (alloc_tree runs_fixture []).1 (alloc_tree runs_fixture []).2);
    [lia|reflexivity|reflexivity].
Defined.

(** X10. When the target depth lies above the depth the recursion starts
    from (a negative [to_depth], for instance), the test [_depth == to_depth]
    never holds and the recursion goes on into the characters of every
    string: on a tree that holds a string that is not empty, [join_leaves]
    returns for no recursion budget; it ends in [RecursionError], or in
    [TypeError] if the tree holds an integer. *)
Theorem join_leaves_depth_out_of_reach (T : Type) (u : T) (fuel : nat)
    (joint : string) (t : tree) (v : val) (h : heap) (to_depth _depth : Z) :
  to_depth < _depth -> represents h t v = true -> has_text t = true ->
  (join_leaves fuel joint v to_depth _depth (h, u)).1 = Raise RecursionError
  \/ (has_int t = true
      /\ (join_leaves fuel joint v to_depth _depth (h, u)).1 = Raise TypeError).
Proof.
  intros Hd Hrep Htext.
  destruct (join_leaves_unreachable u joint to_depth fuel t v h _depth Hd Hrep)
    as (h2 & o & -> & [->|[[Hi ->]|[Ht _]]]); [auto|auto|congruence].
Qed.

Lemma join_leaves_depth_out_of_reach_witness :
  let r := alloc_tree runs_fixture [] in
  -1 < 0 /\ represents r.2 runs_fixture r.1 = true
  /\ has_text runs_fixture = true
  /\ ((join_leaves 1000 "" r.1 (-1) 0 (r.2, tt)).1 = Raise RecursionError
      \/ (has_int runs_fixture = true
          /\ (join_leaves 1000 "" r.1 (-1) 0 (r.2, tt)).1 = Raise TypeError)).
Proof.
  cbv zeta. split; [lia|]. split; [reflexivity|]. split; [reflexivity|].
  apply (join_leaves_depth_out_of_reach unit tt 1000 "" runs_fixture
           (alloc_tree runs_fixture []).1 (alloc_tree runs_fixture []).2 (-1) 0);
    [lia|reflexivity|reflexivity].
Defined.

(** X11. What [join_leaves] returns can be joined again one level higher:
    for a tree as in X8 with the target depth [n + 1], the result of
    [join_leaves(j2, tree, n + 1)] is accepted by [join_leaves] with the
    target depth [n] and any separator [j1], which returns the tree joined
    twice. *)
Theorem join_leaves_twice (T : Type) (u : T) (fuel n : nat) (j1 j2 : string)
    (t : tree) (v : val) (h : heap) :
  (S n < fuel)%nat -> represents h t v = true -> joinable (S n) t = true ->
  exists v1 h1 v2 h2,
    join_leaves fuel j2 v (Z.of_nat (S n)) 0 (h, u) = (Ok v1, (h1, u))
    /\ join_leaves fuel j1 v1 (Z.of_nat n) 0 (h1, u) = (Ok v2, (h2, u))
    /\ represents h2 (join_tree n j1 (join_tree (S n) j2 t)) v2 = true.
Proof.
  intros Hfuel Hrep Hjoin.
  destruct (join_leaves_tree u j2 (S n) fuel t v h 0 Hfuel Hrep) as [h1 Hrun1].
  rewrite Hjoin in Hrun1. destruct Hrun1 as (v1 & F1 & Hrun1 & Hown1 & _).
  apply owns_represents in Hown1.
  destruct (join_leaves_tree u j1 n fuel _ v1 (h ++ h1) 0 ltac:(lia) Hown1)
    as [h2 Hrun2].
  rewrite joinable_join_tree in Hrun2.
  destruct Hrun2 as (v2 & F2 & Hrun2 & Hown2 & _).
  exists v1, (h ++ h1), v2, ((h ++ h1) ++ h2).
  split; [done|]. split; [done|]. by eapply owns_represents.
Qed.

Lemma join_leaves_twice_witness :
  let r := alloc_tree runs_fixture [] in
  (4 < 5)%nat /\ represents r.2 runs_fixture r.1 = true
  /\ joinable 4 runs_fixture = true
  /\ join_tree 3 "," (join_tree 4 "" runs_fixture) =
       TList [TList [TList [TStr "run1run2,run3run4"]]]
  /\ exists v1 h1 v2 h2,
       join_leaves 5 "" r.1 4 0 (r.2, tt) = (Ok v1, (h1, tt))
       /\ join_leaves 5 "," v1 3 0 (h1, tt) = (Ok v2, (h2, tt))
       /\ represents h2 (join_tree 3 "," (join_tree 4 "" runs_fixture)) v2 = true.
Proof.
  cbv zeta. split; [lia|]. split; [reflexivity|]. split; [reflexivity|].
  split; [reflexivity|].
  apply (join_leaves_twice unit tt 5 3 "," "" runs_fixture
           (alloc_tree runs_fixture []).1 (alloc_tree runs_fixture []).2);
    [lia|reflexivity|reflexivity].
Defined.

(** X12. Joining with the empty separator loses no text and changes no
    order: for a tree as in X8, the text of the tree that
    [join_leaves("", tree, n)] returns, read from left to right, is the text
    of the argument. *)
Theorem join_leaves_keeps_text (T : Type) (u : T) (fuel n : nat)
    (t : tree) (v : val) (h : heap) :
  (n < fuel)%nat -> represents h t v = true -> joinable n t = true ->
  exists v' h' t',
    join_leaves fuel "" v (Z.of_nat n) 0 (h, u) = (Ok v', (h', u))
    /\ represents h' t' v' = true
    /\ all_text t' = all_text t.
Proof.
  intros Hfuel Hrep Hjoin.
  destruct (join_leaves_tree u "" n fuel t v h 0 Hfuel Hrep) as [h2 Hrun].
  rewrite Hjoin in Hrun. destruct Hrun as (v' & F & Hrun & Hown & _).
  exists v', (h ++ h2), (join_tree n "" t). split; [done|].
  split; [by eapply owns_represents|]. by apply all_text_join_tree.
Qed.

Lemma join_leaves_keeps_text_witness :
  let r := alloc_tree runs_fixture [] in
  (4 < 5)%nat /\ represents r.2 runs_fixture r.1 = true
  /\ joinable 4 runs_fixture = true
  /\ all_text runs_fixture = "run1run2run3run4"%string
  /\ exists v' h' t',
       join_leaves 5 "" r.1 4 0 (r.2, tt) = (Ok v', (h', tt))
       /\ represents h' t' v' = true
       /\ all_text t' = all_text runs_fixture.
Proof.
  cbv zeta. split; [lia|]. split; [reflexivity|]. split; [reflexivity|].
  split; [reflexivity|].
  apply (join_leaves_keeps_text unit tt 5 4 runs_fixture
           (alloc_tree runs_fixture []).1 (alloc_tree runs_fixture []).2);
    [lia|reflexivity|reflexivity].
Defined.

(** X13. Joining and iterating fit together: for a target depth [n] from 1
    to 5 and a tree as in X8, the items of [iter_at_depth] at the depth [n]
    over the result of [join_leaves(joint, tree, n)] are, in order, the
    strings [joint.join(x)] for the items [x] of [iter_at_depth] at the depth
    [n] over the tree itself. *)
Theorem iter_at_depth_of_joined (T : Type) (u : T) (fuel n : nat)
    (joint : string) (t : tree) (v : val) (h : heap) :
  (1 <= n <= 5)%nat -> (n < fuel)%nat ->
  represents h t v = true -> joinable n t = true ->
  exists v' h' g g',
    join_leaves fuel joint v (Z.of_nat n) 0 (h, u) = (Ok v', (h', u))
    /\ iter_at_depth v (Z.of_nat n) = Ok g
    /\ iter_at_depth v' (Z.of_nat n) = Ok g'
    /\ (collect g h).1.2 = Ok tt
    /\ (collect g' h').1.2 = Ok tt
    /\ Forall2 (fun x y =>
         exists s, py_join joint x (h, u) = (Ok s, (h, u)) /\ y = VStr s)
         (collect g h).1.1 (collect g' h').1.1.
Proof.
  intros Hn Hfuel Hrep Hjoin.
  destruct (join_leaves_tree u joint n fuel t v h 0 Hfuel Hrep) as [h2 Hrun].
  rewrite Hjoin in Hrun. destruct Hrun as (v' & F & Hrun & Hown & _).
  apply owns_represents in Hown.
  exists v', (h ++ h2). eexists _, _. split; [done|].
  split; [apply iter_at_depth_valid; lia|].
  split; [apply iter_at_depth_valid; lia|].
  rewrite !collect_iter_at_depth by lia. cbn [fst snd]. rewrite Nat2Z.id.
  destruct n as [|m]; [lia|].
  destruct (enumerate_at_depth_nodes h m t v Hrep) as [Hend Hnodes].
  destruct (enumerate_at_depth_nodes (h ++ h2) m _ v' Hown) as [Hend' Hnodes'].
  rewrite (iterable_pred m t) in Hend, Hnodes by (by apply joinable_iterable).
  rewrite join_tree_iterable in Hend', Hnodes'.
  split; [done|]. split; [done|].
  specialize (Hnodes eq_refl). specialize (Hnodes' eq_refl).
  rewrite nodes_at_join_tree in Hnodes'. apply Forall2_fmap_r in Hnodes'.
  eapply Forall2_through; [|exact Hnodes|exact Hnodes'|by apply joinable_nodes].
  intros x y c Hx Hy Hc. unfold compose in Hy. cbn [join_tree] in Hy.
  apply represents_TStr in Hy as ->.
  eexists. split; [|done]. by rewrite (py_join_tree u joint h c x Hx), Hc.
Qed.

Lemma iter_at_depth_of_joined_witness :
  let r := alloc_tree runs_fixture [] in
  (1 <= 4 <= 5)%nat /\ (4 < 5)%nat /\ represents r.2 runs_fixture r.1 = true
  /\ joinable 4 runs_fixture = true
  /\ exists v' h' g g',
       join_leaves 5 "-" r.1 4 0 (r.2, tt) = (Ok v', (h', tt))
       /\ iter_at_depth r.1 4 = Ok g
       /\ iter_at_depth v' 4 = Ok g'
       /\ (collect g r.2).1.2 = Ok tt
       /\ (collect g' h').1.2 = Ok tt
       /\ Forall2 (fun x y =>
            exists s, py_join "-" x (r.2, tt) = (Ok s, (r.2, tt)) /\ y = VStr s)
            (collect g r.2).1.1 (collect g' h').1.1.
Proof.
  cbv zeta. split; [lia|]. split; [lia|]. split; [reflexivity|].
  split; [reflexivity|].
  apply (iter_at_depth_of_joined unit tt 5 4 "-" runs_fixture
           (alloc_tree runs_fixture []).1 (alloc_tree runs_fixture []).2);
    [lia|lia|reflexivity|reflexivity].
Defined.

(** X14. In the HTML map of a document held in the store without sharing,
    the closing tags ["</table>"], ["</tr>"], ["</td>"] and ["</pre>"] occur
    as many times as there are tables, rows, cells and paragraphs, plus the
    times they occur inside the paragraph texts.  When no paragraph text
    contains ["<"], every closing tag occurs exactly as often as its opening
    tag, and ["<html>"], ["<body>"], ["</body>"] and ["</html>"] occur
    once. *)
Theorem html_map_tags_balanced (T : Type) (fuel : nat) (d : doc) (tables : val)
    (F : gset loc) (h : heap) (u : T) :
  owns h (tree_of_doc d) tables F -> (6 <= fuel)%nat ->
  exists out h',
    get_html_map fuel tables (h, u) = (Ok out, (h', u))
    /\ occurrences "</table>" out =
         (n_tables d + text_occurrences "</table>" d)%nat
    /\ occurrences "</tr>" out = (n_rows d + text_occurrences "</tr>" d)%nat
    /\ occurrences "</td>" out = (n_cells d + text_occurrences "</td>" d)%nat
    /\ occurrences "</pre>" out = (n_pars d + text_occurrences "</pre>" d)%nat
    /\ (plain_doc d ->
        occurrences "</table>" out = occurrences "<table" out
        /\ occurrences "</tr>" out = occurrences "<tr>" out
        /\ occurrences "</td>" out = occurrences "<td>" out
        /\ occurrences "</pre>" out = occurrences "<pre>" out
        /\ occurrences "<html>" out = 1%nat
        /\ occurrences "<body>" out = 1%nat
        /\ occurrences "</body>" out = 1%nat
        /\ occurrences "</html>" out = 1%nat).
Proof.
  intros Hown Hfuel.
  destruct (get_html_map_doc fuel d tables F h u Hown Hfuel) as (h' & Hrun & _).
  exists (html_of d), h'. split; [done|].
  assert (occurrences "</table>" (html_of d) =
          (n_tables d + text_occurrences "</table>" d)%nat) as H1.
  { rewrite (tag_count "</table>" eq_refl (fun X => eq_refl) 1 0 0 0 d) by done.
    lia. }
  assert (occurrences "</tr>" (html_of d) =
          (n_rows d + text_occurrences "</tr>" d)%nat) as H2.
  { rewrite (tag_count "</tr>" eq_refl (fun X => eq_refl) 0 1 0 0 d) by done.
    lia. }
  assert (occurrences "</td>" (html_of d) =
          (n_cells d + text_occurrences "</td>" d)%nat) as H3.
  { rewrite (tag_count "</td>" eq_refl (fun X => eq_refl) 0 0 1 0 d) by done.
    lia. }
  assert (occurrences "</pre>" (html_of d) =
          (n_pars d + text_occurrences "</pre>" d)%nat) as H4.
  { rewrite (tag_count "</pre>" eq_refl (fun X => eq_refl) 0 0 0 1 d) by done.
    lia. }
  repeat (split; [done|]).
  intros Hplain. rewrite H1, H2, H3, H4.
  rewrite (tag_count "<table" eq_refl (fun X => eq_refl) 1 0 0 0 d) by done.
  rewrite (tag_count "<tr>" eq_refl (fun X => eq_refl) 0 1 0 0 d) by done.
  rewrite (tag_count "<td>" eq_refl (fun X => eq_refl) 0 0 1 0 d) by done.
  rewrite (tag_count "<pre>" eq_refl pre_in_pre 0 0 0 1 d) by done.
  rewrite (occurrences_html_of "<html>" eq_refl (fun X => eq_refl)).
  rewrite (occurrences_html_of "<body>" eq_refl (fun X => eq_refl)).
  rewrite (occurrences_html_of "</body>" eq_refl (fun X => eq_refl)).
  rewrite (occurrences_html_of "</html>" eq_refl (fun X => eq_refl)).
  rewrite !text_occurrences_plain by done.
  generalize (n_tables d) (n_rows d) (n_cells d) (n_pars d).
  intros n1 n2 n3 n4.
  repeat match goal with
  | |- context [occurrences ?p ?s] =>
      let v := eval vm_compute in (occurrences p s) in
      change (occurrences p s) with v
  end.
  lia.
Qed.

Lemma html_map_tags_balanced_witness :
  let r := alloc_tree (tree_of_doc small_doc) [] in
  exists F,
    owns r.2 (tree_of_doc small_doc) r.1 F /\ (6 <= 6)%nat /\
    exists out h',
      get_html_map 6 r.1 (r.2, tt) = (Ok out, (h', tt))
      /\ occurrences "</pre>" out = 3%nat.
Proof.
  cbv zeta.
  assert (exists F, owns (alloc_tree (tree_of_doc small_doc) []).2
                      (tree_of_doc small_doc)
                      (alloc_tree (tree_of_doc small_doc) []).1 F) as [F Hown].
  { vm_compute. eexists. prove_owns. }
  exists F. split; [exact Hown|]. split; [lia|].
  destruct (html_map_tags_balanced unit 6 small_doc _ _ _ tt Hown (le_n 6))
    as (out & h' & Hrun & _ & _ & _ & H4 & _).
  exists out, h'. split; [exact Hrun|]. rewrite H4. reflexivity.
Defined.

(** X15. The HTML map does not depend on how the paragraphs are cut into
    runs: for a document held in the store without sharing,
    [get_html_map(join_leaves("", tables, 4))] returns the string that
    [get_html_map(tables)] returns. *)
Theorem html_map_of_joined_runs (T : Type) (u : T) (fuel : nat) (d : doc)
    (tables : val) (F : gset loc) (h : heap) :
  owns h (tree_of_doc d) tables F -> (6 <= fuel)%nat ->
  exists joined h1 out h2 h3,
    join_leaves fuel "" tables 4 0 (h, u) = (Ok joined, (h1, u))
    /\ get_html_map fuel joined (h1, u) = (Ok out, (h2, u))
    /\ get_html_map fuel tables (h, u) = (Ok out, (h3, u)).
Proof.
  intros Hown Hfuel.
  destruct (get_html_map_doc fuel d tables F h u Hown Hfuel) as (h3 & Hmap & _).
  destruct (join_leaves_tree u "" 4 fuel _ tables h 0 ltac:(lia)
              (owns_represents _ _ _ _ Hown)) as [h1 Hrun].
  rewrite joinable_tree_of_doc in Hrun.
  destruct Hrun as (joined & F' & Hrun & Hown' & _).
  rewrite join_tree_doc in Hown'.
  destruct (get_html_map_doc fuel (joined_doc d) joined F' (h ++ h1) u
              Hown' Hfuel) as (h2 & Hmap' & _).
  rewrite html_of_joined_doc in Hmap'.
  by exists joined, (h ++ h1), (html_of d), h2, h3.
Qed.

Lemma html_map_of_joined_runs_witness :
  let r := alloc_tree (tree_of_doc small_doc) [] in
  exists F,
    owns r.2 (tree_of_doc small_doc) r.1 F /\ (6 <= 6)%nat /\
    exists joined h1 out h2 h3,
      join_leaves 6 "" r.1 4 0 (r.2, tt) = (Ok joined, (h1, tt))
      /\ get_html_map 6 joined (h1, tt) = (Ok out, (h2, tt))
      /\ get_html_map 6 r.1 (r.2, tt) = (Ok out, (h3, tt)).
Proof.
  cbv zeta.
  assert (exists F, owns (alloc_tree (tree_of_doc small_doc) []).2
                      (tree_of_doc small_doc)
                      (alloc_tree (tree_of_doc small_doc) []).1 F) as [F Hown].
  { vm_compute. eexists. prove_owns. }
  exists F. split; [exact Hown|]. split; [lia|].
  exact (html_map_of_joined_runs unit tt 6 small_doc _ _ _ Hown (le_n 6)).
Defined.

(** X16. [get_html_map] joins the runs of every paragraph with [str.join]
    and has no check of its own: on a nested list held without sharing whose
    tables, rows and cells are lists, if some paragraph is an integer (a
    value that cannot be iterated over) or a list that holds an element that
    is not a string, the call raises [TypeError], whatever the other
    paragraphs are; the recursion budget is the one the deep copy needs. *)
Theorem html_map_non_string_raises (T : Type) (fuel : nat) (t : tree)
    (tables : val) (F : gset loc) (h : heap) (u : T) :
  owns h t tables F -> lists_to 3 (fun _ => True) t -> (height t < fuel)%nat ->
  Exists (fun c => joinable 0 c = false) (nodes_at 3 t) ->
  exists s', get_html_map fuel tables (h, u) = (Raise TypeError, s').
Proof.
  intros Hown Hshape Hfuel Hbad.
  eapply get_html_map_type_error; [done..|]. by apply forallb_Exists_false.
Qed.

Lemma html_map_non_string_raises_witness :
  let t := TList [TList [TList [TList [TList [TStr "a"]; TList [TStr "b"; TInt 1]]]]] in
  let r := alloc_tree t [] in
  lists_to 3 (fun _ => True) t /\ (height t < 10)%nat
  /\ Exists (fun c => joinable 0 c = false) (nodes_at 3 t)
  /\ exists F,
       owns r.2 t r.1 F
       /\ exists s', get_html_map 10 r.1 (r.2, tt) = (Raise TypeError, s').
Proof.
  cbv zeta.
  assert (lists_to 3 (fun _ => True)
    (TList [TList [TList [TList [TList [TStr "a"]; TList [TStr "b"; TInt 1]]]]]))
    as Hshape by (repeat constructor).
  assert (Exists (fun c => joinable 0 c = false)
    (nodes_at 3
       (TList [TList [TList [TList [TList [TStr "a"];
                                    TList [TStr "b"; TInt 1]]]]]))) as Hbad
    by (right; left; reflexivity).
  assert (exists F, owns
    (alloc_tree (TList [TList [TList [TList [TList [TStr "a"];
                                             TList [TStr "b"; TInt 1]]]]]) []).2
    (TList [TList [TList [TList [TList [TStr "a"]; TList [TStr "b"; TInt 1]]]]])
    (alloc_tree (TList [TList [TList [TList [TList [TStr "a"];
                                             TList [TStr "b"; TInt 1]]]]]) []).1 F)
    as [F Hown].
  { vm_compute. eexists. prove_owns. }
  split; [exact Hshape|]. split; [simpl; lia|]. split; [exact Hbad|].
  exists F. split; [exact Hown|].
  exact (html_map_non_string_raises unit 10 _ _ F _ tt Hown Hshape
           ltac:(simpl; lia) Hbad).
Defined.

(** X17. [iter_at_depth] flattens: on a nested list of the store and for
    the depths 1 to 5, iterating at the depth [n + 1] ends without an error
    exactly when no integer lies on the levels 0 to [n] (strings count as
    sequences of their characters), and then yields the nodes [n + 1] levels
    down, from left to right; otherwise the iteration ends in
    [TypeError]. *)
Theorem iter_at_depth_flattens (h : heap) (t : tree) (v : val) (n : nat) :
  (n <= 4)%nat -> represents h t v = true ->
  exists g, iter_at_depth v (Z.of_nat (S n)) = Ok g
    /\ (collect g h).1.2 = (if iterable n t then Ok tt else Raise TypeError)
    /\ (iterable n t = true ->
        Forall2 (fun x c => represents h c x = true)
          (collect g h).1.1 (nodes_at n t)).
Proof.
  intros Hn Hrep. eexists. split; [apply iter_at_depth_valid; lia|].
  rewrite collect_iter_at_depth by lia. cbn [fst snd]. rewrite Nat2Z.id.
  apply enumerate_at_depth_nodes, Hrep.
Qed.

Lemma iter_at_depth_flattens_witness :
  let r := alloc_tree fixture [] in
  (3 <= 4)%nat /\ represents r.2 fixture r.1 = true
  /\ iterable 3 fixture = true
  /\ nodes_at 3 fixture =
       [TStr "a"; TStr "b"; TStr "c"; TStr "d"; TStr "e"; TStr "f"; TStr "g";
        TStr "h"]
  /\ exists g, iter_at_depth r.1 (Z.of_nat 4) = Ok g
       /\ (collect g r.2).1.2 = (if iterable 3 fixture then Ok tt
                                 else Raise TypeError)
       /\ (iterable 3 fixture = true ->
           Forall2 (fun x c => represents r.2 c x = true)
             (collect g r.2).1.1 (nodes_at 3 fixture)).
Proof.
  cbv zeta. split; [lia|]. split; [reflexivity|]. split; [reflexivity|].
  split; [reflexivity|].
  apply (iter_at_depth_flattens (alloc_tree fixture []).2 fixture
           (alloc_tree fixture []).1 3); [lia|reflexivity].
Defined.
